(** * Fredalizer: the detection pipeline of [useVisionEngine] and the
      rendering hook [useVideoProcessor]

    Shallow embedding of [src/hooks/useVisionEngine.ts] and of the
    rendering hook, with the properties of the design document stated
    over it.

    Numbers.  A JavaScript number is an IEEE 754 double ([Float64.Number]):
    not-a-number, an infinity, or a finite value, kept as the rational it
    denotes.  Arithmetic rounds the exact result to the nearest double,
    ties to even.  Media times and detection timestamps are finite and are
    carried as rationals [Q]. *)

From Stdlib Require Import List Bool Arith ZArith QArith Qround Qabs Qpower.
From Stdlib Require Import Lia Lqa.
From Stdlib Require Import Sorted Permutation.
From Stdlib Require String DecimalString.
From Stdlib Require PrimFloat FloatOps SpecFloat.
Import ListNotations.

Local Open Scope Q_scope.

(** [x > y] on numbers, as a boolean test. *)
Definition Qgtb (x y : Q) : bool := negb (Qle_bool x y).

(** ** Numbers

    The arithmetic of doubles as far as the two hooks use it: [-], [*],
    [/], [>], [<=], [Math.round], [Math.min] and the conversion to a
    string.  The sign of a zero is not kept: [-0] and [0] compare equal
    and print alike, and the one division modelled has [video.duration]
    for its denominator, which is never negative. *)

Module Float64.

(** A JavaScript number. *)
Inductive Number : Type :=
| NaN
| Infinity (negative : bool)
| Finite (value : Q).

Coercion Finite : Q >-> Number.

(** *** Rounding to the nearest double *)

Definition pow2 (k : Z) : Q := 2 ^ k.

(** The exponent of the binade of [x > 0]: [2^k <= x < 2^(k+1)]. *)
Definition ilog2 (x : Q) : Z :=
  let k := (Z.log2 (Qnum x) - Z.log2 (Zpos (Qden x)))%Z in
  if Qle_bool (pow2 k) x then k else (k - 1)%Z.

(** The nearest integer, the even one of two that are as near. *)
Definition nearestEven (x : Q) : Z :=
  let f := Qfloor x in
  match Qcompare (x - inject_Z f) (1 # 2) with
  | Lt => f
  | Gt => (f + 1)%Z
  | Eq => if Z.even f then f else (f + 1)%Z
  end.

(** The exponent of the last place of the doubles around [x > 0]: 53
    significant bits, and no place below [2^-1074] (the subnormal
    doubles). *)
Definition lastPlace (x : Q) : Z := Z.max (ilog2 x - 52) (-1074).

(** [x > 0] rounded to a multiple of its last place. *)
Definition roundPos (x : Q) : Q :=
  let e := lastPlace x in
  Qred (inject_Z (nearestEven (x / pow2 e)) * pow2 e).

(** Round to nearest, ties to even, with no bound on the exponent yet. *)
Definition nearest (x : Q) : Q :=
  match Qcompare x 0 with
  | Eq => 0
  | Gt => roundPos x
  | Lt => - roundPos (- x)
  end.

Definition isNegative (q : Q) : bool := negb (Qle_bool 0 q).

(** The double an exact result is delivered as: what rounds to [2^1024]
    or beyond overflows to an infinity. *)
Definition round64 (x : Q) : Number :=
  let r := nearest x in
  if Qle_bool (pow2 1024) (Qabs r) then Infinity (isNegative r) else Finite r.

(** A decimal literal denotes the double nearest to it. *)
Definition double (q : Q) : Q := nearest q.

(** [q] is the value of a finite double. *)
Definition isDouble (q : Q) : Prop := nearest q == q /\ Qabs q < pow2 1024.

(** The midpoint between one half and the next double: what lies above
    it rounds to more than one half, what lies at or below it does not. *)
Definition aboveHalf : Q := (1 # 2) + pow2 (-54).

(** *** Operators *)

(** [x - y] *)
Definition sub (x y : Number) : Number :=
  match x, y with
  | NaN, _ | _, NaN => NaN
  | Infinity s, Infinity s' => if Bool.eqb s s' then NaN else Infinity s
  | Infinity s, Finite _ => Infinity s
  | Finite _, Infinity s => Infinity (negb s)
  | Finite a, Finite b => round64 (a - b)
  end.

(** [x * y] *)
Definition mul (x y : Number) : Number :=
  match x, y with
  | NaN, _ | _, NaN => NaN
  | Infinity s, Infinity s' => Infinity (xorb s s')
  | Infinity s, Finite b | Finite b, Infinity s =>
      if Qeq_bool b 0 then NaN else Infinity (xorb s (isNegative b))
  | Finite a, Finite b => round64 (a * b)
  end.

(** [x / y]; a zero denominator is [+0]. *)
Definition div (x y : Number) : Number :=
  match x, y with
  | NaN, _ | _, NaN => NaN
  | Infinity _, Infinity _ => NaN
  | Infinity s, Finite b => Infinity (xorb s (isNegative b))
  | Finite _, Infinity _ => Finite 0
  | Finite a, Finite b =>
      if Qeq_bool b 0
      then if Qeq_bool a 0 then NaN else Infinity (isNegative a)
      else round64 (a / b)
  end.

(** [x > y] and [x <= y]: both false when a side is [NaN]. *)
Definition gtb (x y : Number) : bool :=
  match x, y with
  | NaN, _ | _, NaN => false
  | Infinity s, Infinity s' => negb s && s'
  | Infinity s, Finite _ => negb s
  | Finite _, Infinity s => s
  | Finite a, Finite b => Qgtb a b
  end.

Definition leb (x y : Number) : bool :=
  match x, y with
  | NaN, _ | _, NaN => false
  | _, _ => negb (gtb x y)
  end.

Definition le (x y : Number) : Prop := leb x y = true.

Definition gt (x y : Number) : Prop := gtb x y = true.

Module Math.

(** [Math.round]: the nearest integer, halves upwards; the result is
    exact. *)
Definition round (x : Number) : Number :=
  match x with
  | Finite q => Finite (inject_Z (Qfloor (q + (1 # 2))))
  | _ => x
  end.

(** [Math.min] of two numbers. *)
Definition min (x y : Number) : Number :=
  match x, y with
  | NaN, _ | _, NaN => NaN
  | _, _ => if gtb x y then y else x
  end.

End Math.

(** The value of one of the proof assistant's own binary64 floats, to
    compare the operators above with. *)
Definition ofFloat (f : PrimFloat.float) : Number :=
  match FloatOps.Prim2SF f with
  | SpecFloat.S754_zero _ => Finite 0
  | SpecFloat.S754_infinity s => Infinity s
  | SpecFloat.S754_nan => NaN
  | SpecFloat.S754_finite s m e =>
      Finite (Qred ((if s then -1 else 1) * inject_Z (Zpos m) * pow2 e))
  end.

End Float64.

(** *** [Number::toString]: the shortest decimal that denotes the double *)

Module NumberToString.
Import Float64.
Import String.
Local Open Scope string_scope.

(** The decimal digits of a non-negative integer. *)
Definition digits (z : Z) : string :=
  DecimalString.NilZero.string_of_uint (N.to_uint (Z.to_N z)).

Definition pow10 (n : Z) : Q := 10 ^ n.

(** [n] zeros. *)
Fixpoint zeros (n : nat) : string :=
  match n with
  | O => ""
  | S n' => "0" ++ zeros n'
  end.

(** The [n] with [10^(n-1) <= x < 10^n], for [x > 0]. *)
Definition decimalExponent (x : Q) : Z :=
  let n0 := (ilog2 x * 30103 / 100000 - 1)%Z in
  match filter (fun n => negb (Qle_bool (pow10 n) x))
               (map (fun i => (n0 + Z.of_nat i)%Z) (seq 0 5)) with
  | n :: _ => n
  | [] => (n0 + 5)%Z
  end.

(** The integers [s] next to [x / 10^(n-k)] for which [s * 10^(n-k)] is
    the double [x], the closer one first (the even one when both are as
    close). *)
Definition candidates (x : Q) (n k : Z) : list Z :=
  let scale := pow10 (n - k) in
  let lo := Qfloor (x / scale) in
  let hi := (lo + 1)%Z in
  let ok s := Qeq_bool (nearest (inject_Z s * scale)) x in
  let dlo := x - inject_Z lo * scale in
  let dhi := inject_Z hi * scale - x in
  let ordered :=
    match Qcompare dlo dhi with
    | Lt => [lo; hi]
    | Gt => [hi; lo]
    | Eq => if Z.even lo then [lo; hi] else [hi; lo]
    end in
  filter ok ordered.

(** The shortest digit string [s] (of [k] digits, [k] tried from 1 on;
    17 always suffice for a double) and the exponent [n] with
    [s * 10^(n-k)] the double [x].  When the digits round up to [10^k]
    the string is ["1"] and the exponent one more. *)
Fixpoint shortest (x : Q) (n : Z) (ks : list Z) : string * Z :=
  match ks with
  | [] => (digits (Qfloor (x / pow10 (n - 17))), n)
  | k :: ks' =>
      match candidates x n k with
      | s :: _ =>
          if (s =? 10 ^ k)%Z then ("1", (n + 1)%Z) else (digits s, n)
      | [] => shortest x n ks'
      end
  end.

(** The exponent part of the scientific form: [e+21], [e-7]. *)
Definition showExponent (e : Z) : string :=
  if (e <? 0)%Z then "e-" ++ digits (- e) else "e+" ++ digits e.

(** [Number::toString] for a positive finite number: plain digits up to
    21 places before the point and 6 zeros after it, the scientific form
    beyond. *)
Definition showPositive (x : Q) : string :=
  let (s, n) := shortest x (decimalExponent x)
                  (map Z.of_nat (seq 1 17)) in
  let k := Z.of_nat (length s) in
  if ((k <=? n) && (n <=? 21))%Z
  then s ++ zeros (Z.to_nat (n - k))
  else if ((0 <? n) && (n <=? 21))%Z
  then substring 0 (Z.to_nat n) s ++ "."
       ++ substring (Z.to_nat n) (Z.to_nat (k - n)) s
  else if ((-6 <? n) && (n <=? 0))%Z
  then "0." ++ zeros (Z.to_nat (- n)) ++ s
  else if (k =? 1)%Z
  then s ++ showExponent (n - 1)
  else substring 0 1 s ++ "." ++ substring 1 (Z.to_nat (k - 1)) s
       ++ showExponent (n - 1).

(** What a template literal or [String(x)] makes of a number. *)
Definition toString (x : Number) : string :=
  match x with
  | NaN => "NaN"
  | Infinity s => if s then "-Infinity" else "Infinity"
  | Finite q =>
      match Qcompare q 0 with
      | Eq => "0"
      | Gt => showPositive q
      | Lt => "-" ++ showPositive (- q)
      end
  end.

End NumberToString.

(** ** The range merger ([processDetections]) *)

Module RangeMerger.
Import Float64.

(** [interface DetectionRange { start; end; confidence }]
    ([end] is a keyword here, hence [end_]). *)
Record DetectionRange : Type := mkRange {
  start : Q;
  end_ : Q;
  confidence : Q
}.

(** [const TOLERANCE = 0.5] *)
Definition TOLERANCE : Q := 1 # 2.

(** The comparator handed to [sort]: [(a, b) => a - b].  [sort] looks at
    the sign of the result only, and the difference of two doubles rounds
    to a double of the same sign (a non-zero difference is never below
    the smallest subnormal), so the exact difference stands for it. *)
Definition compareFn (a b : Q) : Q := a - b.

(** [Array.prototype.sort] is stable and, with a consistent comparator,
    orders [a] after [b] exactly when [compareFn a b > 0].  A stable
    insertion sort is its functional reading: an element is put in front
    of the first element it does not compare greater than. *)
Fixpoint insert (x : Q) (l : list Q) : list Q :=
  match l with
  | [] => [x]
  | y :: l' => if Qgtb (compareFn x y) 0 then y :: insert x l' else x :: l
  end.

Fixpoint sort (l : list Q) : list Q :=
  match l with
  | [] => []
  | x :: l' => insert x (sort l')
  end.

(** The [for] loop of lines 32-42 with its three mutable variables:
    [start], [prev] and the array [ranges]; [rest] is
    [sorted[i..]].  The last line is the push that closes the final
    range. *)
Fixpoint scan (start prev : Q) (rest : list Q) (ranges : list DetectionRange)
  : list DetectionRange :=
  match rest with
  | [] => ranges ++ [mkRange start prev 1]
  | curr :: rest' =>
      if gtb (sub curr prev) TOLERANCE
      then scan curr curr rest' (ranges ++ [mkRange start prev 1])
      else scan start curr rest' ranges
  end.

(** Lines 22-45.  [s0] is [sorted[0]]; the copy of a non-empty array is
    not empty, so the inner empty case is never taken. *)
Definition processDetections (timestamps : list Q) : list DetectionRange :=
  match timestamps with
  | [] => []
  | _ :: _ =>
      match sort timestamps with
      | [] => []
      | s0 :: rest => scan s0 s0 rest []
      end
  end.

(** *** The same function over a store of arrays

    [processDetections] receives a reference to an array
    ([rawDetectionsRef.current] at its only call site), copies it with
    [[...timestamps]] and sorts the copy in place.  A store maps
    addresses to arrays; allocation appends. *)
Definition Store : Type := list (list Q).

Definition alloc (h : Store) (a : list Q) : Store * nat :=
  (h ++ [a], length h).

Fixpoint write (h : Store) (addr : nat) (a : list Q) : Store :=
  match h, addr with
  | [], _ => []
  | _ :: h', O => a :: h'
  | b :: h', S n => b :: write h' n a
  end.

(** [arr.sort(cmp)] sorts the array stored at [addr] in place. *)
Definition sortInPlace (h : Store) (addr : nat) : Store :=
  match nth_error h addr with
  | Some a => write h addr (sort a)
  | None => h
  end.

(** [None]: [timestamps] is not the address of an array. *)
Definition processDetectionsAt (h : Store) (timestamps : nat)
  : option (list DetectionRange * Store) :=
  match nth_error h timestamps with
  | None => None
  | Some ts =>
      if (length ts =? 0)%nat then Some ([], h)
      else
        let (h1, sorted) := alloc h ts in
        let h2 := sortInPlace h1 sorted in
        match nth_error h2 sorted with
        | Some (s0 :: rest) => Some (scan s0 s0 rest [], h2)
        | _ => Some ([], h2)
        end
  end.

(** *** Vocabulary of the properties *)

(** [t] lies within [[start, end]] of [r]. *)
Definition within (t : Q) (r : DetectionRange) : Prop :=
  start r <= t /\ t <= end_ r.

Definition withinb (t : Q) (r : DetectionRange) : bool :=
  Qle_bool (start r) t && Qle_bool t (end_ r).

(** The number of output ranges that contain [t]. *)
Definition holders (t : Q) (out : list DetectionRange) : nat :=
  length (filter (withinb t) out).

(** A range is well formed when it does not end before it starts; [r1]
    lies before [r2] when it ends strictly before [r2] starts, so the two
    share no point. *)
Definition wellFormed (r : DetectionRange) : Prop := start r <= end_ r.

Definition before (r1 r2 : DetectionRange) : Prop := end_ r1 < start r2.

(** Sorted ascending and pairwise non-overlapping: every range lies
    before every later one. *)
Definition sortedDisjoint (out : list DetectionRange) : Prop :=
  Forall wellFormed out /\ StronglySorted before out.

(** The shape the loop produces: well-formed ranges, each more than the
    tolerance away from the next by the loop's own test. *)
Inductive separated : list DetectionRange -> Prop :=
| sep_nil : separated []
| sep_one r : wellFormed r -> separated [r]
| sep_cons r1 r2 l :
    wellFormed r1 -> gt (sub (start r2) (end_ r1)) TOLERANCE ->
    separated (r2 :: l) -> separated (r1 :: r2 :: l).

(** The loop without its accumulator: the ranges still to be pushed. *)
Fixpoint groups (s p : Q) (rest : list Q) : list DetectionRange :=
  match rest with
  | [] => [mkRange s p 1]
  | c :: rest' =>
      if gtb (sub c p) TOLERANCE
      then mkRange s p 1 :: groups c c rest'
      else groups s c rest'
  end.

(** Width of a range, as the code would compute it: [end - start]. *)
Definition width (r : DetectionRange) : Number := sub (end_ r) (start r).

(** Start and end points of a list of ranges, in order. *)
Fixpoint endpoints (out : list DetectionRange) : list Q :=
  match out with
  | [] => []
  | r :: out' => start r :: end_ r :: endpoints out'
  end.

(** Equality of fractions as written, decided. *)
Definition Q_eq_dec (x y : Q) : {x = y} + {x <> y}.
Proof. decide equality; [apply Pos.eq_dec | apply Z.eq_dec]. Defined.

(** Number of distinct values in a list of numbers: fractions are reduced
    first, so that equal numbers count once. *)
Definition distinct (l : list Q) : nat :=
  length (nodup Q_eq_dec (map Qred l)).

(** Two ranges that hold the same numbers. *)
Definition sameRange (r r' : DetectionRange) : Prop :=
  start r == start r' /\ end_ r == end_ r' /\ confidence r == confidence r'.

End RangeMerger.

(** ** The detection orchestrator ([useVisionEngine])

    The hook is event driven: the caller starts a run, and from then on the
    browser invokes the callbacks the hook has installed (worker messages,
    image and video events, frame callbacks).  The embedding keeps the
    hook's state, its refs and the closures each run creates as explicit
    data, and gives one transition per callback. *)

Module VisionEngine.
Import Float64.
Import RangeMerger.

Inductive Status : Type :=
| idle | initializing | calibrating | processing | completed | error.

(** [interface VisionState] *)
Record VisionState : Type := mkVisionState {
  isProcessing : bool;
  progress : Number;
  status : Status;
  detections : list DetectionRange
}.

(** Messages a worker sends ([e.data.type], with the payload fields the
    handler reads); [UNKNOWN] stands for any other type. *)
Inductive WorkerMessage : Type :=
| READY
| CALIBRATION_COMPLETE
| CALIBRATION_FAILED
| FRAME_RESULT (detected : bool) (timestamp : Q)
| UNKNOWN.

(** Messages the hook posts to a worker. *)
Inductive Posted : Type :=
| INIT
| CALIBRATE
| PROCESS_FRAME (timestamp : Q).

(** What one call of [processVideo] creates: its [AbortController]
    ([aborted] is [signal.aborted]), its [Worker] ([terminated] once
    [terminate()] was called, [outbox] the messages posted to it while it
    lived), and the invocations of [startCalibration] that wait for the
    reference image. *)
Record Run : Type := mkRun {
  aborted : bool;
  terminated : bool;
  outbox : list Posted;
  pendingCalibrations : nat
}.

(** One invocation of [startVideoProcessing]: the run whose closure it
    is, where it waits, its local [frameCount], and whether its [loop] is
    registered with [requestVideoFrameCallback]. *)
Inductive Phase : Type :=
| AwaitLoadedData   (* line 187: waits for [onloadeddata] / [onerror] *)
| Playing           (* line 199: waits for [onended] / [onerror] *)
| Settled.          (* resumed, or rejected *)

Record Session : Type := mkSession {
  owner : nat;
  phase : Phase;
  frameCount : nat;
  callbackPending : bool
}.

(** The shared [<video>] element: its handler slots hold the [resolve] or
    [reject] of the session that assigned them last. *)
Inductive ErrorHandler : Type :=
| RejectLoad (session : nat)
| RejectLoop (session : nat).

Record Video : Type := mkVideo {
  onloadeddata : option nat;
  onerror : option ErrorHandler;
  onended : option nat;
  paused : bool
}.

Inductive ConsoleLine : Type :=
| LogCalibrationComplete
| WarnCalibrationFailed
| ErrorCalibration
| ErrorFrameLoop.

(** The hook instance.  [state] is the React state; the three [...Ref]
    fields are the [.current] of the refs ([rawDetectionsRef] holds the
    array itself: it is reassigned on start and otherwise only pushed to);
    runs and sessions are identified by their index.  [canvasContext]
    tells whether [canvas.getContext('2d')] yields a context.
    [progressReports] lists, oldest first, every value a [setState]
    assigned to [progress]; [unhandledRejections] counts promises rejected
    with no handler. *)
Record Engine : Type := mkEngine {
  state : VisionState;
  rawDetectionsRef : list Q;
  abortControllerRef : option nat;
  workerRef : option nat;
  runs : list Run;
  sessions : list Session;
  video : Video;
  canvasContext : bool;
  console : list ConsoleLine;
  progressReports : list Number;
  unhandledRejections : nat
}.

(** What the caller or the browser may do next:
    - [ProcessVideoCall]: the caller invokes [processVideo];
    - [Message r m]: the worker created by run [r] delivers [m] to its
      [onmessage];
    - [ImageSettled r loaded]: [onload] ([loaded]) or [onerror] of the
      reference image that a [startCalibration] of run [r] waits for;
    - [LoadedData], [VideoError], [Ended]: the video element fires
      [onloadeddata], [onerror], [onended];
    - [Frame k mediaTime duration extracted ended]: the [loop] of session
      [k] is called back with [metadata.mediaTime]; [duration] and [ended]
      are [video.duration] (any number: it is [NaN] without media and
      [Infinity] for a stream) and [video.ended] as read during the call,
      and [extracted] tells that drawing and reading the pixels did not
      throw;
    - [Unmount]: the cleanup of the mount effect runs. *)
Inductive Event : Type :=
| ProcessVideoCall
| Message (run : nat) (m : WorkerMessage)
| ImageSettled (run : nat) (loaded : bool)
| LoadedData
| VideoError
| Ended
| Frame (session : nat) (mediaTime : Q) (duration : Number)
    (extracted ended : bool)
| Unmount.

(** *** Field updates *)

Definition update {A : Type} (n : nat) (f : A -> A) (l : list A) : list A :=
  match nth_error l n with
  | Some x => firstn n l ++ f x :: skipn (S n) l
  | None => l
  end.

Definition withState (f : VisionState -> VisionState) (e : Engine) : Engine :=
  mkEngine (f (state e)) (rawDetectionsRef e) (abortControllerRef e)
    (workerRef e) (runs e) (sessions e) (video e) (canvasContext e)
    (console e) (progressReports e) (unhandledRejections e).

Definition withRaw (raw : list Q) (e : Engine) : Engine :=
  mkEngine (state e) raw (abortControllerRef e)
    (workerRef e) (runs e) (sessions e) (video e) (canvasContext e)
    (console e) (progressReports e) (unhandledRejections e).

Definition withAbortController (c : option nat) (e : Engine) : Engine :=
  mkEngine (state e) (rawDetectionsRef e) c
    (workerRef e) (runs e) (sessions e) (video e) (canvasContext e)
    (console e) (progressReports e) (unhandledRejections e).

Definition withWorker (w : option nat) (e : Engine) : Engine :=
  mkEngine (state e) (rawDetectionsRef e) (abortControllerRef e)
    w (runs e) (sessions e) (video e) (canvasContext e)
    (console e) (progressReports e) (unhandledRejections e).

Definition withRuns (f : list Run -> list Run) (e : Engine) : Engine :=
  mkEngine (state e) (rawDetectionsRef e) (abortControllerRef e)
    (workerRef e) (f (runs e)) (sessions e) (video e) (canvasContext e)
    (console e) (progressReports e) (unhandledRejections e).

Definition withSessions (f : list Session -> list Session) (e : Engine)
  : Engine :=
  mkEngine (state e) (rawDetectionsRef e) (abortControllerRef e)
    (workerRef e) (runs e) (f (sessions e)) (video e) (canvasContext e)
    (console e) (progressReports e) (unhandledRejections e).

Definition withVideo (f : Video -> Video) (e : Engine) : Engine :=
  mkEngine (state e) (rawDetectionsRef e) (abortControllerRef e)
    (workerRef e) (runs e) (sessions e) (f (video e)) (canvasContext e)
    (console e) (progressReports e) (unhandledRejections e).

Definition log (line : ConsoleLine) (e : Engine) : Engine :=
  mkEngine (state e) (rawDetectionsRef e) (abortControllerRef e)
    (workerRef e) (runs e) (sessions e) (video e) (canvasContext e)
    (console e ++ [line]) (progressReports e) (unhandledRejections e).

Definition report (p : Number) (e : Engine) : Engine :=
  mkEngine (state e) (rawDetectionsRef e) (abortControllerRef e)
    (workerRef e) (runs e) (sessions e) (video e) (canvasContext e)
    (console e) (progressReports e ++ [p]) (unhandledRejections e).

Definition unhandledRejection (e : Engine) : Engine :=
  mkEngine (state e) (rawDetectionsRef e) (abortControllerRef e)
    (workerRef e) (runs e) (sessions e) (video e) (canvasContext e)
    (console e) (progressReports e) (S (unhandledRejections e)).

Definition setStatus (s : Status) (v : VisionState) : VisionState :=
  mkVisionState (isProcessing v) (progress v) s (detections v).

Definition setProgress (p : Number) (v : VisionState) : VisionState :=
  mkVisionState (isProcessing v) p (status v) (detections v).

Definition setPhase (p : Phase) (s : Session) : Session :=
  mkSession (owner s) p (frameCount s) (callbackPending s).

Definition setPending (b : bool) (s : Session) : Session :=
  mkSession (owner s) (phase s) (frameCount s) b.

(** *** Browser objects *)

(** [signal.aborted] of a run. *)
Definition signalAborted (r : nat) (e : Engine) : bool :=
  match nth_error (runs e) r with
  | Some x => aborted x
  | None => true
  end.

(** A worker delivers messages to its [onmessage] only until it is
    terminated: [terminate()] discards what is still queued. *)
Definition workerAlive (r : nat) (e : Engine) : bool :=
  match nth_error (runs e) r with
  | Some x => negb (terminated x)
  | None => false
  end.

(** [controller.abort()] *)
Definition abort (r : nat) (e : Engine) : Engine :=
  withRuns (update r (fun x =>
    mkRun true (terminated x) (outbox x) (pendingCalibrations x))) e.

(** [worker.terminate()] *)
Definition terminate (r : nat) (e : Engine) : Engine :=
  withRuns (update r (fun x =>
    mkRun (aborted x) true (outbox x) (pendingCalibrations x))) e.

(** [worker.postMessage(m)]; a terminated worker receives nothing. *)
Definition postMessage (r : nat) (m : Posted) (e : Engine) : Engine :=
  withRuns (update r (fun x =>
    if terminated x then x
    else mkRun (aborted x) false (outbox x ++ [m]) (pendingCalibrations x))) e.

(** [Math.min(100, Math.round((mediaTime / video.duration) * 100))] *)
Definition progressOf (mediaTime : Q) (duration : Number) : Number :=
  Math.min 100 (Math.round (mul (div mediaTime duration) 100)).

(** *** The hook's functions *)

(** Lines 91-143. *)
Definition processVideo (e : Engine) : Engine :=
  let e := report 0 (withState (fun _ => mkVisionState true 0 initializing []) e) in
  let e := withRaw [] e in
  let e := match abortControllerRef e with
           | Some c => abort c e
           | None => e
           end in
  let r := length (runs e) in
  let e := withAbortController (Some r)
             (withRuns (fun l => l ++ [mkRun false false [] 0]) e) in
  let e := match workerRef e with
           | Some w => terminate w e
           | None => e
           end in
  let e := withWorker (Some r) e in
  postMessage r INIT e.

(** Lines 145-157, up to the [await]. *)
Definition startCalibration (r : nat) (e : Engine) : Engine :=
  if signalAborted r e then e
  else
    withRuns (update r (fun x =>
      mkRun (aborted x) (terminated x) (outbox x) (S (pendingCalibrations x))))
      (withState (setStatus calibrating) e).

(** Lines 159-174: the rest of [startCalibration], resumed when the image
    has loaded or failed to. *)
Definition resumeCalibration (r : nat) (loaded : bool) (e : Engine) : Engine :=
  match nth_error (runs e) r with
  | Some x =>
      match pendingCalibrations x with
      | O => e
      | S n =>
          let e := withRuns (update r (fun x =>
                     mkRun (aborted x) (terminated x) (outbox x) n)) e in
          if loaded && canvasContext e
          then postMessage r CALIBRATE e
          else withState (setStatus error) (log ErrorCalibration e)
      end
  | None => e
  end.

(** Lines 177-190, up to the first [await]. *)
Definition startVideoProcessing (r : nat) (e : Engine) : Engine :=
  if signalAborted r e then e
  else
    let e := withState (setStatus processing) e in
    if negb (canvasContext e) then e
    else
      let k := length (sessions e) in
      let e := withSessions (fun l => l ++ [mkSession r AwaitLoadedData 0 false]) e in
      (* [video.src = videoUrl] starts a load, which pauses the element *)
      withVideo (fun v => mkVideo (Some k) (Some (RejectLoad k)) (onended v) true) e.

(** Lines 246-259: what follows the processing loop. *)
Definition finish (r : nat) (e : Engine) : Engine :=
  if signalAborted r e then e
  else
    let ranges := processDetections (rawDetectionsRef e) in
    let e := report 100
               (withState (fun _ => mkVisionState false 100 completed ranges) e) in
    withWorker None (terminate r e).

(** Lines 205-240: the frame callback of session [k]. *)
Definition loop (k : nat) (mediaTime : Q) (duration : Number)
  (extracted ended : bool) (e : Engine) : Engine :=
  match nth_error (sessions e) k with
  | Some s =>
      if negb (callbackPending s) then e
      else
        let e := withSessions (update k (setPending false)) e in
        if signalAborted (owner s) e
        then withVideo (fun v =>
               mkVideo (onloadeddata v) (onerror v) (onended v) true) e
        else if negb extracted
        then log ErrorFrameLoop e
        else
          let e := postMessage (owner s) (PROCESS_FRAME mediaTime) e in
          let n := S (frameCount s) in
          let e := withSessions (update k (fun s =>
                     mkSession (owner s) (phase s) n (callbackPending s))) e in
          let e := if (n mod 30 =? 0)%nat
                   then let p := progressOf mediaTime duration in
                        report p (withState (setProgress p) e)
                   else e in
          if negb (paused (video e)) && negb ended
          then withSessions (update k (setPending true)) e
          else e
  | None => e
  end.

(** Lines 118-140: [worker.onmessage]. *)
Definition onmessage (r : nat) (m : WorkerMessage) (e : Engine) : Engine :=
  match m with
  | READY => startCalibration r e
  | CALIBRATION_COMPLETE => startVideoProcessing r (log LogCalibrationComplete e)
  | CALIBRATION_FAILED => startVideoProcessing r (log WarnCalibrationFailed e)
  | FRAME_RESULT detected timestamp =>
      if detected then withRaw (rawDetectionsRef e ++ [timestamp]) e else e
  | UNKNOWN => e
  end.

(** Lines 192-243: [startVideoProcessing] resumed by [onloadeddata]. *)
Definition loadeddata (e : Engine) : Engine :=
  match onloadeddata (video e) with
  | Some k =>
      match nth_error (sessions e) k with
      | Some s =>
          match phase s with
          | AwaitLoadedData =>
              let e := withSessions (update k (fun s =>
                         mkSession (owner s) Playing 0 true)) e in
              withVideo (fun v =>
                mkVideo (onloadeddata v) (Some (RejectLoop k)) (Some k) false) e
          | _ => e
          end
      | None => e
      end
  | None => e
  end.

(** [video.onerror]: rejects the promise the session waits on; nothing
    catches the rejection of [startVideoProcessing]. *)
Definition videoError (e : Engine) : Engine :=
  match onerror (video e) with
  | Some (RejectLoad k) =>
      match nth_error (sessions e) k with
      | Some s =>
          match phase s with
          | AwaitLoadedData =>
              unhandledRejection (withSessions (update k (setPhase Settled)) e)
          | _ => e
          end
      | None => e
      end
  | Some (RejectLoop k) =>
      match nth_error (sessions e) k with
      | Some s =>
          match phase s with
          | Playing =>
              unhandledRejection (withSessions (update k (setPhase Settled)) e)
          | _ => e
          end
      | None => e
      end
  | None => e
  end.

(** [video.onended]: resolves the loop's promise. *)
Definition videoEnded (e : Engine) : Engine :=
  match onended (video e) with
  | Some k =>
      match nth_error (sessions e) k with
      | Some s =>
          match phase s with
          | Playing =>
              finish (owner s) (withSessions (update k (setPhase Settled)) e)
          | _ => e
          end
      | None => e
      end
  | None => e
  end.

(** Lines 74-86: the cleanup of the mount effect. *)
Definition unmount (e : Engine) : Engine :=
  let e := withVideo (fun v =>
             mkVideo (onloadeddata v) (onerror v) (onended v) true) e in
  let e := match workerRef e with
           | Some w => terminate w e
           | None => e
           end in
  match abortControllerRef e with
  | Some c => abort c e
  | None => e
  end.

(** *** Transitions *)

Definition step (e : Engine) (ev : Event) : Engine :=
  match ev with
  | ProcessVideoCall => processVideo e
  | Message r m => if workerAlive r e then onmessage r m e else e
  | ImageSettled r loaded => resumeCalibration r loaded e
  | LoadedData => loadeddata e
  | VideoError => videoError e
  | Ended => videoEnded e
  | Frame k mediaTime duration extracted ended =>
      loop k mediaTime duration extracted ended e
  | Unmount => unmount e
  end.

Definition run (e : Engine) (trace : list Event) : Engine :=
  fold_left step trace e.

(** The hook as mounted (lines 48-62), on a browser whose canvas gives a
    2d context or not. *)
Definition mounted (ctx : bool) : Engine :=
  mkEngine (mkVisionState false 0 idle []) [] None None [] []
    (mkVideo None None None true) ctx [] [] 0.

(** *** Vocabulary of the properties *)

Definition isStart (ev : Event) : bool :=
  match ev with ProcessVideoCall => true | _ => false end.

(** The timestamps of the positive [FRAME_RESULT]s that the worker of run
    [r] sends in a trace. *)
Fixpoint frameResults (r : nat) (trace : list Event) : list Q :=
  match trace with
  | [] => []
  | Message r' (FRAME_RESULT true t) :: trace' =>
      if (r' =? r)%nat then t :: frameResults r trace'
      else frameResults r trace'
  | _ :: trace' => frameResults r trace'
  end.

(** The two flags of a run that decide what its closures may still do. *)
Definition flags (x : Run) : bool * bool := (aborted x, terminated x).

(** [e'] differs from [e] in nothing that controls runs: same flags, same
    worker and controller refs. *)
Definition sameControl (e e' : Engine) : Prop :=
  map flags (runs e') = map flags (runs e)
  /\ workerRef e' = workerRef e
  /\ abortControllerRef e' = abortControllerRef e.

(** The run started last. *)
Definition latest (e : Engine) : option nat :=
  match length (runs e) with
  | O => None
  | S n => Some n
  end.

(** How controllers and workers relate in every state the hook reaches:
    the current controller is the latest run's; a live worker belongs to a
    run that is not aborted; every run but the latest is aborted; and the
    worker ref, when set, is the latest run's worker, while no worker
    lives when it is unset. *)
Definition consistent (e : Engine) : Prop :=
  abortControllerRef e = latest e
  /\ (forall r, workerAlive r e = true -> signalAborted r e = false)
  /\ (forall r, (S r < length (runs e))%nat -> signalAborted r e = true)
  /\ (workerRef e = None -> forall r, workerAlive r e = false)
  /\ (forall w, workerRef e = Some w -> Some w = latest e).

(** A trace without an image event, and one in which no frame callback
    follows the end of playback. *)
Definition isImageSettled (ev : Event) : bool :=
  match ev with ImageSettled _ _ => true | _ => false end.



(** The ratios [mediaTime / video.duration] that the frame callbacks of a
    trace compute, in order. *)
Fixpoint frameRatios (trace : list Event) : list Number :=
  match trace with
  | [] => []
  | Frame _ mediaTime duration _ _ :: trace' =>
      div mediaTime duration :: frameRatios trace'
  | _ :: trace' => frameRatios trace'
  end.

(** What holds of the run [r] started last, [t2] being the events since
    its start: the buffer is what the worker of [r] reported over a prefix
    of [t2] (all of [t2] while that worker lives), and the ranges are empty
    or the merge of such a buffer. *)
Definition ownResults (r : nat) (t2 : list Event) (e : Engine) : Prop :=
  consistent e
  /\ length (runs e) = S r
  /\ (exists p q, t2 = p ++ q
                  /\ rawDetectionsRef e = frameResults r p
                  /\ (workerAlive r e = true -> q = []))
  /\ (detections (state e) = []
      \/ exists p q, t2 = p ++ q
                     /\ detections (state e)
                        = processDetections (frameResults r p)).

(** [Math.min(100, Math.round(ratio * 100))] *)
Definition progressAt (ratio : Number) : Number :=
  Math.min 100 (Math.round (mul ratio 100)).

(** *** Scenarios *)

(** A first run up to the point where its worker holds the reference
    image, then up to playback, then with one frame analysed. *)
Definition calibrating0 : list Event :=
  [ProcessVideoCall; Message 0 READY; ImageSettled 0 true].

Definition playing0 : list Event :=
  calibrating0 ++ [Message 0 CALIBRATION_COMPLETE; LoadedData].

Definition detecting0 : list Event :=
  playing0 ++ [Frame 0 1 10 true false; Message 0 (FRAME_RESULT true 1)].

(** What may follow a second call made at that point: the browser still
    tries to deliver a result of worker 0, calls the old frame callback
    and fires the old [onended]; then run 1 proceeds to its end. *)
Definition supersededThenRun1 : list Event :=
  [Message 0 (FRAME_RESULT true 2); Frame 0 2 10 true false; Ended;
   Message 1 READY; ImageSettled 1 true; Message 1 CALIBRATION_COMPLETE;
   LoadedData; Frame 1 7 10 true false; Message 1 (FRAME_RESULT true 7);
   Ended].

(** What may follow a failed calibration. *)
Definition playsThenBreaks : list Event :=
  [LoadedData; Frame 0 1 10 true false; Message 0 (FRAME_RESULT true 1);
   VideoError].

(** Sixty frames, a thirtieth of a second apart, of a video that lasts
    1000 s. *)
Definition sixtyFrames : list Event :=
  map (fun i => Frame 0 (double (inject_Z (Z.of_nat i) / 30)) 1000 true false)
      (seq 1 60).


(** A whole run over those frames, after the call that starts it. *)
Definition slowRun : list Event :=
  [Message 0 READY; ImageSettled 0 true; Message 0 CALIBRATION_COMPLETE;
   LoadedData] ++ sixtyFrames ++ [Ended].

(** A status that shows work in progress. *)
Definition working (s : Status) : bool :=
  match s with
  | initializing | calibrating | processing => true
  | _ => false
  end.

(** How the React state relates to the workers in every state the hook
    reaches: while a worker lives the hook is busy, has no ranges yet and
    is neither idle nor completed; a working status comes with the busy
    flag; and [completed] comes with the flag cleared, no worker left and
    the ranges merged from the buffer. *)
Definition coherent (e : Engine) : Prop :=
  (forall r, workerAlive r e = true ->
             isProcessing (state e) = true
             /\ detections (state e) = []
             /\ status (state e) <> completed
             /\ status (state e) <> idle)
  /\ (working (status (state e)) = true -> isProcessing (state e) = true)
  /\ (status (state e) = completed ->
      isProcessing (state e) = false
      /\ workerRef e = None
      /\ (forall r, workerAlive r e = false)
      /\ detections (state e) = processDetections (rawDetectionsRef e)).

(** The media times of the frames posted to a worker, and of the frame
    callbacks of a trace, in order. *)
Fixpoint framesOf (box : list Posted) : list Q :=
  match box with
  | [] => []
  | PROCESS_FRAME t :: box' => t :: framesOf box'
  | _ :: box' => framesOf box'
  end.

Fixpoint frameTimes (trace : list Event) : list Q :=
  match trace with
  | [] => []
  | Frame _ mediaTime _ _ _ :: trace' => mediaTime :: frameTimes trace'
  | _ :: trace' => frameTimes trace'
  end.

(** The durations read by the frame callbacks of a trace, in order. *)
Fixpoint frameDurations (trace : list Event) : list Number :=
  match trace with
  | [] => []
  | Frame _ _ duration _ _ :: trace' => duration :: frameDurations trace'
  | _ :: trace' => frameDurations trace'
  end.

(** [l] is [l'] with some elements left out. *)
Inductive subsequence {A : Type} : list A -> list A -> Prop :=
| sub_nil : subsequence [] []
| sub_skip x l l' : subsequence l l' -> subsequence l (x :: l')
| sub_take x l l' : subsequence l l' -> subsequence (x :: l) (x :: l').

(** What a worker may be sent after [INIT]. *)
Definition afterInit (m : Posted) : bool :=
  match m with
  | INIT => false
  | _ => true
  end.

(** A run that plays to its end with two detections. *)
Definition completes0 : list Event :=
  detecting0 ++ [Frame 0 (double (12 # 10)) 10 true false;
                 Message 0 (FRAME_RESULT true (double (12 # 10))); Ended].

(** The outbox of run [r], if there is such a run. *)
Definition boxAt (r : nat) (e : Engine) : option (list Posted) :=
  option_map outbox (nth_error (runs e) r).

(** Nothing is left running: every run is aborted and no worker lives. *)
Definition halted (e : Engine) : Prop :=
  forall r, signalAborted r e = true /\ workerAlive r e = false.

(** What the browser may still deliver after a teardown during
    playback. *)
Definition lateEvents : list Event :=
  [Message 0 (FRAME_RESULT true 2); Frame 0 2 10 true false; Ended;
   LoadedData; VideoError; Message 0 CALIBRATION_COMPLETE].

End VisionEngine.

(** ** The rendering hook ([useVideoProcessor])

    [processVideo] is an [async] function with a [try] / [catch] /
    [finally]; it runs against the engine's in-memory file system.  The
    engine (the [FFmpeg] class), [fetchFile] and [buildEditCommand] are
    not part of the hook: what each of them does in one call is given by
    an [Oracle]. *)

Module VideoProcessor.
Import Float64.
Import NumberToString.
Import String.
Local Open Scope string_scope.

(** [interface VideoProcessorState] *)
Record VideoProcessorState : Type := mkState {
  isReady : bool;
  isProcessing : bool;
  progress : Number;
  status : string;
  error : option string
}.

(** The hook's state and the files the engine holds. *)
Record World : Type := mkWorld {
  hook : VideoProcessorState;
  files : list string
}.

(** How the collaborators behave during one call. *)
Record Oracle : Type := mkOracle {
  fetchFileOk : bool;          (* [fetchFile(file)] resolves *)
  writeFileOk : bool;          (* [ffmpeg.writeFile] resolves *)
  buildEditCommandOk : bool;   (* [buildEditCommand] returns *)
  execProgress : list Number;  (* the ['progress'] events fired during [exec] *)
  execResult : option Z;       (* exit code of [ffmpeg.exec]; [None]: it rejects *)
  execWritesOutput : bool;     (* [exec] leaves an output file *)
  objectURL : string           (* what [URL.createObjectURL] returns *)
}.

(** Computations that change the world and return or throw. *)
Inductive Completion (A : Type) : Type :=
| Return (a : A)
| Throw.
Arguments Return {A} a.
Arguments Throw {A}.

Definition Async (A : Type) : Type := World -> Completion A * World.

Definition ret {A : Type} (a : A) : Async A := fun w => (Return a, w).

Definition throw {A : Type} : Async A := fun w => (Throw, w).

Definition bind {A B : Type} (m : Async A) (k : A -> Async B) : Async B :=
  fun w =>
    match m w with
    | (Return a, w') => k a w'
    | (Throw, w') => (Throw, w')
    end.

Notation "x <- m ;; k" := (bind m (fun x => k))
  (at level 61, m at next level, right associativity).
Notation "m ;; k" := (bind m (fun _ => k))
  (at level 61, right associativity).

(** [try { body } catch { handler }] *)
Definition tryCatch {A : Type} (body handler : Async A) : Async A :=
  fun w =>
    match body w with
    | (Return a, w') => (Return a, w')
    | (Throw, w') => handler w'
    end.

(** [try { ... } finally { fin }]: [fin] runs on both exits and the
    completion of the body stands unless [fin] itself throws. *)
Definition tryFinally {A : Type} (body : Async A) (fin : Async unit) : Async A :=
  fun w =>
    match body w with
    | (c, w') =>
        match fin w' with
        | (Return _, w'') => (c, w'')
        | (Throw, w'') => (Throw, w'')
        end
    end.

(** [setState(prev => f prev)] *)
Definition setState (f : VideoProcessorState -> VideoProcessorState)
  : Async unit :=
  fun w => (Return tt, mkWorld (f (hook w)) (files w)).

Definition getState : Async VideoProcessorState :=
  fun w => (Return (hook w), w).

Definition guard (ok : bool) : Async unit := if ok then ret tt else throw.

(** *** The engine's file system *)

Definition hasFile (name : string) (fs : list string) : bool :=
  if in_dec string_dec name fs then true else false.

(** [ffmpeg.writeFile(name, data)] *)
Definition writeFile (o : Oracle) (name : string) : Async unit :=
  fun w =>
    if fetchFileOk o && writeFileOk o
    then (Return tt,
          mkWorld (hook w)
            (if hasFile name (files w) then files w else name :: files w))
    else (Throw, w).

(** [ffmpeg.readFile(name)]: throws when there is no such file. *)
Definition readFile (name : string) : Async unit :=
  fun w => if hasFile name (files w) then (Return tt, w) else (Throw, w).

(** [ffmpeg.deleteFile(name)]: throws when there is no such file. *)
Definition deleteFile (name : string) : Async unit :=
  fun w =>
    if hasFile name (files w)
    then (Return tt, mkWorld (hook w) (remove string_dec name (files w)))
    else (Throw, w).

(** [Math.round(progress * 100)] *)
Definition percent (p : Number) : Number := Math.round (mul p 100).

(** The ['progress'] listener of lines 31-37. *)
Definition onProgress (p : Number) : Async unit :=
  setState (fun s =>
    mkState (isReady s) (isProcessing s) (percent p)
      ("Rendering... " ++ toString (percent p) ++ "%") (error s)).

Fixpoint fireProgress (ps : list Number) : Async unit :=
  match ps with
  | [] => ret tt
  | p :: ps' => onProgress p ;; fireProgress ps'
  end.

(** [ffmpeg.exec(args)] with the result file named [outputName]. *)
Definition exec (o : Oracle) (outputName : string) : Async Z :=
  fireProgress (execProgress o) ;;
  (fun w =>
     let w' := mkWorld (hook w)
                 (if execWritesOutput o && negb (hasFile outputName (files w))
                  then outputName :: files w else files w) in
     match execResult o with
     | Some code => (Return code, w')
     | None => (Throw, w')
     end).

(** *** [processVideo] (lines 73-124)

    [ffmpeg] tells whether [ffmpegRef.current] is set; the result is the
    object URL, or [None] for [null]. *)
Definition inputName : string := "input.mp4".
Definition outputName : string := "output.mp4".

(** The [try] block, lines 92-102. *)
Definition tryBlock (o : Oracle) : Async (option string) :=
  writeFile o inputName ;;
  guard (buildEditCommandOk o) ;;
  setState (fun prev =>
    mkState (isReady prev) (isProcessing prev) (progress prev)
      "Processing video..." (error prev)) ;;
  result <- exec o outputName ;;
  guard (result =? 0)%Z ;;
  setState (fun prev =>
    mkState (isReady prev) (isProcessing prev) (progress prev)
      "Finalizing..." (error prev)) ;;
  readFile outputName ;;
  ret (Some (objectURL o)).

(** The [catch] block, lines 105-111. *)
Definition catchBlock : Async (option string) :=
  setState (fun prev =>
    mkState (isReady prev) (isProcessing prev) (progress prev)
      "Error" (Some "Video processing failed.")) ;;
  ret None.

(** The [finally] block, lines 113-122. *)
Definition finallyBlock : Async unit :=
  tryCatch (deleteFile inputName ;; deleteFile outputName) (ret tt) ;;
  setState (fun prev =>
    mkState (isReady prev) false 100 "Completed" (error prev)).

Definition processVideo (ffmpeg : bool) (o : Oracle) : Async (option string) :=
  state <- getState ;;
  if negb ffmpeg || negb (isReady state)
  then
    setState (fun prev =>
      mkState (isReady prev) (isProcessing prev) (progress prev) (status prev)
        (Some "Engine not ready")) ;;
    ret None
  else
    setState (fun prev =>
      mkState (isReady prev) true 0 "Writing file to memory..." None) ;;
    tryFinally (tryCatch (tryBlock o) catchBlock) finallyBlock.

(** The hook before the engine has loaded (lines 15-21), and once it has
    (lines 52-56). *)
Definition loading : World :=
  mkWorld (mkState false false 0 "Loading engine..." None) [].

Definition engineReady : World :=
  mkWorld (mkState true false 0 "Engine Ready" None) [].

(** *** The mount effect (lines 25-71)

    [ffmpegRef] tells whether [ffmpegRef.current] holds an engine
    instance. *)
Record Hook : Type := mkHook {
  world : World;
  ffmpegRef : bool
}.

(** How loading the engine goes: whether the two [toBlobURL] calls and
    [ffmpeg.load] resolve, and [err.message] of what is thrown
    otherwise ([None]: undefined). *)
Record LoadOracle : Type := mkLoadOracle {
  toBlobURLOk : bool;
  ffmpegLoadOk : bool;
  errMessage : option string
}.

(** [m || d] on a string that may be undefined: the empty string is falsy
    too. *)
Definition orElse (m : option string) (d : string) : string :=
  match m with
  | Some EmptyString => d
  | Some s => s
  | None => d
  end.

(** [load], lines 26-66: the instance is stored in the ref before it is
    loaded. *)
Definition load (lo : LoadOracle) (h : Hook) : Hook :=
  let s := hook (world h) in
  if toBlobURLOk lo && ffmpegLoadOk lo
  then mkHook
         (mkWorld (mkState true (isProcessing s) (progress s) "Engine Ready"
                     (error s))
                  (files (world h)))
         true
  else mkHook
         (mkWorld (mkState false (isProcessing s) (progress s)
                     "Failed to load engine"
                     (Some ("Engine Error: "
                            ++ orElse (errMessage lo) "Check console details")))
                  (files (world h)))
         true.

(** Lines 68-70: [if (!ffmpegRef.current) load()]. *)
Definition mountEffect (lo : LoadOracle) (h : Hook) : Hook :=
  if ffmpegRef h then h else load lo h.

(** The hook as first rendered. *)
Definition firstRender : Hook := mkHook loading false.

(** One call of the [processVideo] the hook returns, and a series of
    calls, each awaited before the next. *)
Definition render (o : Oracle) (h : Hook)
  : Completion (option string) * Hook :=
  let (c, w) := processVideo (ffmpegRef h) o (world h) in
  (c, mkHook w (ffmpegRef h)).

Fixpoint renderAll (os : list Oracle) (h : Hook)
  : list (Completion (option string)) * Hook :=
  match os with
  | [] => ([], h)
  | o :: os' =>
      let (c, h1) := render o h in
      let (cs, h2) := renderAll os' h1 in
      (c :: cs, h2)
  end.

(** Every step of the [try] block goes through: the file is fetched and
    written, the command is built, [exec] exits with 0 and leaves an
    output file. *)
Definition succeeds (o : Oracle) : bool :=
  fetchFileOk o && writeFileOk o && buildEditCommandOk o
  && match execResult o with
     | Some code => (code =? 0)%Z
     | None => false
     end
  && execWritesOutput o.

End VideoProcessor.

Lemma Qgtb_true (x y : Q) : Qgtb x y = true <-> y < x.
Proof.
  unfold Qgtb. rewrite negb_true_iff. split.
  - intros H. apply Qnot_le_lt. intros Hle.
    apply Qle_bool_iff in Hle. congruence.
  - intros H. destruct (Qle_bool x y) eqn:E; [|reflexivity].
    apply Qle_bool_iff in E. lra.
Qed.

Lemma Qgtb_false (x y : Q) : Qgtb x y = false <-> x <= y.
Proof.
  unfold Qgtb. rewrite negb_false_iff. apply Qle_bool_iff.
Qed.

(** * Properties of the numbers *)

Module Float64Facts.
Import Float64.

Lemma pow2_pos k : 0 < pow2 k.
Proof. apply Qpower_0_lt. reflexivity. Qed.

Lemma pow2_add a b : pow2 (a + b) == pow2 a * pow2 b.
Proof. apply Qpower_plus. discriminate. Qed.

Lemma pow2_le a b : (a <= b)%Z -> pow2 a <= pow2 b.
Proof. intros. apply Qpower_le_compat_l; [assumption|]. discriminate. Qed.

Lemma pow2_lt a b : (a < b)%Z -> pow2 a < pow2 b.
Proof. intros. apply Qpower_lt_compat_l; [assumption|]. reflexivity. Qed.

Lemma pow2_Z n : (0 <= n)%Z -> pow2 n == inject_Z (2 ^ n).
Proof. intros. unfold pow2. symmetry. apply (Zpower_Qpower 2 n). assumption. Qed.

Lemma pow2_succ a : pow2 (a + 1) == 2 * pow2 a.
Proof. rewrite pow2_add. change (pow2 1) with 2. ring. Qed.

Lemma pow2_pred a : pow2 (a - 1) == pow2 a / 2.
Proof.
  assert (H := pow2_succ (a - 1)). replace (a - 1 + 1)%Z with a in H by lia.
  rewrite H. field.
Qed.

(** [ilog2 x] is the exponent of the binade of [x]. *)
Lemma ilog2_spec x : 0 < x -> pow2 (ilog2 x) <= x < pow2 (ilog2 x + 1).
Proof.
  intros Hx. destruct x as [n d]. 
  assert (Hn : (0 < n)%Z).
  { unfold Qlt in Hx. simpl in Hx. lia. }
  unfold ilog2. cbn [Qnum Qden].
  destruct (Z.log2_spec n Hn) as [Ha1 Ha2].
  destruct (Z.log2_spec (Zpos d) eq_refl) as [Hb1 Hb2].
  set (a := Z.log2 n) in *. set (b := Z.log2 (Zpos d)) in *.
  assert (Ha0 : (0 <= a)%Z) by apply Z.log2_nonneg.
  assert (Hb0 : (0 <= b)%Z) by apply Z.log2_nonneg.
  assert (Ex : n # d == inject_Z n / inject_Z (Zpos d)) by apply Qmake_Qdiv.
  assert (HD : 0 < inject_Z (Zpos d)) by reflexivity.
  assert (Elo : pow2 (a - b - 1) * inject_Z (Zpos d) < inject_Z n).
  { replace (a - b - 1)%Z with (a + - (b + 1))%Z by lia.
    rewrite pow2_add. unfold pow2 at 2. rewrite Qpower_opp.
    fold (pow2 (b + 1)). rewrite (pow2_Z a), (pow2_Z (b + 1)) by lia.
    assert (H1 : inject_Z (Zpos d) < inject_Z (2 ^ (b + 1))).
    { rewrite <- Zlt_Qlt. replace (b + 1)%Z with (Z.succ b) by lia. exact Hb2. }
    assert (H2 : inject_Z (2 ^ a) <= inject_Z n) by (rewrite <- Zle_Qle; exact Ha1).
    assert (H3 : 0 < inject_Z (2 ^ (b + 1))) by lra.
    assert (H4 : 0 < inject_Z (2 ^ a)).
    { rewrite <- (pow2_Z a) by lia. apply pow2_pos. }
    apply Qlt_le_trans with (inject_Z (2 ^ a)); [|exact H2].
    assert (H5 : inject_Z (Z.pos d) / inject_Z (2 ^ (b + 1)) < 1).
    { apply Qlt_shift_div_r; lra. }
    setoid_replace (inject_Z (2 ^ a) * / inject_Z (2 ^ (b + 1)) * inject_Z (Z.pos d))
      with (inject_Z (2 ^ a) * (inject_Z (Z.pos d) / inject_Z (2 ^ (b + 1))))
      by (unfold Qdiv; ring).
    rewrite <- (Qmult_1_r (inject_Z (2 ^ a))) at 2.
    apply Qmult_lt_l; assumption. }
  assert (Ehi : inject_Z n < pow2 (a - b + 1) * inject_Z (Zpos d)).
  { replace (a - b + 1)%Z with ((a + 1) + - b)%Z by lia.
    rewrite pow2_add. unfold pow2 at 2. rewrite Qpower_opp.
    fold (pow2 b). rewrite (pow2_Z (a + 1)), (pow2_Z b) by lia.
    assert (H1 : inject_Z (2 ^ b) <= inject_Z (Zpos d)) by (rewrite <- Zle_Qle; exact Hb1).
    assert (H2 : inject_Z n < inject_Z (2 ^ (a + 1))).
    { rewrite <- Zlt_Qlt. replace (a + 1)%Z with (Z.succ a) by lia. exact Ha2. }
    assert (H3 : 0 < inject_Z (2 ^ b)).
    { rewrite <- (pow2_Z b) by lia. apply pow2_pos. }
    apply Qlt_le_trans with (inject_Z (2 ^ (a + 1))); [exact H2|].
    assert (H5 : 1 <= inject_Z (Z.pos d) / inject_Z (2 ^ b)).
    { apply Qle_shift_div_l; lra. }
    setoid_replace (inject_Z (2 ^ (a + 1)) * / inject_Z (2 ^ b) * inject_Z (Z.pos d))
      with (inject_Z (2 ^ (a + 1)) * (inject_Z (Z.pos d) / inject_Z (2 ^ b)))
      by (unfold Qdiv; ring).
    rewrite <- (Qmult_1_r (inject_Z (2 ^ (a + 1)))) at 1.
    apply Qmult_le_l; [|assumption].
    rewrite <- (pow2_Z (a + 1)) by lia. apply pow2_pos. }
  assert (Xlo : pow2 (a - b - 1) < n # d).
  { rewrite Ex. apply Qlt_shift_div_l; assumption. }
  assert (Xhi : n # d < pow2 (a - b + 1)).
  { rewrite Ex. apply Qlt_shift_div_r; assumption. }
  destruct (Qle_bool (pow2 (a - b)) (n # d)) eqn:E.
  - apply Qle_bool_iff in E. split; assumption.
  - assert (n # d < pow2 (a - b)).
    { apply Qnot_le_lt. intros H. apply Qle_bool_iff in H. congruence. }
    replace (a - b - 1 + 1)%Z with (a - b)%Z by lia.
    split; [apply Qlt_le_weak|]; assumption.
Qed.

Lemma ilog2_unique x k : pow2 k <= x < pow2 (k + 1) -> ilog2 x = k.
Proof.
  intros [H1 H2]. assert (Hx : 0 < x) by (pose proof (pow2_pos k); lra).
  destruct (ilog2_spec x Hx) as [H3 H4].
  destruct (Z.lt_trichotomy (ilog2 x) k) as [L|[E|G]]; [|exact E|].
  - exfalso. assert (pow2 (ilog2 x + 1) <= pow2 k) by (apply pow2_le; lia). lra.
  - exfalso. assert (pow2 (k + 1) <= pow2 (ilog2 x)) by (apply pow2_le; lia). lra.
Qed.

Lemma ilog2_le x y : 0 < x -> x <= y -> (ilog2 x <= ilog2 y)%Z.
Proof.
  intros Hx Hxy. assert (Hy : 0 < y) by lra.
  destruct (ilog2_spec x Hx) as [H1 H2], (ilog2_spec y Hy) as [H3 H4].
  destruct (Z.le_gt_cases (ilog2 x) (ilog2 y)) as [L|G]; [exact L|].
  exfalso. assert (pow2 (ilog2 y + 1) <= pow2 (ilog2 x)) by (apply pow2_le; lia).
  lra.
Qed.

Lemma ilog2_comp x y : 0 < x -> x == y -> ilog2 x = ilog2 y.
Proof.
  intros Hx E. symmetry. apply ilog2_unique. rewrite <- E.
  apply ilog2_spec, Hx.
Qed.

Lemma Qfloor_unique x z : inject_Z z <= x -> x < inject_Z (z + 1) -> Qfloor x = z.
Proof.
  intros H1 H2. pose proof (Qfloor_le x) as H3. pose proof (Qlt_floor x) as H4.
  assert (z < Qfloor x + 1)%Z by (rewrite Zlt_Qlt; lra).
  assert (Qfloor x < z + 1)%Z by (rewrite Zlt_Qlt; lra).
  lia.
Qed.

Lemma nearestEven_comp x y : x == y -> nearestEven x = nearestEven y.
Proof.
  intros H. unfold nearestEven. rewrite (Qfloor_comp _ _ H).
  assert (E : x - inject_Z (Qfloor y) == y - inject_Z (Qfloor y))
    by (rewrite H; reflexivity).
  rewrite E. reflexivity.
Qed.

Lemma nearestEven_bounds x :
  (Qfloor x <= nearestEven x <= Qfloor x + 1)%Z.
Proof.
  unfold nearestEven.
  destruct (Qcompare (x - inject_Z (Qfloor x)) (1 # 2)); [destruct (Z.even _)| |]; lia.
Qed.

Lemma nearestEven_Z z : nearestEven (inject_Z z) = z.
Proof.
  unfold nearestEven. rewrite Qfloor_Z.
  destruct (Qcompare_spec (inject_Z z - inject_Z z) (1 # 2)) as [H|H|H];
    try reflexivity; exfalso; lra.
Qed.

Lemma nearestEven_le x y : x <= y -> (nearestEven x <= nearestEven y)%Z.
Proof.
  intros H. pose proof (Qfloor_resp_le _ _ H) as Hf.
  destruct (Z.eq_dec (Qfloor x) (Qfloor y)) as [E|N].
  - unfold nearestEven. rewrite E.
    destruct (Qcompare_spec (x - inject_Z (Qfloor y)) (1 # 2)) as [H1|H1|H1],
             (Qcompare_spec (y - inject_Z (Qfloor y)) (1 # 2)) as [H2|H2|H2];
      try destruct (Z.even (Qfloor y)); try lia; exfalso; lra.
  - pose proof (nearestEven_bounds x). pose proof (nearestEven_bounds y). lia.
Qed.

(** The value [roundPos] reduces. *)
Lemma roundPos_value x :
  roundPos x == inject_Z (nearestEven (x / pow2 (lastPlace x))) * pow2 (lastPlace x).
Proof. unfold roundPos. apply Qred_correct. Qed.

Lemma roundPos_comp x y : 0 < x -> x == y -> roundPos x = roundPos y.
Proof.
  intros Hx E. unfold roundPos, lastPlace. rewrite (ilog2_comp x y Hx E).
  apply Qred_complete.
  rewrite (nearestEven_comp (x / _) (y / pow2 (Z.max (ilog2 y - 52) (-1074)))).
  - reflexivity.
  - rewrite E. reflexivity.
Qed.

Lemma roundPos_nonneg x : 0 <= x -> 0 <= roundPos x.
Proof.
  intros Hx. rewrite roundPos_value.
  pose proof (pow2_pos (lastPlace x)) as Hp.
  apply Qmult_le_0_compat; [|lra].
  change 0 with (inject_Z 0). rewrite <- Zle_Qle.
  rewrite <- (nearestEven_Z 0). apply nearestEven_le.
  change (inject_Z 0) with 0. apply Qle_shift_div_l; lra.
Qed.

(** A power of two from the last place of [x] upwards is on the grid
    [x] is rounded to, so rounding does not cross it. *)
Lemma roundPos_below x m :
  (lastPlace x <= m)%Z -> x <= pow2 m -> roundPos x <= pow2 m.
Proof.
  intros He Hx. rewrite roundPos_value.
  pose proof (pow2_pos (lastPlace x)) as Hp.
  assert (Em : pow2 m == inject_Z (2 ^ (m - lastPlace x)) * pow2 (lastPlace x)).
  { rewrite <- pow2_Z by lia. rewrite <- pow2_add. 
    replace (m - lastPlace x + lastPlace x)%Z with m by lia. reflexivity. }
  rewrite Em. apply Qmult_le_compat_r; [|lra].
  rewrite <- Zle_Qle. rewrite <- (nearestEven_Z (2 ^ (m - lastPlace x))).
  apply nearestEven_le. apply Qle_shift_div_r; [exact Hp|].
  rewrite <- Em. exact Hx.
Qed.

Lemma roundPos_above x m :
  (lastPlace x <= m)%Z -> pow2 m <= x -> pow2 m <= roundPos x.
Proof.
  intros He Hx. rewrite roundPos_value.
  pose proof (pow2_pos (lastPlace x)) as Hp.
  assert (Em : pow2 m == inject_Z (2 ^ (m - lastPlace x)) * pow2 (lastPlace x)).
  { rewrite <- pow2_Z by lia. rewrite <- pow2_add. 
    replace (m - lastPlace x + lastPlace x)%Z with m by lia. reflexivity. }
  rewrite Em. apply Qmult_le_compat_r; [|lra].
  rewrite <- Zle_Qle. rewrite <- (nearestEven_Z (2 ^ (m - lastPlace x))) at 1.
  apply nearestEven_le. apply Qle_shift_div_l; [exact Hp|].
  rewrite <- Em. exact Hx.
Qed.

Lemma lastPlace_le x y : 0 < x -> x <= y -> (lastPlace x <= lastPlace y)%Z.
Proof.
  intros Hx H. unfold lastPlace. pose proof (ilog2_le x y Hx H). lia.
Qed.

(** Rounding is monotone. *)
Lemma roundPos_le x y : 0 < x -> x <= y -> roundPos x <= roundPos y.
Proof.
  intros Hx H. assert (Hy : 0 < y) by lra.
  pose proof (lastPlace_le x y Hx H) as He.
  destruct (Z.eq_dec (lastPlace x) (lastPlace y)) as [E|N].
  - rewrite !roundPos_value, E.
    pose proof (pow2_pos (lastPlace y)) as Hp.
    apply Qmult_le_compat_r; [|lra].
    rewrite <- Zle_Qle. apply nearestEven_le.
    apply Qmult_le_compat_r; [exact H|].
    apply Qlt_le_weak, Qinv_lt_0_compat, Hp.
  - destruct (ilog2_spec x Hx) as [_ Hx2], (ilog2_spec y Hy) as [Hy1 _].
    assert (Hlt : (ilog2 x < ilog2 y)%Z) by (unfold lastPlace in *; lia).
    apply Qle_trans with (pow2 (ilog2 y)).
    + apply roundPos_below; [unfold lastPlace in *; lia|].
      assert (pow2 (ilog2 x + 1) <= pow2 (ilog2 y)) by (apply pow2_le; lia).
      lra.
    + apply roundPos_above; [unfold lastPlace in *; lia|exact Hy1].
Qed.

Lemma nearest_nonneg x : 0 <= x -> 0 <= nearest x.
Proof.
  intros H. unfold nearest.
  destruct (Qcompare_spec x 0) as [E|L|G]; [lra|lra|].
  apply roundPos_nonneg, H.
Qed.

Lemma nearest_nonpos x : x <= 0 -> nearest x <= 0.
Proof.
  intros H. unfold nearest.
  destruct (Qcompare_spec x 0) as [E|L|G]; [lra| |lra].
  assert (0 <= roundPos (- x)) by (apply roundPos_nonneg; lra). lra.
Qed.

Lemma nearest_le x y : x <= y -> nearest x <= nearest y.
Proof.
  intros H. unfold nearest at 1.
  destruct (Qcompare_spec x 0) as [E|L|G].
  - apply nearest_nonneg. lra.
  - unfold nearest. destruct (Qcompare_spec y 0) as [E'|L'|G'].
    + assert (0 <= roundPos (- x)) by (apply roundPos_nonneg; lra). lra.
    + assert (roundPos (- y) <= roundPos (- x)) by (apply roundPos_le; lra). lra.
    + assert (0 <= roundPos (- x)) by (apply roundPos_nonneg; lra).
      assert (0 <= roundPos y) by (apply roundPos_nonneg; lra). lra.
  - unfold nearest. destruct (Qcompare_spec y 0) as [E'|L'|G']; [lra|lra|].
    apply roundPos_le; assumption.
Qed.

Lemma nearest_comp x y : x == y -> nearest x = nearest y.
Proof.
  intros E. unfold nearest. rewrite <- E.
  destruct (Qcompare_spec x 0) as [E'|L|G].
  - reflexivity.
  - f_equal. apply roundPos_comp; [lra|]. rewrite E. reflexivity.
  - apply roundPos_comp; assumption.
Qed.



(** *** Rounding to a double *)

Lemma Qabs_ge_cases r b : 0 < b -> b <= Qabs r -> r <= - b \/ b <= r.
Proof.
  intros Hb H. revert H. apply Qabs_case; intros; [right|left]; lra.
Qed.

Lemma isNegative_true q : isNegative q = true <-> q < 0.
Proof.
  unfold isNegative. rewrite negb_true_iff. split.
  - intros H. apply Qnot_le_lt. intros Hle.
    apply Qle_bool_iff in Hle. congruence.
  - intros H. destruct (Qle_bool 0 q) eqn:E; [|reflexivity].
    apply Qle_bool_iff in E. lra.
Qed.

Lemma isNegative_false q : isNegative q = false <-> 0 <= q.
Proof.
  unfold isNegative. rewrite negb_false_iff. apply Qle_bool_iff.
Qed.

(** What [round64 x] is, by the size of the nearest value. *)
Lemma round64_cases x :
  (round64 x = Finite (nearest x) /\ Qabs (nearest x) < pow2 1024)
  \/ (round64 x = Infinity false /\ pow2 1024 <= nearest x)
  \/ (round64 x = Infinity true /\ nearest x <= - pow2 1024).
Proof.
  unfold round64. pose proof (pow2_pos 1024) as Hp.
  destruct (Qle_bool (pow2 1024) (Qabs (nearest x))) eqn:E.
  - apply Qle_bool_iff in E.
    destruct (Qabs_ge_cases _ _ Hp E) as [H|H].
    + right; right. split; [|exact H].
      f_equal. apply isNegative_true. lra.
    + right; left. split; [|exact H].
      f_equal. apply isNegative_false. lra.
  - left. split; [reflexivity|].
    apply Qnot_le_lt. intros H. apply Qle_bool_iff in H. congruence.
Qed.

Lemma round64_comp x y : x == y -> round64 x = round64 y.
Proof. intros E. unfold round64. now rewrite (nearest_comp x y E). Qed.

Lemma round64_not_NaN x : round64 x <> NaN.
Proof.
  destruct (round64_cases x) as [[-> _]|[[-> _]|[-> _]]]; discriminate.
Qed.

Lemma Qabs_lt_bounds r b : Qabs r < b -> - b < r /\ r < b.
Proof.
  apply Qabs_case; intros; split; lra.
Qed.

(** Rounding keeps the order. *)
Lemma round64_le x y : x <= y -> le (round64 x) (round64 y).
Proof.
  intros H. apply nearest_le in H. unfold le.
  pose proof (pow2_pos 1024) as Hp.
  destruct (round64_cases x) as [[-> Hx]|[[-> Hx]|[-> Hx]]],
           (round64_cases y) as [[-> Hy]|[[-> Hy]|[-> Hy]]];
    try reflexivity; simpl;
    try apply Qabs_lt_bounds in Hx; try apply Qabs_lt_bounds in Hy;
    try (exfalso; lra).
  rewrite negb_true_iff. apply Qgtb_false. exact H.
Qed.

Lemma nearest_aboveHalf : nearest aboveHalf = 1 # 2.
Proof. vm_compute. reflexivity. Qed.

Lemma nearest_next : nearest ((1 # 2) + pow2 (-53)) == (1 # 2) + pow2 (-53).
Proof. vm_compute. reflexivity. Qed.

Lemma nearest_above x : aboveHalf < x -> (1 # 2) + pow2 (-53) <= nearest x.
Proof.
  intros H. destruct (Qlt_le_dec x ((1 # 2) + pow2 (-53))) as [L|G].
  - assert (E54 : pow2 (-54) == 1 # 18014398509481984) by reflexivity.
    assert (E53 : pow2 (-53) == 1 # 9007199254740992) by reflexivity.
    unfold aboveHalf in H. rewrite E54 in H.
    assert (Hx : 0 < x) by lra.
    assert (Ek : ilog2 x = (-1)%Z).
    { apply ilog2_unique. change (pow2 (-1)) with (1 # 2).
      change (pow2 (-1 + 1)) with 1. rewrite E53 in L. lra. }
    unfold nearest. destruct (Qcompare_spec x 0) as [E|L'|_]; [lra|lra|].
    rewrite roundPos_value. unfold lastPlace. rewrite Ek.
    change (Z.max (-1 - 52) (-1074)) with (-53)%Z.
    assert (Ed : x / pow2 (-53) == x * 9007199254740992).
    { rewrite E53. field. }
    rewrite (nearestEven_comp _ _ Ed).
    assert (Ef : Qfloor (x * 9007199254740992) = 4503599627370496%Z).
    { apply Qfloor_unique.
      - change (inject_Z 4503599627370496) with 4503599627370496. lra.
      - change (inject_Z (4503599627370496 + 1)) with 4503599627370497.
        rewrite E53 in L. lra. }
    unfold nearestEven. rewrite Ef.
    destruct (Qcompare_spec (x * 9007199254740992 - inject_Z 4503599627370496)
                (1 # 2)) as [E|L'|G'].
    + exfalso. change (inject_Z 4503599627370496) with 4503599627370496 in E. lra.
    + exfalso. change (inject_Z 4503599627370496) with 4503599627370496 in L'. lra.
    + rewrite E53. change (inject_Z (4503599627370496 + 1)) with 4503599627370497.
      lra.
  - rewrite <- nearest_next. apply nearest_le, G.
Qed.

Lemma gtb_round64_half x :
  gtb (round64 x) (Finite (1 # 2)) = Qgtb x aboveHalf.
Proof.
  pose proof (pow2_pos 1024) as Hp.
  assert (Hbig : 1 <= pow2 1024).
  { change 1 with (pow2 0). apply pow2_le. lia. }
  assert (E53 : pow2 (-53) == 1 # 9007199254740992) by reflexivity.
  destruct (Qlt_le_dec aboveHalf x) as [L|G].
  - rewrite (proj2 (Qgtb_true _ _) L).
    pose proof (nearest_above x L) as Hn. rewrite E53 in Hn.
    destruct (round64_cases x) as [[-> Hx]|[[-> Hx]|[-> Hx]]]; simpl.
    + apply Qgtb_true. lra.
    + reflexivity.
    + exfalso. lra.
  - rewrite (proj2 (Qgtb_false _ _) G).
    pose proof (nearest_le _ _ G) as Hn. rewrite nearest_aboveHalf in Hn.
    destruct (round64_cases x) as [[-> Hx]|[[-> Hx]|[-> Hx]]]; simpl.
    + apply Qgtb_false. exact Hn.
    + exfalso. lra.
    + reflexivity.
Qed.

(** *** Order *)

Lemma le_Finite a b : le (Finite a) (Finite b) <-> a <= b.
Proof.
  unfold le. simpl. rewrite negb_true_iff. apply Qgtb_false.
Qed.

Lemma le_not_NaN x y : le x y -> x <> NaN /\ y <> NaN.
Proof.
  unfold le. destruct x, y; simpl; intros H; split; congruence.
Qed.

Lemma le_refl x : x <> NaN -> le x x.
Proof.
  unfold le. destruct x as [|[]|q]; simpl; try congruence; intros _.
  rewrite negb_true_iff. apply Qgtb_false. lra.
Qed.

Lemma le_trans x y z : le x y -> le y z -> le x z.
Proof.
  unfold le. destruct x as [|[]|a], y as [|[]|b], z as [|[]|c]; simpl;
    try congruence.
  rewrite !negb_true_iff, !Qgtb_false. lra.
Qed.

Lemma gtb_false_le x y : x <> NaN -> y <> NaN -> gtb x y = false -> le x y.
Proof.
  unfold le. destruct x, y; simpl; try congruence; intros _ _ ->; reflexivity.
Qed.

Lemma gtb_true_le x y : gtb x y = true -> le y x.
Proof.
  unfold le. destruct x as [|[]|a], y as [|[]|b]; simpl; try congruence.
  rewrite negb_true_iff, Qgtb_true, Qgtb_false. lra.
Qed.

(** *** [Math.round] and [Math.min] keep the order *)

Lemma round_le x y : le x y -> le (Math.round x) (Math.round y).
Proof.
  destruct x as [|[]|a], y as [|[]|b];
    try (intros H; discriminate H); try (intros _; reflexivity).
  intros H. apply le_Finite in H. apply le_Finite.
  rewrite <- Zle_Qle. apply Qfloor_resp_le. lra.
Qed.

Lemma min_le_compat c x y :
  c <> NaN -> le x y -> le (Math.min c x) (Math.min c y).
Proof.
  intros Hc H. destruct (le_not_NaN _ _ H) as [Hx Hy].
  assert (Ex : Math.min c x = if gtb c x then x else c)
    by (destruct c, x; try congruence; reflexivity).
  assert (Ey : Math.min c y = if gtb c y then y else c)
    by (destruct c, y; try congruence; reflexivity).
  rewrite Ex, Ey.
  destruct (gtb c x) eqn:Gx, (gtb c y) eqn:Gy.
  - exact H.
  - apply gtb_true_le. exact Gx.
  - apply le_trans with x; [|exact H]. now apply gtb_false_le.
  - now apply le_refl.
Qed.

Lemma min_le_l c x : c <> NaN -> x <> NaN -> le (Math.min c x) c.
Proof.
  intros Hc Hx.
  assert (Ex : Math.min c x = if gtb c x then x else c)
    by (destruct c, x; try congruence; reflexivity).
  rewrite Ex. destruct (gtb c x) eqn:G.
  - now apply gtb_true_le.
  - now apply le_refl.
Qed.

(** Multiplying by a positive constant keeps the order. *)
Lemma mul_le_compat_r c x y :
  0 < c -> le x y -> le (mul x (Finite c)) (mul y (Finite c)).
Proof.
  intros Hc H.
  assert (Ec : Qeq_bool c 0 = false).
  { destruct (Qeq_bool c 0) eqn:E; [|reflexivity].
    apply Qeq_bool_iff in E. lra. }
  assert (En : isNegative c = false) by (apply isNegative_false; lra).
  destruct x as [|s|a], y as [|s'|b]; simpl; rewrite ?Ec, ?En, ?xorb_false_r;
    try (exfalso; unfold le in H; simpl in H; congruence).
  - exact H.
  - destruct s; [|discriminate H].
    pose proof (round64_not_NaN (b * c)).
    unfold le. destruct (round64 (b * c)) as [|[]|]; try congruence; reflexivity.
  - destruct s'; [discriminate H|].
    pose proof (round64_not_NaN (a * c)).
    unfold le. destruct (round64 (a * c)) as [|[]|]; try congruence; reflexivity.
  - apply round64_le. apply le_Finite in H.
    apply Qmult_le_compat_r; lra.
Qed.

(** *** The sign of a difference of doubles *)

(** A double is a multiple of the smallest subnormal. *)
Lemma roundPos_multiple x :
  exists m, roundPos x == inject_Z m * pow2 (-1074).
Proof.
  exists (nearestEven (x / pow2 (lastPlace x)) * 2 ^ (lastPlace x + 1074))%Z.
  rewrite roundPos_value, inject_Z_mult.
  assert (He : (0 <= lastPlace x + 1074)%Z) by (unfold lastPlace; lia).
  rewrite <- (pow2_Z _ He), <- Qmult_assoc, <- pow2_add.
  replace (lastPlace x + 1074 + -1074)%Z with (lastPlace x) by lia.
  reflexivity.
Qed.

Lemma isDouble_multiple q :
  isDouble q -> exists m, q == inject_Z m * pow2 (-1074).
Proof.
  intros [H _]. unfold nearest in H.
  destruct (Qcompare_spec q 0) as [E|L|G].
  - exists 0%Z. rewrite E. ring.
  - destruct (roundPos_multiple (- q)) as (m & Hm).
    exists (- m)%Z. rewrite inject_Z_opp, <- H, Hm. ring.
  - destruct (roundPos_multiple q) as (m & Hm).
    exists m. rewrite <- H. exact Hm.
Qed.

Lemma nearest_smallest : nearest (pow2 (-1074)) == pow2 (-1074).
Proof. vm_compute. reflexivity. Qed.

(** The computed difference of two doubles has the sign of their exact
    difference: a difference that is not zero is at least the smallest
    subnormal, and does not round to zero. *)
Lemma sub_sign a b :
  isDouble a -> isDouble b ->
  gtb (sub (Finite a) (Finite b)) (Finite 0) = Qgtb (a - b) 0
  /\ gtb (Finite 0) (sub (Finite a) (Finite b)) = Qgtb 0 (a - b).
Proof.
  intros Ha Hb.
  destruct (isDouble_multiple a Ha) as (ma & Ea).
  destruct (isDouble_multiple b Hb) as (mb & Eb).
  pose proof (pow2_pos (-1074)) as Hp.
  pose proof (pow2_pos 1024) as Hbig.
  assert (Ed : a - b == inject_Z (ma - mb) * pow2 (-1074)).
  { rewrite Ea, Eb. unfold Z.sub. rewrite inject_Z_plus, inject_Z_opp. ring. }
  assert (Hsmall : forall m : Z, (1 <= m)%Z ->
                     pow2 (-1074) <= inject_Z m * pow2 (-1074)).
  { intros m Hm. rewrite <- (Qmult_1_l (pow2 (-1074))) at 1.
    apply Qmult_le_compat_r; [|lra].
    change 1 with (inject_Z 1). now rewrite <- Zle_Qle. }
  simpl sub.
  destruct (Z.lt_trichotomy (ma - mb) 0) as [L|[E|G]].
  - (* a < b *)
    assert (Hx : a - b <= - pow2 (-1074)).
    { rewrite Ed. specialize (Hsmall (- (ma - mb))%Z ltac:(lia)).
      rewrite inject_Z_opp in Hsmall. lra. }
    assert (Hn : nearest (a - b) <= - pow2 (-1074)).
    { assert (H := nearest_le _ _ Hx).
      assert (E' : nearest (- pow2 (-1074)) == - pow2 (-1074))
        by (vm_compute; reflexivity).
      lra. }
    rewrite (proj2 (Qgtb_false (a - b) 0)) by lra.
    rewrite (proj2 (Qgtb_true 0 (a - b))) by lra.
    destruct (round64_cases (a - b)) as [[-> _]|[[-> Hr]|[-> _]]]; simpl.
    + split; [apply Qgtb_false|apply Qgtb_true]; lra.
    + exfalso. lra.
    + split; reflexivity.
  - (* a = b *)
    assert (Hx : a - b == 0) by (rewrite Ed, E; ring).
    rewrite (round64_comp _ _ Hx).
    rewrite (proj2 (Qgtb_false (a - b) 0)) by lra.
    rewrite (proj2 (Qgtb_false 0 (a - b))) by lra.
    split; reflexivity.
  - (* a > b *)
    assert (Hx : pow2 (-1074) <= a - b).
    { rewrite Ed. apply Hsmall. lia. }
    assert (Hn : pow2 (-1074) <= nearest (a - b)).
    { rewrite <- nearest_smallest. now apply nearest_le. }
    rewrite (proj2 (Qgtb_true (a - b) 0)) by lra.
    rewrite (proj2 (Qgtb_false 0 (a - b))) by lra.
    destruct (round64_cases (a - b)) as [[-> _]|[[-> _]|[-> Hr]]]; simpl.
    + split; [apply Qgtb_true|apply Qgtb_false]; lra.
    + split; reflexivity.
    + exfalso. lra.
Qed.

(** Dividing by a positive constant keeps the order. *)
Lemma div_le_compat_r c x y :
  0 < c -> x <= y -> le (div (Finite x) (Finite c)) (div (Finite y) (Finite c)).
Proof.
  intros Hc H.
  assert (Ec : Qeq_bool c 0 = false).
  { destruct (Qeq_bool c 0) eqn:E; [|reflexivity].
    apply Qeq_bool_iff in E. lra. }
  simpl. rewrite Ec. apply round64_le.
  apply Qmult_le_compat_r; [exact H|].
  apply Qlt_le_weak, Qinv_lt_0_compat, Hc.
Qed.

Lemma div_0_l c : 0 < c -> div (Finite 0) (Finite c) = Finite 0.
Proof.
  intros Hc.
  assert (Ec : Qeq_bool c 0 = false).
  { destruct (Qeq_bool c 0) eqn:E; [|reflexivity].
    apply Qeq_bool_iff in E. lra. }
  simpl. rewrite Ec.
  assert (E0 : 0 / c == 0) by (unfold Qdiv; ring).
  rewrite (round64_comp _ _ E0). reflexivity.
Qed.

Lemma mul_not_NaN x c : x <> NaN -> 0 < c -> mul x (Finite c) <> NaN.
Proof.
  intros Hx Hc. destruct x as [|s|a]; [contradiction| |apply round64_not_NaN].
  simpl. destruct (Qeq_bool c 0) eqn:E; [|discriminate].
  apply Qeq_bool_iff in E. lra.
Qed.

Lemma round_not_NaN x : x <> NaN -> Math.round x <> NaN.
Proof. destruct x; simpl; congruence. Qed.

Lemma min_not_NaN c x : c <> NaN -> x <> NaN -> Math.min c x <> NaN.
Proof.
  intros Hc Hx. destruct c, x; try contradiction; simpl;
    match goal with |- context [if ?b then _ else _] => destruct b end;
    discriminate.
Qed.

(** [Math.min(c, x)] is never greater than [c]. *)
Lemma gtb_min_l c x : gtb (Math.min c x) c = false.
Proof.
  assert (Hq : forall q, Qgtb q q = false) by (intros q; apply Qgtb_false; lra).
  destruct c as [|s|a], x as [|s'|b]; try reflexivity.
  - destruct s, s'; reflexivity.
  - destruct s; reflexivity.
  - destruct s'; simpl; [reflexivity|apply Hq].
  - simpl. destruct (Qgtb a b) eqn:E; simpl.
    + apply Qgtb_true in E. apply Qgtb_false. lra.
    + apply Hq.
Qed.

End Float64Facts.

(** *** Agreement with the kernel's binary64 arithmetic

    The operators, run on sample operands, give what the proof
    assistant's primitive floats give. *)

Module Float64Agreement.
Import PrimFloat.

Example sub_agrees :
  Float64.ofFloat (8 / 10 - 3 / 10)
  = Float64.sub (Float64.Finite (Float64.double (8 # 10)))
      (Float64.Finite (Float64.double (3 # 10)))
  /\ Float64.ofFloat (22 / 10 - 17 / 10)
     = Float64.sub (Float64.Finite (Float64.double (22 # 10)))
         (Float64.Finite (Float64.double (17 # 10)))
  /\ Float64.ofFloat (16 / 10 - 12 / 10)
     = Float64.sub (Float64.Finite (Float64.double (16 # 10)))
         (Float64.Finite (Float64.double (12 # 10))).
Proof. vm_compute. repeat split. Qed.

Example mul_div_agree :
  Float64.ofFloat (29 / 200 * 100)
  = Float64.mul (Float64.div (Float64.Finite 29) (Float64.Finite 200))
      (Float64.Finite 100)
  /\ Float64.ofFloat (45 / 1000 * 100)
     = Float64.mul (Float64.Finite (Float64.double (45 # 1000)))
         (Float64.Finite 100)
  /\ Float64.ofFloat (1 / 3)
     = Float64.div (Float64.Finite 1) (Float64.Finite 3).
Proof. vm_compute. repeat split. Qed.

Example zero_and_overflow_agree :
  Float64.ofFloat (- 5 / 0)
  = Float64.div (Float64.Finite (- 5)) (Float64.Finite 0)
  /\ Float64.ofFloat (5 / 0)
     = Float64.div (Float64.Finite 5) (Float64.Finite 0)
  /\ Float64.ofFloat (0 / 0)
     = Float64.div (Float64.Finite 0) (Float64.Finite 0)
  /\ Float64.ofFloat (0x1p1023 * 4)
     = Float64.mul (Float64.Finite (Float64.pow2 1023)) (Float64.Finite 4)
  /\ Float64.ofFloat (0x1p-1074 / 2)
     = Float64.div (Float64.Finite (Float64.pow2 (-1074))) (Float64.Finite 2)
  /\ Float64.ofFloat (0x1p-1074 * 3 / 2)
     = Float64.div (Float64.Finite (Float64.pow2 (-1074) * 3))
         (Float64.Finite 2).
Proof. vm_compute. repeat split. Qed.

End Float64Agreement.

(** *** [toString] on sample numbers *)

Module NumberToStringExamples.
Import Float64 NumberToString.
Import String.
Local Open Scope string_scope.

Example toString_integers :
  map toString [Finite 0; Finite 5; Finite 100; Finite (- 14);
                Finite (2 ^ 53); Finite (2 ^ 64); Finite (10 ^ 21);
                Finite (2 ^ 70)]
  = ["0"; "5"; "100"; "-14"; "9007199254740992"; "18446744073709552000";
     "1e+21"; "1.1805916207174113e+21"].
Proof. vm_compute. reflexivity. Qed.

Example toString_fractions :
  map toString [Finite (3 # 2); Finite (double (1 # 10));
                sub (double (8 # 10)) (double (3 # 10));
                mul (div 29 200) 100; Finite (double (1 / 10 ^ 7));
                Finite (pow2 (-1074))]
  = ["1.5"; "0.1"; "0.5"; "14.499999999999998"; "1e-7"; "5e-324"].
Proof. vm_compute. reflexivity. Qed.

Example toString_others :
  map toString [NaN; Infinity false; Infinity true]
  = ["NaN"; "Infinity"; "-Infinity"].
Proof. reflexivity. Qed.

End NumberToStringExamples.

(** * Properties of the range merger *)

Module RangeMergerFacts.
Import Float64.
Import Float64Facts.
Import RangeMerger.

#[local] Arguments sub : simpl never.
#[local] Arguments gtb : simpl never.

(** The gap test of the loop, in exact terms. *)
Lemma gap_test c p :
  gtb (sub (Finite c) (Finite p)) (Finite TOLERANCE) = Qgtb (c - p) aboveHalf.
Proof. apply gtb_round64_half. Qed.

Lemma aboveHalf_gt : TOLERANCE < aboveHalf.
Proof. reflexivity. Qed.

Lemma gt_sub c p : gt (sub (Finite c) (Finite p)) TOLERANCE <-> aboveHalf < c - p.
Proof. unfold gt. rewrite gap_test. apply Qgtb_true. Qed.

Lemma le_sub c p : le (sub (Finite c) (Finite p)) TOLERANCE <-> c - p <= aboveHalf.
Proof.
  rewrite <- Qgtb_false, <- gap_test. unfold le, sub.
  destruct (round64_cases (c - p)) as [[-> _]|[[-> _]|[-> _]]];
    unfold leb; rewrite negb_true_iff; reflexivity.
Qed.

(** The comparator has the sign of the difference the code computes. *)
Lemma compareFn_sign a b :
  isDouble a -> isDouble b ->
  gtb (sub (Finite a) (Finite b)) (Finite 0) = Qgtb (compareFn a b) 0
  /\ gtb (Finite 0) (sub (Finite a) (Finite b)) = Qgtb 0 (compareFn a b).
Proof. apply sub_sign. Qed.

(** Case analysis on the gap test, leaving the exact fact in the
    context. *)
Ltac gap_cases c p :=
  rewrite ?(gap_test c p);
  let E := fresh "E" in
  destruct (Qgtb (c - p) aboveHalf) eqn:E;
  [apply Qgtb_true in E | apply Qgtb_false in E];
  pose proof aboveHalf_gt.

(** Case analysis on a [>] test, leaving the order fact in the context. *)
Ltac gt_cases x y :=
  let E := fresh "E" in
  destruct (Qgtb x y) eqn:E;
  [apply Qgtb_true in E | apply Qgtb_false in E].

(** *** The sort *)

Lemma insert_perm x l : Permutation (x :: l) (insert x l).
Proof.
  induction l as [|y l IH]; simpl; [reflexivity|].
  destruct (Qgtb (compareFn x y) 0); [|reflexivity].
  rewrite perm_swap. now constructor.
Qed.

Lemma sort_perm l : Permutation l (sort l).
Proof.
  induction l as [|x l IH]; simpl; [constructor|].
  rewrite <- insert_perm. now constructor.
Qed.

Lemma sort_In x l : In x (sort l) <-> In x l.
Proof.
  split; apply Permutation_in; [symmetry|]; apply sort_perm.
Qed.

Lemma insert_hd x l y :
  HdRel Qle y l -> y <= x -> HdRel Qle y (insert x l).
Proof.
  destruct l as [|z l]; simpl; intros H Hx.
  - now constructor.
  - destruct (Qgtb (compareFn x z) 0); constructor; auto.
    now inversion H.
Qed.

Lemma insert_sorted x l : Sorted Qle l -> Sorted Qle (insert x l).
Proof.
  induction 1 as [|y l Hs IH Hd]; simpl.
  - repeat constructor.
  - unfold compareFn. gt_cases (x - y) 0.
    + constructor; [exact IH|]. apply insert_hd; [exact Hd | lra].
    + constructor; [now constructor|]. constructor. lra.
Qed.

Lemma sort_sorted l : Sorted Qle (sort l).
Proof.
  induction l; simpl; [constructor | now apply insert_sorted].
Qed.

(** Sorting leaves a sorted array as it is. *)
Lemma sort_id l : Sorted Qle l -> sort l = l.
Proof.
  induction 1 as [|x l Hs IH Hd]; simpl; [reflexivity|].
  rewrite IH. destruct Hd as [|y l Hxy]; simpl; [reflexivity|].
  unfold compareFn. gt_cases (x - y) 0; [lra | reflexivity].
Qed.

(** *** The loop *)

Lemma scan_groups rest : forall s p acc,
  scan s p rest acc = acc ++ groups s p rest.
Proof.
  induction rest as [|c rest IH]; intros s p acc; simpl; [reflexivity|].
  destruct (gtb (sub c p) TOLERANCE); rewrite IH; [|reflexivity].
  now rewrite <- app_assoc.
Qed.

Lemma processDetections_groups ts s0 rest :
  sort ts = s0 :: rest -> processDetections ts = groups s0 s0 rest.
Proof.
  intros E. unfold processDetections. destruct ts as [|t ts]; [discriminate|].
  rewrite E. apply scan_groups.
Qed.

Lemma sort_nonempty t ts : exists s0 rest, sort (t :: ts) = s0 :: rest.
Proof.
  destruct (sort (t :: ts)) as [|s0 rest] eqn:E; eauto.
  pose proof (sort_perm (t :: ts)) as P. rewrite E in P.
  apply Permutation_sym, Permutation_nil in P. discriminate.
Qed.

(** The first range pushed starts at [s]; it ends at a scanned point
    that is not below [p]. *)
Lemma groups_hd rest : forall s p,
  exists e l, groups s p rest = mkRange s e 1 :: l
              /\ In e (p :: rest)
              /\ (Sorted Qle (p :: rest) -> p <= e).
Proof.
  induction rest as [|c rest IH]; intros s p; simpl.
  - exists p, []. repeat split; auto. intros _. lra.
  - destruct (gtb (sub c p) TOLERANCE).
    + exists p, (groups c c rest). repeat split; auto. intros _. lra.
    + destruct (IH s c) as (e & l & E & Hin & Hle).
      exists e, l. repeat split; auto.
      intros Hs. inversion Hs as [|? ? Hs' Hd]; subst.
      inversion Hd; subst. specialize (Hle Hs'). lra.
Qed.

Lemma groups_separated rest : forall s p,
  s <= p -> Sorted Qle (p :: rest) -> separated (groups s p rest).
Proof.
  induction rest as [|c rest IH]; intros s p Hsp Hs; simpl.
  - constructor. exact Hsp.
  - inversion Hs as [|? ? Hs' Hd]; subst. inversion Hd; subst.
    gap_cases c p.
    + destruct (groups_hd rest c c) as (e & l & E' & _ & _).
      pose proof (IH c c ltac:(lra) Hs') as Hsep.
      rewrite E' in *. constructor; auto. simpl. apply gt_sub. exact E.
    + apply IH; [lra | exact Hs'].
Qed.

(** Every range pushed starts and ends at a scanned point and carries
    confidence 1. *)
Lemma groups_points rest : forall s p r,
  In r (groups s p rest) ->
  In (start r) (s :: rest) /\ In (end_ r) (p :: rest) /\ confidence r = 1.
Proof.
  induction rest as [|c rest IH]; intros s p r; simpl.
  - intros [<-|[]]; simpl; auto.
  - destruct (gtb (sub c p) TOLERANCE); simpl.
    + intros [<-|Hin]; simpl; auto.
      destruct (IH _ _ _ Hin) as (H1 & H2 & H3). simpl in *. tauto.
    + intros Hin. destruct (IH _ _ _ Hin) as (H1 & H2 & H3).
      simpl in *. tauto.
Qed.

(** Every scanned point, and every point of the open range, is covered. *)
Lemma groups_cover rest : forall s p t,
  s <= p -> Sorted Qle (p :: rest) ->
  In t rest \/ (s <= t /\ t <= p) ->
  exists r, In r (groups s p rest) /\ within t r.
Proof.
  induction rest as [|c rest IH]; intros s p t Hsp Hs Ht; simpl.
  - destruct Ht as [[]|Ht]. exists (mkRange s p 1). split; [now left|exact Ht].
  - inversion Hs as [|? ? Hs' Hd]; subst. inversion Hd; subst.
    assert (Hcc : c <= c) by lra.
    gap_cases c p.
    + destruct Ht as [[<-|Ht]|Ht].
      * destruct (IH c c c Hcc Hs') as (r & Hr & Hw); [right; split; lra|].
        exists r. split; [now right|exact Hw].
      * destruct (IH c c t Hcc Hs') as (r & Hr & Hw); [now left|].
        exists r. split; [now right|exact Hw].
      * exists (mkRange s p 1). split; [now left|exact Ht].
    + apply IH; [lra|exact Hs'|]. destruct Ht as [[<-|Ht]|Ht].
      * right. lra.
      * now left.
      * right. lra.
Qed.

(** *** Consequences of the shape of the output *)

(** Every later range starts more than the tolerance after the first one
    ends. *)
Lemma separated_tail r l :
  separated (r :: l) ->
  Forall (fun r' => end_ r + TOLERANCE < start r') l.
Proof.
  revert r. induction l as [|r2 l IH]; intros r H; [constructor|].
  inversion H as [| |? ? ? Hw Hgap Hsep]; subst.
  apply gt_sub in Hgap. pose proof aboveHalf_gt.
  constructor; [lra|].
  specialize (IH _ Hsep). eapply Forall_impl; [|exact IH].
  simpl. intros r' Hr'.
  assert (wellFormed r2) by (inversion Hsep; assumption).
  unfold wellFormed, TOLERANCE in *. lra.
Qed.

Lemma separated_inv r l : separated (r :: l) -> wellFormed r /\ separated l.
Proof.
  intros H. inversion H; subst; split; auto. constructor.
Qed.

Lemma separated_sortedDisjoint out : separated out -> sortedDisjoint out.
Proof.
  induction out as [|r l IH]; intros H.
  - split; constructor.
  - destruct (separated_inv _ _ H) as [Hw Hl].
    destruct (IH Hl) as [Hf Hs]. split; constructor; auto.
    eapply Forall_impl; [|exact (separated_tail _ _ H)].
    unfold before, TOLERANCE. simpl. intros. lra.
Qed.

Lemma withinb_within t r : withinb t r = true <-> within t r.
Proof.
  unfold withinb, within. rewrite andb_true_iff, !Qle_bool_iff. tauto.
Qed.

Lemma holders_none t l :
  Forall (fun r => ~ within t r) l -> holders t l = 0%nat.
Proof.
  unfold holders. induction 1 as [|r l Hr _ IH]; simpl; [reflexivity|].
  destruct (withinb t r) eqn:E; [|exact IH].
  apply withinb_within in E. contradiction.
Qed.

(** In a separated list a covered point has exactly one holder. *)
Lemma holders_one t out :
  separated out -> (exists r, In r out /\ within t r) -> holders t out = 1%nat.
Proof.
  induction out as [|r l IH]; intros Hsep (r0 & Hin & Hw); [destruct Hin|].
  destruct (separated_inv _ _ Hsep) as [Hwf Hl].
  pose proof (separated_tail _ _ Hsep) as Ht.
  unfold holders in *. simpl. destruct (withinb t r) eqn:E.
  - apply withinb_within in E. simpl. f_equal. apply holders_none.
    eapply Forall_impl; [|exact Ht]. unfold within, TOLERANCE in *.
    simpl. intros r' Hr' Hc. lra.
  - destruct Hin as [->|Hin].
    + apply withinb_within in Hw. congruence.
    + apply IH; eauto.
Qed.

(** Two neighbours anywhere in a separated list are more than the
    tolerance apart. *)
Lemma separated_gap p : forall r1 r2 q,
  separated (p ++ r1 :: r2 :: q) -> TOLERANCE < start r2 - end_ r1.
Proof.
  induction p as [|r p IH]; intros r1 r2 q H; simpl in H.
  - inversion H as [| |? ? ? _ Hgap _]; subst.
    apply gt_sub in Hgap. pose proof aboveHalf_gt. lra.
  - apply (IH r1 r2 q). now apply separated_inv in H.
Qed.

Lemma processDetections_separated ts : separated (processDetections ts).
Proof.
  destruct ts as [|t ts]; [constructor|].
  destruct (sort_nonempty t ts) as (s0 & rest & E).
  rewrite (processDetections_groups _ _ _ E).
  apply groups_separated; [lra|]. rewrite <- E. apply sort_sorted.
Qed.

Lemma processDetections_cover ts t :
  In t ts -> exists r, In r (processDetections ts) /\ within t r.
Proof.
  intros Hin. destruct ts as [|t0 ts]; [destruct Hin|].
  destruct (sort_nonempty t0 ts) as (s0 & rest & E).
  rewrite (processDetections_groups _ _ _ E).
  assert (Hs : Sorted Qle (s0 :: rest)) by (rewrite <- E; apply sort_sorted).
  apply sort_In in Hin. rewrite E in Hin.
  apply groups_cover; [lra|exact Hs|].
  destruct Hin as [<-|Hin]; [right; lra|now left].
Qed.

Lemma processDetections_points ts r :
  In r (processDetections ts) ->
  In (start r) ts /\ In (end_ r) ts /\ confidence r = 1.
Proof.
  intros Hin. destruct ts as [|t0 ts]; [destruct Hin|].
  destruct (sort_nonempty t0 ts) as (s0 & rest & E).
  rewrite (processDetections_groups _ _ _ E) in Hin.
  destruct (groups_points _ _ _ _ Hin) as (H1 & H2 & H3).
  rewrite <- E in H1, H2. rewrite sort_In in H1, H2. auto.
Qed.

(** C3 - For every input list (the non-empty ones in particular) the
    ranges returned by [processDetections] are sorted ascending and
    pairwise non-overlapping, and every input timestamp lies within
    exactly one of them; the empty input gives the empty output and a
    single timestamp [t] gives the single zero-width range [{t, t}]. *)
Theorem processDetections_sorted_disjoint_cover :
  (forall ts,
      sortedDisjoint (processDetections ts)
      /\ forall t, In t ts -> holders t (processDetections ts) = 1%nat)
  /\ processDetections [] = []
  /\ forall t, processDetections [t] = [mkRange t t 1].
Proof.
  split; [|split; reflexivity].
  intros ts. split.
  - apply separated_sortedDisjoint, processDetections_separated.
  - intros t Hin. apply holders_one.
    + apply processDetections_separated.
    + now apply processDetections_cover.
Qed.

(** *** Neighbours in sorted order *)

Lemma groups_adjacent l1 : forall s p rest a b l2,
  s <= p -> Sorted Qle (p :: rest) -> p :: rest = l1 ++ a :: b :: l2 ->
  (le (sub b a) TOLERANCE ->
     exists r, In r (groups s p rest) /\ within a r /\ within b r)
  /\ (gt (sub b a) TOLERANCE ->
     exists pre r1 r2 post,
       groups s p rest = pre ++ r1 :: r2 :: post
       /\ end_ r1 = a /\ start r2 = b).
Proof.
  induction l1 as [|x l1 IH]; intros s p rest a b l2 Hsp Hs E; simpl in E;
    rewrite le_sub, gt_sub.
  - injection E as -> ->. simpl.
    inversion Hs as [|? ? Hs' Hd]; subst. inversion Hd; subst.
    gap_cases b a; (split; intros Hgap; [|]); try lra.
    + destruct (groups_hd l2 b b) as (e & l & E' & _ & _).
      exists [], (mkRange s a 1), (mkRange b e 1), l.
      rewrite E'. auto.
    + destruct (groups_hd l2 s b) as (e & l & E' & _ & Hle).
      specialize (Hle Hs'). exists (mkRange s e 1).
      rewrite E'. unfold within. simpl. repeat split; auto; lra.
  - injection E as -> E. destruct rest as [|c rest].
    { destruct l1; discriminate. }
    inversion Hs as [|? ? Hs' Hd]; subst. inversion Hd; subst.
    simpl. gap_cases c x.
    + destruct (IH c c rest a b l2 ltac:(lra) Hs' E) as [H1 H2].
      rewrite le_sub in H1. rewrite gt_sub in H2.
      split; intros Hgap.
      * destruct (H1 Hgap) as (r & Hr & Hw). exists r. split; [now right|exact Hw].
      * destruct (H2 Hgap) as (pre & r1 & r2 & post & Eg & Hab).
        exists (mkRange s x 1 :: pre), r1, r2, post. rewrite Eg. auto.
    + rewrite <- le_sub, <- gt_sub. apply (IH s c rest a b l2); auto. lra.
Qed.

(** C4, as amended - For every pair [a], [b] of neighbours in the sorted
    input, with [b - a] the difference as the code computes it (rounded to
    the nearest double): when [b - a <= 0.5] one output range holds both,
    and when [b - a > 0.5] a boundary separates them ([a] ends one range
    and [b] starts the next).  In exact terms: a real difference of at
    most 0.5 always merges, and the computed difference exceeds 0.5
    exactly when the real difference exceeds [0.5 + 2^-54].  The input
    [1.0, 1.2, 1.6, 5.0, 5.3] yields exactly [{1.0, 1.6}] and
    [{5.0, 5.3}]. *)
Theorem processDetections_neighbours :
  (forall ts l1 a b l2,
      sort ts = l1 ++ a :: b :: l2 ->
      (le (sub b a) TOLERANCE ->
         exists r, In r (processDetections ts) /\ within a r /\ within b r)
      /\ (gt (sub b a) TOLERANCE ->
         exists pre r1 r2 post,
           processDetections ts = pre ++ r1 :: r2 :: post
           /\ end_ r1 = a /\ start r2 = b)
      /\ (b - a <= TOLERANCE -> le (sub b a) TOLERANCE)
      /\ (gt (sub b a) TOLERANCE <-> TOLERANCE + pow2 (-54) < b - a))
  /\ processDetections (map double [1; 12 # 10; 16 # 10; 5; 53 # 10])
     = [mkRange (double 1) (double (16 # 10)) 1;
        mkRange (double 5) (double (53 # 10)) 1].
Proof.
  split; [|vm_compute; reflexivity].
  intros ts l1 a b l2 E.
  assert (H : (le (sub b a) TOLERANCE ->
                 exists r, In r (processDetections ts)
                           /\ within a r /\ within b r)
              /\ (gt (sub b a) TOLERANCE ->
                 exists pre r1 r2 post,
                   processDetections ts = pre ++ r1 :: r2 :: post
                   /\ end_ r1 = a /\ start r2 = b)).
  { destruct ts as [|t ts]; [destruct l1; discriminate|].
    destruct (sort_nonempty t ts) as (s0 & rest & E0).
    rewrite (processDetections_groups _ _ _ E0).
    apply (groups_adjacent l1 s0 s0 rest a b l2); [lra| |congruence].
    rewrite <- E0. apply sort_sorted. }
  destruct H as [H1 H2]. split; [exact H1|]. split; [exact H2|]. split.
  - intros Hle. apply le_sub. pose proof aboveHalf_gt. lra.
  - rewrite gt_sub. reflexivity.
Qed.

(** C4, as stated, fails: the doubles 0.3 and 0.8 are more than 0.5 apart
    (by [2^-54]), yet the code computes their difference as exactly 0.5
    and puts both into one range. *)
Lemma processDetections_sliver_merged :
  sort [double (3 # 10); double (8 # 10)]
  = [double (3 # 10); double (8 # 10)]
  /\ TOLERANCE < double (8 # 10) - double (3 # 10)
  /\ sub (double (8 # 10)) (double (3 # 10)) = Finite TOLERANCE
  /\ processDetections [double (3 # 10); double (8 # 10)]
     = [mkRange (double (3 # 10)) (double (8 # 10)) 1].
Proof. vm_compute. repeat split. Qed.

(** *** Counting and the store *)

Lemma separated_starts_NoDup out :
  separated out -> NoDup (map (fun r => Qred (start r)) out).
Proof.
  induction out as [|r l IH]; intros H; simpl; [constructor|].
  destruct (separated_inv _ _ H) as [Hw Hl]. constructor; [|auto].
  intros Hin. apply in_map_iff in Hin. destruct Hin as (r' & Heq & Hr').
  pose proof (separated_tail _ _ H) as Ht.
  rewrite Forall_forall in Ht. specialize (Ht _ Hr').
  assert (Hq : start r' == start r).
  { rewrite <- (Qred_correct (start r')), Heq. apply Qred_correct. }
  unfold wellFormed, TOLERANCE in *. lra.
Qed.

Lemma processDetections_count ts :
  (length (processDetections ts) <= distinct ts)%nat.
Proof.
  unfold distinct.
  rewrite <- (length_map (fun r => Qred (start r)) (processDetections ts)).
  apply NoDup_incl_length.
  - apply separated_starts_NoDup, processDetections_separated.
  - intros q Hq. apply in_map_iff in Hq. destruct Hq as (r & <- & Hr).
    apply nodup_In, in_map. now apply processDetections_points in Hr.
Qed.

Lemma write_last h a b : write (h ++ [a]) (length h) b = h ++ [b].
Proof. induction h as [|x h IH]; simpl; [reflexivity|now rewrite IH]. Qed.

Lemma nth_error_last (h : Store) a : nth_error (h ++ [a]) (length h) = Some a.
Proof. induction h; simpl; auto. Qed.

(** On a store, the call returns what the pure function returns and
    leaves the array it was given as it was. *)
Lemma processDetectionsAt_spec h addr ts :
  nth_error h addr = Some ts ->
  exists h', processDetectionsAt h addr = Some (processDetections ts, h')
             /\ nth_error h' addr = Some ts.
Proof.
  intros Hts. unfold processDetectionsAt. rewrite Hts.
  destruct ts as [|t ts]; simpl length; simpl Nat.eqb; cbv iota.
  - exists h. auto.
  - unfold alloc, sortInPlace. rewrite nth_error_last, write_last, nth_error_last.
    destruct (sort_nonempty t ts) as (s0 & rest & E).
    rewrite (processDetections_groups _ _ _ E).
    change (insert t (sort ts)) with (sort (t :: ts)). rewrite E.
    exists (h ++ [s0 :: rest]). split.
    + now rewrite scan_groups.
    + rewrite nth_error_app1; [exact Hts|].
      apply nth_error_Some. congruence.
Qed.

(** C9 - For every input list, the start and the end of every returned
    range are elements of the input, so there are at most as many ranges
    as distinct input timestamps; consecutive ranges are more than 0.5 s
    apart (next start minus previous end); and the array passed in is left
    as it was, the sort working on a copy. *)
Theorem processDetections_endpoints_gaps_copy (ts : list Q) :
  (forall r, In r (processDetections ts) ->
             In (start r) ts /\ In (end_ r) ts)
  /\ (length (processDetections ts) <= distinct ts)%nat
  /\ (forall pre r1 r2 post,
         processDetections ts = pre ++ r1 :: r2 :: post ->
         TOLERANCE < start r2 - end_ r1)
  /\ (forall h addr,
         nth_error h addr = Some ts ->
         exists h', processDetectionsAt h addr = Some (processDetections ts, h')
                    /\ nth_error h' addr = Some ts).
Proof.
  repeat split.
  - now apply processDetections_points in H.
  - now apply processDetections_points in H.
  - apply processDetections_count.
  - intros pre r1 r2 post E. apply (separated_gap pre r1 r2 post).
    rewrite <- E. apply processDetections_separated.
  - intros h addr. apply processDetectionsAt_spec.
Qed.

(** *** Merging the boundary points of an output again *)

Lemma endpoints_sorted out : separated out -> Sorted Qle (endpoints out).
Proof.
  induction 1 as [|r Hw|r1 r2 l Hw Hgap Hsep IH]; simpl in *.
  - constructor.
  - repeat constructor. exact Hw.
  - apply gt_sub in Hgap. pose proof aboveHalf_gt.
    assert (wellFormed r2) by (inversion Hsep; assumption).
    unfold wellFormed, TOLERANCE in *.
    constructor; [constructor; [exact IH|]|]; constructor; lra.
Qed.

Lemma processDetections_endpoints r out :
  separated (r :: out) ->
  processDetections (endpoints (r :: out))
  = groups (start r) (start r) (end_ r :: endpoints out).
Proof.
  intros H. apply processDetections_groups.
  apply (sort_id (endpoints (r :: out))). now apply endpoints_sorted.
Qed.

Lemma groups_endpoints_narrow out : forall r,
  separated (r :: out) ->
  Forall (fun r => confidence r = 1) (r :: out) ->
  Forall (fun r => le (width r) TOLERANCE) (r :: out) ->
  groups (start r) (start r) (end_ r :: endpoints out) = r :: out.
Proof.
  induction out as [|r2 l IH]; intros r Hsep Hc Hn;
    inversion Hc as [|? ? Hc1 Hc']; inversion Hn as [|? ? Hn1 Hn']; subst;
    unfold width in Hn1; apply le_sub in Hn1; simpl;
    (gap_cases (end_ r) (start r); [lra|]).
  - destruct r; simpl in *; now subst.
  - inversion Hsep as [| |? ? ? Hw Hgap Hsep']; subst.
    apply gt_sub in Hgap.
    gap_cases (start r2) (end_ r); [|lra].
    simpl in IH. rewrite (IH r2 Hsep' Hc' Hn').
    destruct r; simpl in *; now subst.
Qed.

Lemma groups_endpoints_fixed out : forall r,
  separated (r :: out) ->
  groups (start r) (start r) (end_ r :: endpoints out) = r :: out ->
  Forall (fun r => le (width r) TOLERANCE) (r :: out).
Proof.
  induction out as [|r2 l IH]; intros r Hsep; simpl;
    (gap_cases (end_ r) (start r);
     [intros Heq; injection Heq as Heq _;
      apply (f_equal end_) in Heq; simpl in Heq; rewrite <- Heq in E;
      unfold TOLERANCE in *; lra|]).
  - intros _. repeat constructor. unfold width. apply le_sub. exact E.
  - inversion Hsep as [| |? ? ? Hw Hgap Hsep']; subst.
    apply gt_sub in Hgap.
    gap_cases (start r2) (end_ r); [|lra].
    intros Heq. injection Heq as _ Heq. constructor.
    + unfold width. apply le_sub. assumption.
    + now apply IH.
Qed.

(** C2, as amended - Merging the start and end points of an output again
    gives back the same ranges exactly when every range of that output is
    at most 0.5 s wide, the width [end - start] being computed as the
    code computes it in the gap test (rounded to the nearest double); in
    exact terms, when no range is wider than [0.5 + 2^-54]. *)
Theorem processDetections_remerge_iff (ts : list Q) :
  (processDetections (endpoints (processDetections ts)) = processDetections ts
   <-> Forall (fun r => le (width r) TOLERANCE) (processDetections ts))
  /\ (forall r, le (width r) TOLERANCE
                <-> end_ r - start r <= TOLERANCE + pow2 (-54)).
Proof.
  split; [|intros r; apply le_sub].
  pose proof (processDetections_separated ts) as Hsep.
  assert (Hc : Forall (fun r => confidence r = 1) (processDetections ts)).
  { apply Forall_forall. intros r Hr. now apply processDetections_points in Hr. }
  destruct (processDetections ts) as [|r out].
  - split; [constructor|reflexivity].
  - rewrite (processDetections_endpoints _ _ Hsep). split.
    + now apply groups_endpoints_fixed.
    + now apply groups_endpoints_narrow.
Qed.

(** C2, as stated, fails: [0, 0.4, 0.8] merges into the one range
    [{0, 0.8}], whose two end points are 0.8 s apart and merge into two
    zero-width ranges. *)
Lemma processDetections_remerge_differs :
  processDetections (map double [0; 4 # 10; 8 # 10])
  = [mkRange 0 (double (8 # 10)) 1]
  /\ processDetections
       (endpoints (processDetections (map double [0; 4 # 10; 8 # 10])))
     = [mkRange 0 0 1; mkRange (double (8 # 10)) (double (8 # 10)) 1]
  /\ ~ (forall ts,
          processDetections (endpoints (processDetections ts))
          = processDetections ts).
Proof.
  assert (E1 : processDetections (map double [0; 4 # 10; 8 # 10])
               = [mkRange 0 (double (8 # 10)) 1]) by (vm_compute; reflexivity).
  assert (E2 : processDetections
                 (endpoints (processDetections (map double [0; 4 # 10; 8 # 10])))
               = [mkRange 0 0 1; mkRange (double (8 # 10)) (double (8 # 10)) 1])
    by (vm_compute; reflexivity).
  split; [exact E1|]. split; [exact E2|].
  intros H. specialize (H (map double [0; 4 # 10; 8 # 10])).
  rewrite E2, E1 in H. discriminate.
Qed.

(** *** Order of arrival, counts and extent *)

Lemma Qgtb_Qeq x x' y y' : x == x' -> y == y' -> Qgtb x y = Qgtb x' y'.
Proof.
  intros Hx Hy. destruct (Qgtb x' y') eqn:E.
  - apply Qgtb_true in E. apply Qgtb_true. lra.
  - apply Qgtb_false in E. apply Qgtb_false. lra.
Qed.

Lemma Forall2_Qeq_refl l : Forall2 Qeq l l.
Proof. induction l; constructor; auto. reflexivity. Qed.

Lemma Forall2_Qeq_trans l1 l2 l3 :
  Forall2 Qeq l1 l2 -> Forall2 Qeq l2 l3 -> Forall2 Qeq l1 l3.
Proof.
  intros H. revert l3. induction H as [|x y l1 l2 Hxy _ IH]; intros l3 H3;
    inversion H3; subst; constructor; try lra; auto.
Qed.

Lemma insert_Qeq x l1 l2 :
  Forall2 Qeq l1 l2 -> Forall2 Qeq (insert x l1) (insert x l2).
Proof.
  induction 1 as [|y1 y2 l1 l2 Hy Hl IH]; simpl.
  - repeat constructor.
  - unfold compareFn. rewrite (Qgtb_Qeq (x - y1) (x - y2) 0 0) by lra.
    destruct (Qgtb (x - y2) 0).
    + constructor; assumption.
    + constructor; [reflexivity|]. constructor; assumption.
Qed.

(** Two insertions commute, up to the order of equal numbers. *)
Lemma insert_swap x y l :
  Forall2 Qeq (insert x (insert y l)) (insert y (insert x l)).
Proof.
  induction l as [|z l IH]; simpl; unfold compareFn.
  - gt_cases (x - y) 0; gt_cases (y - x) 0; try lra;
      repeat constructor; try lra.
  - gt_cases (y - z) 0; gt_cases (x - z) 0; simpl; unfold compareFn.
    + gt_cases (x - z) 0; gt_cases (y - z) 0; try lra.
      constructor; [reflexivity|exact IH].
    + gt_cases (x - z) 0; gt_cases (y - x) 0; try lra. simpl.
      unfold compareFn. gt_cases (y - z) 0; try lra.
      apply Forall2_Qeq_refl.
    + gt_cases (x - y) 0; gt_cases (y - z) 0; try lra. simpl.
      unfold compareFn. gt_cases (x - z) 0; try lra.
      apply Forall2_Qeq_refl.
    + gt_cases (x - y) 0; gt_cases (y - x) 0; try lra; simpl; unfold compareFn.
      * gt_cases (x - z) 0; try lra. apply Forall2_Qeq_refl.
      * gt_cases (y - z) 0; try lra. apply Forall2_Qeq_refl.
      * constructor; [lra|]. constructor; [lra|]. apply Forall2_Qeq_refl.
Qed.

Lemma sort_Permutation l l' :
  Permutation l l' -> Forall2 Qeq (sort l) (sort l').
Proof.
  induction 1 as [|x l l' _ IH|x y l|l1 l2 l3 _ IH1 _ IH2]; simpl.
  - constructor.
  - now apply insert_Qeq.
  - apply insert_swap.
  - eapply Forall2_Qeq_trans; eassumption.
Qed.

Lemma groups_Qeq rest rest' :
  Forall2 Qeq rest rest' ->
  forall s s' p p', s == s' -> p == p' ->
  Forall2 sameRange (groups s p rest) (groups s' p' rest').
Proof.
  induction 1 as [|c c' rest rest' Hc _ IH]; intros s s' p p' Hs Hp; simpl.
  - repeat constructor; simpl; auto.
  - rewrite !gap_test.
    rewrite (Qgtb_Qeq (c - p) (c' - p') aboveHalf aboveHalf) by (lra || reflexivity).
    destruct (Qgtb (c' - p') aboveHalf); auto.
    constructor; [repeat split; simpl; auto; reflexivity|auto].
Qed.

(** X1 - The order in which the timestamps arrive does not matter: any
    rearrangement of the input gives the same ranges, number for
    number. *)
Theorem processDetections_Permutation ts ts' :
  Permutation ts ts' ->
  Forall2 sameRange (processDetections ts) (processDetections ts').
Proof.
  intros HP. pose proof (sort_Permutation _ _ HP) as HS.
  destruct ts as [|t ts], ts' as [|t' ts'].
  - constructor.
  - apply Permutation_nil in HP. discriminate.
  - apply Permutation_sym, Permutation_nil in HP. discriminate.
  - destruct (sort_nonempty t ts) as (s0 & rest & E).
    destruct (sort_nonempty t' ts') as (s0' & rest' & E').
    rewrite (processDetections_groups _ _ _ E),
            (processDetections_groups _ _ _ E').
    rewrite E, E' in HS. inversion HS; subst. now apply groups_Qeq.
Qed.

Lemma processDetections_Permutation_witness :
  Forall2 sameRange
    (processDetections (map double [5; 1; 53 # 10; 12 # 10; 16 # 10]))
    (processDetections (map double [1; 12 # 10; 16 # 10; 5; 53 # 10])).
Proof.
  apply processDetections_Permutation. apply Permutation_map.
  apply (Permutation_trans (perm_swap 1 5 _)). constructor.
  apply (Permutation_trans (perm_skip 5 (perm_swap (12 # 10) (53 # 10) _))).
  apply (Permutation_trans (perm_swap _ _ _)). constructor.
  apply (Permutation_trans (perm_skip 5 (perm_swap _ _ _))).
  apply perm_swap.
Defined.

(** X3 - Timestamps that lie pairwise within the tolerance merge into a single
    range, from the earliest to the latest of them. *)
Theorem processDetections_single_range ts :
  ts <> [] ->
  (forall a b, In a ts -> In b ts -> b - a <= TOLERANCE) ->
  exists lo hi,
    processDetections ts = [mkRange lo hi 1]
    /\ In lo ts /\ In hi ts
    /\ forall t, In t ts -> lo <= t /\ t <= hi.
Proof.
  intros Hne Hclose.
  pose proof (processDetections_separated ts) as Hsep.
  pose proof (processDetections_points ts) as Hpts.
  pose proof (processDetections_cover ts) as Hcov.
  destruct (processDetections ts) as [|r [|r2 out]].
  - destruct ts as [|t ts]; [contradiction|].
    destruct (Hcov t (or_introl eq_refl)) as (r & [] & _).
  - destruct (Hpts r (or_introl eq_refl)) as (Hs & He & Hc).
    exists (start r), (end_ r). repeat split; auto.
    + destruct r; simpl in *. now subst.
    + destruct (Hcov t H) as (r' & [<-|[]] & Hw). apply Hw.
    + destruct (Hcov t H) as (r' & [<-|[]] & Hw). apply Hw.
  - exfalso. inversion Hsep as [| |? ? ? _ Hgap _]; subst.
    apply gt_sub in Hgap. pose proof aboveHalf_gt.
    destruct (Hpts r (or_introl eq_refl)) as (_ & He & _).
    destruct (Hpts r2 (or_intror (or_introl eq_refl))) as (Hs & _ & _).
    specialize (Hclose _ _ He Hs). lra.
Qed.

Lemma close_points a b :
  In a (map double [3; 32 # 10; 34 # 10]) ->
  In b (map double [3; 32 # 10; 34 # 10]) ->
  b - a <= TOLERANCE.
Proof.
  intros [<-|[<-|[<-|[]]]] [<-|[<-|[<-|[]]]]; vm_compute; discriminate.
Defined.

Lemma processDetections_single_range_witness :
  exists lo hi,
    processDetections (map double [3; 32 # 10; 34 # 10]) = [mkRange lo hi 1]
    /\ In lo (map double [3; 32 # 10; 34 # 10])
    /\ In hi (map double [3; 32 # 10; 34 # 10])
    /\ forall t, In t (map double [3; 32 # 10; 34 # 10]) -> lo <= t /\ t <= hi.
Proof.
  exact (processDetections_single_range (map double [3; 32 # 10; 34 # 10])
           ltac:(discriminate) close_points).
Defined.

Lemma separated_first_last r out d :
  separated (r :: out) ->
  forall r', In r' (r :: out) ->
    start r <= start r' /\ end_ r' <= end_ (last (r :: out) d).
Proof.
  revert r. induction out as [|r2 out IH]; intros r Hsep r' Hin.
  - destruct Hin as [<-|[]]. simpl. split; lra.
  - destruct (separated_inv _ _ Hsep) as [Hw Hsep2].
    pose proof (separated_inv _ _ Hsep2) as [Hw2 _].
    assert (Hgap : TOLERANCE < start r2 - end_ r).
    { inversion Hsep as [| |? ? ? _ Hgap _]; subst.
      apply gt_sub in Hgap. pose proof aboveHalf_gt. lra. }
    change (last (r :: r2 :: out) d) with (last (r2 :: out) d).
    unfold wellFormed, TOLERANCE in *.
    destruct Hin as [<-|Hin].
    + destruct (IH r2 Hsep2 r2 (or_introl eq_refl)) as [_ H2]. split; lra.
    + destruct (IH r2 Hsep2 r' Hin) as [H1 H2]. split; lra.
Qed.

(** X4 - The ranges extend exactly over the input: the first range starts at
    the earliest timestamp and the last range ends at the latest one. *)
Theorem processDetections_extent ts d :
  ts <> [] ->
  exists first out,
    processDetections ts = first :: out
    /\ In (start first) ts
    /\ In (end_ (last (first :: out) d)) ts
    /\ forall t, In t ts ->
         start first <= t /\ t <= end_ (last (first :: out) d).
Proof.
  intros Hne.
  pose proof (processDetections_separated ts) as Hsep.
  pose proof (processDetections_points ts) as Hpts.
  pose proof (processDetections_cover ts) as Hcov.
  destruct (processDetections ts) as [|first out].
  - destruct ts as [|t ts]; [contradiction|].
    destruct (Hcov t (or_introl eq_refl)) as (r & [] & _).
  - assert (Hl : In (last (first :: out) d) (first :: out)).
    { destruct (@exists_last _ (first :: out)) as (l' & a & E);
        [discriminate|].
      rewrite E, last_last. apply in_or_app. right. now left. }
    destruct (Hpts first (or_introl eq_refl)) as (Hs & _ & _).
    destruct (Hpts _ Hl) as (_ & He & _).
    exists first, out. repeat split; auto;
      destruct (Hcov t H) as (r & Hr & Hw);
      destruct (separated_first_last first out d Hsep r Hr) as [H1 H2];
      unfold within in Hw; lra.
Qed.

Lemma processDetections_extent_witness :
  exists first out,
    processDetections (map double [5; 1; 53 # 10; 12 # 10]) = first :: out
    /\ In (start first) (map double [5; 1; 53 # 10; 12 # 10])
    /\ In (end_ (last (first :: out) (mkRange 0 0 0)))
          (map double [5; 1; 53 # 10; 12 # 10])
    /\ forall t, In t (map double [5; 1; 53 # 10; 12 # 10]) ->
         start first <= t
         /\ t <= end_ (last (first :: out) (mkRange 0 0 0)).
Proof.
  exact (processDetections_extent (map double [5; 1; 53 # 10; 12 # 10])
           (mkRange 0 0 0) ltac:(discriminate)).
Defined.

End RangeMergerFacts.

(** * Properties of the detection orchestrator *)

Module VisionEngineFacts.
Import Float64.
Import Float64Facts.
Import RangeMerger VisionEngine.

(** *** Updating a list at an index *)

Lemma length_update {A} n (f : A -> A) l : length (update n f l) = length l.
Proof.
  unfold update. destruct (nth_error l n) eqn:E; [|reflexivity].
  assert (n < length l)%nat by (apply nth_error_Some; congruence).
  rewrite length_app, length_firstn. cbn [length]. rewrite length_skipn. lia.
Qed.

Lemma nth_error_update_same {A} n (f : A -> A) l :
  nth_error (update n f l) n = option_map f (nth_error l n).
Proof.
  unfold update. destruct (nth_error l n) eqn:E; simpl; [|exact E].
  assert (n < length l)%nat by (apply nth_error_Some; congruence).
  rewrite nth_error_app2; rewrite length_firstn; [|lia].
  replace (n - Nat.min n (length l))%nat with 0%nat by lia. reflexivity.
Qed.

Lemma nth_error_update_other {A} n m (f : A -> A) l :
  n <> m -> nth_error (update n f l) m = nth_error l m.
Proof.
  intros Hnm. unfold update. destruct (nth_error l n) eqn:E; [|reflexivity].
  assert (Hn : (n < length l)%nat) by (apply nth_error_Some; congruence).
  destruct (Nat.lt_ge_cases m n) as [Hlt|Hge].
  - rewrite nth_error_app1 by (rewrite length_firstn; lia).
    rewrite nth_error_firstn. apply Nat.ltb_lt in Hlt. now rewrite Hlt.
  - rewrite nth_error_app2 by (rewrite length_firstn; lia).
    rewrite length_firstn.
    replace (m - Nat.min n (length l))%nat with (S (m - S n)) by lia.
    cbn [nth_error]. rewrite nth_error_skipn. f_equal. lia.
Qed.

Lemma map_update {A B} (g : A -> B) n (f : A -> A) l :
  (forall x, g (f x) = g x) -> map g (update n f l) = map g l.
Proof.
  intros Hf. unfold update. destruct (nth_error l n) eqn:E; [|reflexivity].
  rewrite map_app. simpl. rewrite Hf.
  rewrite <- (firstn_skipn n l) at 3. rewrite map_app. f_equal.
  assert (Hs : skipn n l = a :: skipn (S n) l).
  { clear Hf. revert l E. induction n; destruct l; simpl; intros; try discriminate.
    - now injection E as ->. - now apply IHn. }
  now rewrite Hs.
Qed.

(** *** Steps that leave the control state alone *)

Lemma sameControl_refl e : sameControl e e.
Proof. repeat split. Qed.

Lemma sameControl_trans e1 e2 e3 :
  sameControl e1 e2 -> sameControl e2 e3 -> sameControl e1 e3.
Proof.
  intros (A1 & B1 & C1) (A2 & B2 & C2). repeat split; congruence.
Qed.

Lemma signalAborted_flags r e :
  signalAborted r e
  = match nth_error (map flags (runs e)) r with
    | Some p => fst p
    | None => true
    end.
Proof.
  unfold signalAborted. rewrite nth_error_map.
  now destruct (nth_error (runs e) r).
Qed.

Lemma workerAlive_flags r e :
  workerAlive r e
  = match nth_error (map flags (runs e)) r with
    | Some p => negb (snd p)
    | None => false
    end.
Proof.
  unfold workerAlive. rewrite nth_error_map.
  now destruct (nth_error (runs e) r).
Qed.

Lemma sameControl_signalAborted e e' r :
  sameControl e e' -> signalAborted r e' = signalAborted r e.
Proof. intros (H & _). now rewrite !signalAborted_flags, H. Qed.

Lemma sameControl_workerAlive e e' r :
  sameControl e e' -> workerAlive r e' = workerAlive r e.
Proof. intros (H & _). now rewrite !workerAlive_flags, H. Qed.

Lemma sameControl_length e e' :
  sameControl e e' -> length (runs e') = length (runs e).
Proof.
  intros (H & _). apply (f_equal (@length _)) in H.
  now rewrite !length_map in H.
Qed.

Lemma sameControl_consistent e e' :
  sameControl e e' -> consistent e -> consistent e'.
Proof.
  intros Hs (C1 & C2 & C3 & C4 & C5).
  pose proof (sameControl_length _ _ Hs) as Hl.
  pose proof (fun r => sameControl_signalAborted _ _ r Hs) as Hsa.
  pose proof (fun r => sameControl_workerAlive _ _ r Hs) as Hwa.
  destruct Hs as (_ & Hw & Ha).
  unfold consistent, latest in *. rewrite Hl, Hw, Ha.
  repeat split; auto; intros; rewrite ?Hsa, ?Hwa in *; auto.
Qed.

Lemma same_withState e e1 f : sameControl e e1 -> sameControl e (withState f e1).
Proof. exact (fun H => H). Qed.

Lemma same_withRaw e e1 l : sameControl e e1 -> sameControl e (withRaw l e1).
Proof. exact (fun H => H). Qed.

Lemma same_withSessions e e1 f :
  sameControl e e1 -> sameControl e (withSessions f e1).
Proof. exact (fun H => H). Qed.

Lemma same_withVideo e e1 f : sameControl e e1 -> sameControl e (withVideo f e1).
Proof. exact (fun H => H). Qed.

Lemma same_log e e1 l : sameControl e e1 -> sameControl e (log l e1).
Proof. exact (fun H => H). Qed.

Lemma same_report e e1 p : sameControl e e1 -> sameControl e (report p e1).
Proof. exact (fun H => H). Qed.

Lemma same_unhandledRejection e e1 :
  sameControl e e1 -> sameControl e (unhandledRejection e1).
Proof. exact (fun H => H). Qed.

Lemma same_update e e1 r f :
  (forall x, flags (f x) = flags x) ->
  sameControl e e1 -> sameControl e (withRuns (update r f) e1).
Proof.
  intros Hf (A & B & C). repeat split; auto. simpl.
  now rewrite map_update.
Qed.

Lemma same_postMessage e e1 r m :
  sameControl e e1 -> sameControl e (postMessage r m e1).
Proof.
  apply same_update. intros x. unfold flags.
  destruct (terminated x) eqn:E; simpl; now rewrite ?E.
Qed.

Create HintDb control.
#[local] Hint Resolve sameControl_refl same_withState same_withRaw
  same_withSessions same_withVideo same_log same_report
  same_unhandledRejection same_postMessage : control.

(** Splits the tests of a handler and closes each branch from the
    hints. *)
Ltac branches :=
  repeat match goal with
         | |- context [match ?x with _ => _ end] => destruct x eqn:?
         | |- context [if ?x then _ else _] => destruct x eqn:?
         end.

Lemma same_startCalibration e r : sameControl e (startCalibration r e).
Proof.
  unfold startCalibration. branches; auto with control.
  apply same_update; auto with control.
Qed.

Lemma same_startVideoProcessing e e1 r :
  sameControl e e1 -> sameControl e (startVideoProcessing r e1).
Proof.
  intros H. unfold startVideoProcessing. branches; auto with control.
Qed.

Lemma same_onmessage e r m : sameControl e (onmessage r m e).
Proof.
  destruct m; simpl; auto using same_startCalibration,
    same_startVideoProcessing with control.
  branches; auto with control.
Qed.

Lemma same_resumeCalibration e r loaded :
  sameControl e (resumeCalibration r loaded e).
Proof.
  unfold resumeCalibration. branches; auto 6 with control;
    try apply same_postMessage; try apply same_withState; try apply same_log;
    apply same_update; auto with control.
Qed.

Lemma same_loadeddata e : sameControl e (loadeddata e).
Proof. unfold loadeddata. branches; auto with control. Qed.

Lemma same_videoError e : sameControl e (videoError e).
Proof. unfold videoError. branches; auto with control. Qed.

Lemma same_loop e k t d x n : sameControl e (loop k t d x n e).
Proof. unfold loop. branches; auto 8 with control. Qed.

(** *** Aborting, terminating and starting *)

Lemma signalAborted_abort r c e :
  signalAborted r (abort c e) = (r =? c)%nat || signalAborted r e.
Proof.
  unfold signalAborted, abort. simpl. destruct (Nat.eqb_spec r c) as [->|Hne].
  - rewrite nth_error_update_same. now destruct (nth_error (runs e) c).
  - now rewrite nth_error_update_other by congruence.
Qed.

Lemma workerAlive_abort r c e : workerAlive r (abort c e) = workerAlive r e.
Proof.
  unfold workerAlive, abort. simpl. destruct (Nat.eq_dec c r) as [->|Hne].
  - rewrite nth_error_update_same. now destruct (nth_error (runs e) r).
  - now rewrite nth_error_update_other.
Qed.

Lemma signalAborted_terminate r w e :
  signalAborted r (terminate w e) = signalAborted r e.
Proof.
  unfold signalAborted, terminate. simpl. destruct (Nat.eq_dec w r) as [->|Hne].
  - rewrite nth_error_update_same. now destruct (nth_error (runs e) r).
  - now rewrite nth_error_update_other.
Qed.

Lemma workerAlive_terminate r w e :
  workerAlive r (terminate w e) = negb (r =? w)%nat && workerAlive r e.
Proof.
  unfold workerAlive, terminate. simpl. destruct (Nat.eqb_spec r w) as [->|Hne].
  - rewrite nth_error_update_same. now destruct (nth_error (runs e) w).
  - now rewrite nth_error_update_other by congruence.
Qed.

Lemma length_abort c e : length (runs (abort c e)) = length (runs e).
Proof. apply length_update. Qed.

Lemma length_terminate w e : length (runs (terminate w e)) = length (runs e).
Proof. apply length_update. Qed.

Lemma signalAborted_out r e :
  (length (runs e) <= r)%nat -> signalAborted r e = true.
Proof.
  intros H. unfold signalAborted. apply nth_error_None in H. now rewrite H.
Qed.

Lemma workerAlive_out r e :
  (length (runs e) <= r)%nat -> workerAlive r e = false.
Proof.
  intros H. unfold workerAlive. apply nth_error_None in H. now rewrite H.
Qed.

Lemma signalAborted_in r e :
  signalAborted r e = false -> (r < length (runs e))%nat.
Proof.
  intros H. destruct (Nat.lt_ge_cases r (length (runs e))); [assumption|].
  rewrite signalAborted_out in H by assumption. discriminate.
Qed.

(** A run that is not aborted is the latest one. *)
Lemma consistent_active e r :
  consistent e -> signalAborted r e = false -> S r = length (runs e).
Proof.
  intros (_ & _ & C3 & _) H. pose proof (signalAborted_in _ _ H).
  destruct (Nat.lt_ge_cases (S r) (length (runs e))) as [Hlt|]; [|lia].
  rewrite (C3 _ Hlt) in H. discriminate.
Qed.

(** A live worker is the latest run's. *)
Lemma consistent_alive e r :
  consistent e -> workerAlive r e = true ->
  S r = length (runs e) /\ signalAborted r e = false.
Proof.
  intros C H. assert (Ha : signalAborted r e = false) by now apply C.
  split; [now apply consistent_active|exact Ha].
Qed.

Lemma signalAborted_push r x e :
  signalAborted r (withRuns (fun l => l ++ [x]) e)
  = if (r <? length (runs e))%nat then signalAborted r e
    else if (r =? length (runs e))%nat then aborted x else true.
Proof.
  unfold signalAborted. simpl. destruct (Nat.ltb_spec r (length (runs e))).
  - now rewrite nth_error_app1.
  - rewrite nth_error_app2 by assumption.
    destruct (Nat.eqb_spec r (length (runs e))) as [->|Hne].
    + now rewrite Nat.sub_diag.
    + destruct (r - length (runs e))%nat as [|[|n]] eqn:E; simpl; auto. lia.
Qed.

Lemma workerAlive_push r x e :
  workerAlive r (withRuns (fun l => l ++ [x]) e)
  = if (r <? length (runs e))%nat then workerAlive r e
    else if (r =? length (runs e))%nat then negb (terminated x) else false.
Proof.
  unfold workerAlive. simpl. destruct (Nat.ltb_spec r (length (runs e))).
  - now rewrite nth_error_app1.
  - rewrite nth_error_app2 by assumption.
    destruct (Nat.eqb_spec r (length (runs e))) as [->|Hne].
    + now rewrite Nat.sub_diag.
    + destruct (r - length (runs e))%nat as [|[|n]] eqn:E; simpl; auto. lia.
Qed.

Lemma signalAborted_postMessage r w m e :
  signalAborted r (postMessage w m e) = signalAborted r e.
Proof. apply sameControl_signalAborted. auto with control. Qed.

Lemma workerAlive_postMessage r w m e :
  workerAlive r (postMessage w m e) = workerAlive r e.
Proof. apply sameControl_workerAlive. auto with control. Qed.

Lemma length_postMessage w m e :
  length (runs (postMessage w m e)) = length (runs e).
Proof. apply length_update. Qed.

Lemma length_push x e :
  length (runs (withRuns (fun l => l ++ [x]) e)) = S (length (runs e)).
Proof. simpl. rewrite length_app. simpl. lia. Qed.

(** What a start does to the flags: it adds a fresh run, aborts the run
    of the current controller and terminates the worker in [workerRef]. *)
Lemma processVideo_control e :
  length (runs (processVideo e)) = S (length (runs e))
  /\ abortControllerRef (processVideo e) = Some (length (runs e))
  /\ workerRef (processVideo e) = Some (length (runs e))
  /\ (forall r,
        signalAborted r (processVideo e)
        = if (r <? length (runs e))%nat
          then match abortControllerRef e with
               | Some c => (r =? c)%nat
               | None => false
               end || signalAborted r e
          else negb (r =? length (runs e))%nat)
  /\ (forall r,
        workerAlive r (processVideo e)
        = match workerRef e with
          | Some w => negb (r =? w)%nat
          | None => true
          end
          && if (r <? length (runs e))%nat then workerAlive r e
             else (r =? length (runs e))%nat).
Proof.
  unfold processVideo.
  cbn [abortControllerRef workerRef runs withRaw report withState].
  destruct (abortControllerRef e) as [c|];
    destruct (workerRef e) as [w|] eqn:Ew;
    cbn [abortControllerRef workerRef runs withRaw report withState
         withAbortController withRuns abort];
    rewrite Ew;
    cbn [abortControllerRef workerRef runs withRaw report withState
         withAbortController withRuns abort terminate postMessage withWorker];
    rewrite ?length_update, ?length_app, ?length_update; cbn [length];
    (split; [lia|]); (split; [f_equal; lia|]); (split; [f_equal; lia|]);
    split; intros r.
  all: rewrite ?signalAborted_postMessage, ?workerAlive_postMessage.
  all: change (signalAborted r (withWorker ?a ?b)) with (signalAborted r b) ||
       change (workerAlive r (withWorker ?a ?b)) with (workerAlive r b).
  all: rewrite ?signalAborted_terminate, ?workerAlive_terminate.
  all: change (signalAborted r (withAbortController ?a ?b))
         with (signalAborted r b) ||
       change (workerAlive r (withAbortController ?a ?b))
         with (workerAlive r b).
  all: rewrite ?signalAborted_push, ?workerAlive_push, ?length_abort.
  all: rewrite ?signalAborted_abort, ?workerAlive_abort.
  all: cbn [runs withRaw report withState aborted terminated negb].
  all: destruct (Nat.ltb_spec r (length (runs e)));
       destruct (Nat.eqb_spec r (length (runs e))); try lia; try reflexivity.
  all: try (destruct (Nat.eqb_spec r w); try lia; reflexivity).
Qed.

(** *** Every reachable state is consistent *)

Lemma consistent_mounted ctx : consistent (mounted ctx).
Proof.
  assert (Hd : forall r, workerAlive r (mounted ctx) = false)
    by (intros [|r]; reflexivity).
  unfold consistent. simpl. repeat split; try discriminate; try lia;
    intros; rewrite ?Hd in *; try discriminate; auto; try lia.
Qed.

Lemma consistent_processVideo e : consistent e -> consistent (processVideo e).
Proof.
  intros C. pose proof C as (C1 & C2 & C3 & C4 & C5).
  destruct (processVideo_control e) as (Hl & Ha & Hw & Hs & Hv).
  unfold consistent, latest. rewrite Hl, Ha, Hw.
  split; [reflexivity|]. split; [|split; [|split; [discriminate|]]].
  - intros r. rewrite Hs, Hv.
    destruct (Nat.ltb_spec r (length (runs e))) as [Hlt|Hge].
    + intros Halive. apply andb_prop in Halive as [Hnw Halive].
      destruct (consistent_alive _ _ C Halive) as [Hlast _].
      destruct (workerRef e) as [w|] eqn:Ew.
      * specialize (C5 _ eq_refl). unfold latest in C5.
        rewrite <- Hlast in C5. injection C5 as ->.
        now rewrite Nat.eqb_refl in Hnw.
      * now rewrite (C4 eq_refl r) in Halive.
    + intros Halive. apply andb_prop in Halive as [_ ->]. reflexivity.
  - intros r Hr. rewrite Hs.
    assert (Hlt : (r < length (runs e))%nat) by lia.
    apply Nat.ltb_lt in Hlt. rewrite Hlt. apply Nat.ltb_lt in Hlt.
    destruct (Nat.lt_ge_cases (S r) (length (runs e))) as [Hold|Hlast].
    + rewrite (C3 _ Hold). apply orb_true_r.
    + rewrite C1. unfold latest.
      destruct (length (runs e)) as [|n] eqn:En; [lia|].
      assert (r = n) as -> by lia. now rewrite Nat.eqb_refl.
  - intros w Ew. now symmetry.
Qed.

Lemma consistent_finish r e : consistent e -> consistent (finish r e).
Proof.
  intros C. unfold finish. destruct (signalAborted r e) eqn:Ea; [exact C|].
  pose proof (consistent_active _ _ C Ea) as Hlast.
  destruct C as (C1 & C2 & C3 & C4 & C5).
  unfold consistent, latest.
  cbn [abortControllerRef workerRef runs withWorker terminate withRuns report
       withState].
  rewrite length_update. fold (latest e).
  split; [exact C1|]. split; [|split; [|split; [|discriminate]]].
  - intros r'.
    change (workerAlive r' (terminate r e) = true ->
            signalAborted r' (terminate r e) = false).
    rewrite workerAlive_terminate, signalAborted_terminate.
    intros H. apply andb_prop in H as [_ H]. auto.
  - intros r'.
    change ((S r' < length (runs e))%nat ->
            signalAborted r' (terminate r e) = true).
    rewrite signalAborted_terminate. auto.
  - intros _ r'. change (workerAlive r' (terminate r e) = false).
    rewrite workerAlive_terminate.
    destruct (Nat.eqb_spec r' r) as [->|Hne]; [reflexivity|]. simpl.
    destruct (workerAlive r' e) eqn:Hal; [|reflexivity].
    assert (S r' = length (runs e)); [|lia].
    apply consistent_active; [repeat split; assumption|auto].
Qed.

Lemma consistent_videoEnded e : consistent e -> consistent (videoEnded e).
Proof.
  intros C. unfold videoEnded. branches; auto.
  apply consistent_finish.
  eapply sameControl_consistent; [|exact C]. auto with control.
Qed.

(** Terminating the worker in [workerRef] leaves no worker alive. *)
Lemma terminate_current e :
  consistent e ->
  forall e2,
    e2 = match workerRef e with Some w => terminate w e | None => e end ->
    (forall r, workerAlive r e2 = false)
    /\ (forall r, signalAborted r e2 = signalAborted r e)
    /\ length (runs e2) = length (runs e)
    /\ abortControllerRef e2 = abortControllerRef e
    /\ workerRef e2 = workerRef e.
Proof.
  intros C e2 ->. pose proof C as (C1 & C2 & C3 & C4 & C5).
  destruct (workerRef e) as [w|] eqn:Ew.
  - repeat split; try apply length_update; try exact Ew; intros r.
    + rewrite workerAlive_terminate.
      destruct (Nat.eqb_spec r w) as [->|Hne]; [reflexivity|]. simpl.
      destruct (workerAlive r e) eqn:Hal; [|reflexivity].
      destruct (consistent_alive _ _ C Hal) as [Hl _].
      specialize (C5 _ eq_refl). unfold latest in C5. rewrite <- Hl in C5.
      congruence.
    + apply signalAborted_terminate.
  - repeat split; auto.
Qed.

Lemma consistent_unmount e : consistent e -> consistent (unmount e).
Proof.
  intros C. unfold unmount.
  set (e1 := withVideo _ e).
  assert (C' : consistent e1).
  { eapply sameControl_consistent; [|exact C]. subst e1. auto with control. }
  clearbody e1. clear C e.
  destruct (terminate_current e1 C' _ eq_refl) as (Hdead & Hs & Hl & Ha & Hw).
  set (e2 := match workerRef e1 with Some w => terminate w e1 | None => e1 end)
    in *.
  clearbody e2. destruct C' as (C1 & C2 & C3 & C4 & C5).
  destruct (abortControllerRef e2) as [c|] eqn:Ec.
  - unfold consistent, latest.
    change (abortControllerRef (abort c e2)) with (abortControllerRef e2).
    change (workerRef (abort c e2)) with (workerRef e2).
    rewrite length_abort, Hl, Ec, Hw. fold (latest e1).
    split; [congruence|]. repeat split.
    + intros r. rewrite workerAlive_abort, Hdead. discriminate.
    + intros r Hr. rewrite signalAborted_abort, Hs, (C3 _ Hr).
      apply orb_true_r.
    + intros _ r. now rewrite workerAlive_abort.
    + exact C5.
  - unfold consistent, latest. rewrite Hl, Ec, Hw. fold (latest e1).
    split; [congruence|]. repeat split.
    + intros r. rewrite Hdead. discriminate.
    + intros r Hr. rewrite Hs. auto.
    + auto.
    + exact C5.
Qed.

Lemma consistent_step e ev : consistent e -> consistent (step e ev).
Proof.
  intros C. destruct ev as [|r m| | | | | |]; simpl.
  - now apply consistent_processVideo.
  - destruct (workerAlive r e); [|exact C].
    eapply sameControl_consistent; [apply same_onmessage|exact C].
  - eapply sameControl_consistent; [apply same_resumeCalibration|exact C].
  - eapply sameControl_consistent; [apply same_loadeddata|exact C].
  - eapply sameControl_consistent; [apply same_videoError|exact C].
  - now apply consistent_videoEnded.
  - eapply sameControl_consistent; [apply same_loop|exact C].
  - now apply consistent_unmount.
Qed.

Lemma run_app e t1 t2 : run e (t1 ++ t2) = run (run e t1) t2.
Proof. apply fold_left_app. Qed.

Lemma consistent_run t : forall e, consistent e -> consistent (run e t).
Proof.
  induction t as [|ev t IH]; intros e C; simpl; [exact C|].
  apply IH. now apply consistent_step.
Qed.

(** *** What a step may do to the buffer, the ranges and the status *)

Ltac handlers :=
  unfold onmessage, startCalibration, startVideoProcessing, resumeCalibration,
    loadeddata, videoError, videoEnded, finish, loop, unmount,
    postMessage, terminate, abort.

(** The buffer changes only when a live worker reports a detection (or a
    run starts). *)
Lemma step_raw e ev :
  isStart ev = false ->
  rawDetectionsRef (step e ev) = rawDetectionsRef e
  \/ exists r t,
       ev = Message r (FRAME_RESULT true t)
       /\ workerAlive r e = true
       /\ rawDetectionsRef (step e ev) = rawDetectionsRef e ++ [t].
Proof.
  intros Hs. destruct ev as [|r m|r l| | | |k t d x n|]; try discriminate.
  - simpl. destruct (workerAlive r e) eqn:Hal; [|now left].
    destruct m as [| | |[|] t|]; try (left; handlers; branches; reflexivity).
    right. exists r, t. auto.
  - left. simpl. handlers. branches; reflexivity.
  - left. simpl. handlers. branches; reflexivity.
  - left. simpl. handlers. branches; reflexivity.
  - left. simpl. handlers. branches; reflexivity.
  - left. simpl. handlers. branches; reflexivity.
  - left. simpl. handlers. branches; reflexivity.
Qed.

(** The ranges change only when a run that is not aborted finishes; they
    are then the merge of the buffer. *)
Lemma step_detections e ev :
  isStart ev = false ->
  detections (state (step e ev)) = detections (state e)
  \/ detections (state (step e ev)) = processDetections (rawDetectionsRef e).
Proof.
  intros Hs. destruct ev as [|r m|r l| | | |k t d x n|]; try discriminate;
    simpl; try (destruct (workerAlive r e); [destruct m|]);
    handlers; branches; auto.
Qed.

(** Only a failed reference image turns the status into [error]. *)
Lemma step_status_error e ev :
  isImageSettled ev = false ->
  status (state e) <> error -> status (state (step e ev)) <> error.
Proof.
  intros Hs He. destruct ev as [|r m|r l| | | |k t d x n|]; try discriminate;
    simpl; try (destruct (workerAlive r e); [destruct m|]);
    handlers; branches; simpl; auto; discriminate.
Qed.

Lemma step_length e ev :
  isStart ev = false -> length (runs (step e ev)) = length (runs e).
Proof.
  intros Hs. destruct ev as [|r m|r l| | | |k t d x n|]; try discriminate;
    simpl.
  - destruct (workerAlive r e); [|reflexivity].
    apply sameControl_length, same_onmessage.
  - apply sameControl_length, same_resumeCalibration.
  - apply sameControl_length, same_loadeddata.
  - apply sameControl_length, same_videoError.
  - handlers. branches; simpl; rewrite ?length_update; reflexivity.
  - apply sameControl_length, same_loop.
  - handlers. branches; simpl; rewrite ?length_update; reflexivity.
Qed.

(** No step but a start brings a worker to life. *)
Lemma step_alive e ev r :
  isStart ev = false ->
  workerAlive r (step e ev) = true -> workerAlive r e = true.
Proof.
  intros Hs. destruct ev as [|r' m|r' l| | | |k t d x n|]; try discriminate;
    simpl.
  - destruct (workerAlive r' e); [|auto].
    now rewrite (sameControl_workerAlive _ _ r (same_onmessage e r' m)).
  - now rewrite (sameControl_workerAlive _ _ r (same_resumeCalibration e r' l)).
  - now rewrite (sameControl_workerAlive _ _ r (same_loadeddata e)).
  - now rewrite (sameControl_workerAlive _ _ r (same_videoError e)).
  - unfold videoEnded, finish. branches; auto.
    change (workerAlive r (terminate (owner s) e) = true -> workerAlive r e = true).
    rewrite workerAlive_terminate. intros H. now apply andb_prop in H.
  - now rewrite (sameControl_workerAlive _ _ r (same_loop e k t d x n)).
  - unfold unmount. branches;
      rewrite ?workerAlive_abort, ?workerAlive_terminate;
      change (workerAlive r (withVideo ?f e)) with (workerAlive r e);
      auto; intros H; now apply andb_prop in H.
Qed.

(** *** Supersession *)

Lemma frameResults_app r t1 t2 :
  frameResults r (t1 ++ t2) = frameResults r t1 ++ frameResults r t2.
Proof.
  induction t1 as [|ev t1 IH]; simpl; [reflexivity|].
  destruct ev as [|r' m| | | | | |]; auto.
  destruct m as [| | |[|] t|]; auto.
  destruct (r' =? r)%nat; simpl; now rewrite IH.
Qed.

Lemma processVideo_data e :
  rawDetectionsRef (processVideo e) = []
  /\ state (processVideo e) = mkVisionState true 0 initializing []
  /\ progressReports (processVideo e) = progressReports e ++ [Finite 0].
Proof.
  unfold processVideo.
  cbn [abortControllerRef workerRef runs withRaw report withState].
  destruct (abortControllerRef e) as [c|];
    destruct (workerRef e) as [w|] eqn:Ew;
    cbn [abortControllerRef workerRef runs withRaw report withState
         withAbortController withRuns abort];
    rewrite Ew; auto.
Qed.

Lemma ownResults_start e :
  consistent e -> ownResults (length (runs e)) [] (processVideo e).
Proof.
  intros C. destruct (processVideo_control e) as (Hl & _).
  destruct (processVideo_data e) as (Hraw & Hst & _).
  split; [now apply consistent_processVideo|].
  split; [exact Hl|]. split; [|left; now rewrite Hst].
  exists [], []. rewrite Hraw. repeat split.
Qed.

Lemma ownResults_step r t2 e ev :
  isStart ev = false ->
  ownResults r t2 e -> ownResults r (t2 ++ [ev]) (step e ev).
Proof.
  intros Hs (C & Hl & (p & q & Ht & Hraw & Hq) & Hdet).
  split; [now apply consistent_step|].
  split; [now rewrite step_length|].
  split.
  - destruct (step_raw e ev Hs) as [Hsame|(r' & t & -> & Hal & Hpush)].
    + rewrite Hsame. destruct (workerAlive r (step e ev)) eqn:Hal'.
      * apply (step_alive _ _ _ Hs) in Hal'. specialize (Hq Hal'). subst q.
        rewrite app_nil_r in Ht. subst p.
        exists (t2 ++ [ev]), []. rewrite app_nil_r, frameResults_app.
        repeat split; auto.
        assert (Hnone : frameResults r [ev] = []); [|now rewrite Hnone, app_nil_r].
        destruct ev as [|r' m| | | | | |]; auto.
        destruct m as [| | |[|] t|]; auto. simpl.
        destruct (Nat.eqb_spec r' r) as [->|]; [|reflexivity].
        (* a detection the live worker reports does reach the buffer *)
        exfalso. revert Hsame. simpl. rewrite Hal'. simpl.
        intros Hsame. apply (f_equal (@length _)) in Hsame.
        rewrite length_app in Hsame. simpl in Hsame. lia.
      * exists p, (q ++ [ev]). rewrite Ht, app_assoc.
        repeat split; auto. discriminate.
    + destruct (consistent_alive _ _ C Hal) as [Hlast _].
      assert (r' = r) as -> by lia. specialize (Hq Hal). subst q.
      rewrite app_nil_r in Ht. subst p.
      exists (t2 ++ [Message r (FRAME_RESULT true t)]), [].
      rewrite app_nil_r, frameResults_app, Hpush, Hraw. simpl.
      rewrite Nat.eqb_refl. auto.
  - destruct (step_detections e ev Hs) as [-> | ->].
    + destruct Hdet as [Hd|(p' & q' & Ht' & Hd)]; [now left|right].
      exists p', (q' ++ [ev]). rewrite Ht', app_assoc. auto.
    + right. exists p, (q ++ [ev]). rewrite Ht, app_assoc, Hraw. auto.
Qed.

Lemma ownResults_run r t : forall t2 e,
  forallb (fun ev => negb (isStart ev)) t = true ->
  ownResults r t2 e -> ownResults r (t2 ++ t) (run e t).
Proof.
  induction t as [|ev t IH]; intros t2 e Hns H; simpl.
  - now rewrite app_nil_r.
  - simpl in Hns. apply andb_prop in Hns as [Hev Hns].
    apply negb_true_iff in Hev.
    replace (t2 ++ ev :: t) with ((t2 ++ [ev]) ++ t)
      by (rewrite <- app_assoc; reflexivity).
    apply IH; [exact Hns|]. now apply ownResults_step.
Qed.

(** C1 - When [processVideo] is called, whatever happened before ([t1],
    a run in progress included), and whatever the browser delivers
    afterwards ([t2], with no further start): the new run's buffer and its
    final [detections] hold only timestamps that the new run's own worker
    reported after the start.  No [FRAME_RESULT] of a stale worker and no
    completion of a stale run adds to them. *)
Theorem superseded_run_contributes_nothing ctx t1 t2 :
  forallb (fun ev => negb (isStart ev)) t2 = true ->
  let e1 := run (mounted ctx) t1 in
  let r := length (runs e1) in
  let e2 := run (step e1 ProcessVideoCall) t2 in
  (exists p q, t2 = p ++ q /\ rawDetectionsRef e2 = frameResults r p)
  /\ (detections (state e2) = []
      \/ exists p q, t2 = p ++ q
                     /\ detections (state e2)
                        = processDetections (frameResults r p)).
Proof.
  intros Hns e1 r e2.
  assert (C : consistent e1) by apply consistent_run, consistent_mounted.
  pose proof (ownResults_run r t2 [] _ Hns (ownResults_start e1 C))
    as (_ & _ & (p & q & Ht & Hraw & _) & Hdet).
  split; [exists p, q; auto|exact Hdet].
Qed.

(** The theorem at work: run 0 has reported the detection at 1 s when the
    second call is made. *)
Lemma superseded_run_contributes_nothing_witness :
  let e1 := run (mounted true) detecting0 in
  let r := length (runs e1) in
  let e2 := run (step e1 ProcessVideoCall) supersededThenRun1 in
  (exists p q, supersededThenRun1 = p ++ q
               /\ rawDetectionsRef e2 = frameResults r p)
  /\ (detections (state e2) = []
      \/ exists p q, supersededThenRun1 = p ++ q
                     /\ detections (state e2)
                        = processDetections (frameResults r p)).
Proof.
  exact (superseded_run_contributes_nothing true detecting0
           supersededThenRun1 eq_refl).
Defined.

Example superseded_run_result :
  let e2 := run (mounted true)
              (detecting0 ++ ProcessVideoCall :: supersededThenRun1) in
  rawDetectionsRef e2 = [7]
  /\ detections (state e2) = [mkRange 7 7 1]
  /\ status (state e2) = completed.
Proof. vm_compute. repeat split. Qed.

(** *** Calibration failure *)

Lemma run_status_error t : forall e,
  forallb (fun ev => negb (isImageSettled ev)) t = true ->
  status (state e) <> error -> status (state (run e t)) <> error.
Proof.
  induction t as [|ev t IH]; intros e Hni He; simpl; [exact He|].
  simpl in Hni. apply andb_prop in Hni as [Hev Hni].
  apply negb_true_iff in Hev. apply IH; [exact Hni|].
  now apply step_status_error.
Qed.

(** C8 - In every state the hook reaches, a [CALIBRATION_FAILED] message
    that is received (its worker lives) makes the status [processing];
    from there no event makes it [error], short of a reference image that
    fails in another calibration. *)
Theorem calibration_failed_goes_to_processing ctx t r t' :
  workerAlive r (run (mounted ctx) t) = true ->
  forallb (fun ev => negb (isImageSettled ev)) t' = true ->
  status (state (step (run (mounted ctx) t) (Message r CALIBRATION_FAILED)))
  = processing
  /\ status (state (run (step (run (mounted ctx) t)
                           (Message r CALIBRATION_FAILED)) t'))
     <> error.
Proof.
  intros Hal Hni.
  assert (C : consistent (run (mounted ctx) t))
    by apply consistent_run, consistent_mounted.
  destruct (consistent_alive _ _ C Hal) as [_ Hna].
  assert (Hp : status (state (step (run (mounted ctx) t)
                                (Message r CALIBRATION_FAILED))) = processing).
  { simpl. rewrite Hal. unfold startVideoProcessing.
    change (signalAborted r (log WarnCalibrationFailed ?e))
      with (signalAborted r e).
    rewrite Hna. branches; reflexivity. }
  split; [exact Hp|]. apply run_status_error; [exact Hni|].
  rewrite Hp. discriminate.
Qed.

Lemma calibration_failed_goes_to_processing_witness :
  status (state (step (run (mounted true) calibrating0)
                   (Message 0 CALIBRATION_FAILED)))
  = processing
  /\ status (state (run (step (run (mounted true) calibrating0)
                           (Message 0 CALIBRATION_FAILED)) playsThenBreaks))
     <> error.
Proof.
  exact (calibration_failed_goes_to_processing true calibrating0 0%nat
           playsThenBreaks eq_refl eq_refl).
Defined.

(** *** Playback errors and frame failures *)

(** Whatever the state, [video.onerror] changes neither the React state,
    nor any flag of a run, nor the worker ref. *)
Lemma videoError_inert e :
  state (videoError e) = state e /\ sameControl e (videoError e).
Proof.
  split; [|apply same_videoError].
  unfold videoError. branches; reflexivity.
Qed.

(** C6 - What the code does on a playback error during processing: the
    status stays [processing] with [isProcessing] set, the worker lives
    on and stays in [workerRef], and the rejection is left unhandled. *)
Theorem playback_error_leaves_processing :
  let e := run (mounted true)
             (playing0 ++ [Frame 0 1 10 true false; VideoError]) in
  status (state e) = processing
  /\ isProcessing (state e) = true
  /\ workerAlive 0 e = true
  /\ workerRef e = Some 0%nat
  /\ unhandledRejections e = 1%nat.
Proof. vm_compute. repeat split. Qed.

(** After a frame whose pixels cannot be read, the session has no
    callback registered, so no later frame reaches its [loop]. *)
Lemma loop_failure_stops e k s t d n :
  nth_error (sessions e) k = Some s ->
  callbackPending s = true ->
  signalAborted (owner s) e = false ->
  (exists s', nth_error (sessions (loop k t d false n e)) k = Some s'
              /\ callbackPending s' = false)
  /\ forall t' d' x' n',
       loop k t' d' x' n' (loop k t d false n e) = loop k t d false n e.
Proof.
  intros Hk Hp Ha.
  assert (Hs : exists s', nth_error (sessions (loop k t d false n e)) k = Some s'
                          /\ callbackPending s' = false).
  { unfold loop. rewrite Hk, Hp. simpl.
    change (signalAborted (owner s) (withSessions ?f e))
      with (signalAborted (owner s) e).
    rewrite Ha. simpl. rewrite nth_error_update_same, Hk. simpl. eauto. }
  split; [exact Hs|]. destruct Hs as (s' & Hk' & Hp').
  intros t' d' x' n'. unfold loop at 1. now rewrite Hk', Hp'.
Qed.

(** C5 - What the code does when reading a frame throws: of four frames
    presented, the second failing, only the first reaches the worker; the
    failure is logged, and the loop is not scheduled again. *)
Theorem frame_failure_stops_the_loop :
  let e := run (mounted true)
             (playing0 ++ [Frame 0 1 10 true false; Frame 0 2 10 false false;
                           Frame 0 3 10 true false; Frame 0 4 10 true false]) in
  map outbox (runs e) = [[INIT; CALIBRATE; PROCESS_FRAME 1]]
  /\ console e = [LogCalibrationComplete; ErrorFrameLoop]
  /\ map callbackPending (sessions e) = [false]
  /\ status (state e) = processing.
Proof. vm_compute. repeat split. Qed.

(** *** Progress *)

Lemma progressAt_le x y : le x y -> le (progressAt x) (progressAt y).
Proof.
  intros H. unfold progressAt. apply min_le_compat; [discriminate|].
  apply round_le, mul_le_compat_r; [reflexivity|exact H].
Qed.

Lemma progressAt_not_NaN x : x <> NaN -> progressAt x <> NaN.
Proof.
  intros H. unfold progressAt. apply min_not_NaN; [discriminate|].
  apply round_not_NaN, mul_not_NaN; [exact H|reflexivity].
Qed.

Lemma progressAt_max x : x <> NaN -> le (progressAt x) 100.
Proof.
  intros H. unfold progressAt. apply min_le_l; [discriminate|].
  apply round_not_NaN, mul_not_NaN; [exact H|reflexivity].
Qed.

Lemma progressAt_0 : progressAt 0 = Finite 0.
Proof. vm_compute. reflexivity. Qed.








(** The condition on the ratios holds whenever the media times never
    decrease and every callback reads the same finite, positive
    duration. *)
Lemma steady_playback_ratios d t :
  0 < d ->
  Forall (eq (Finite d)) (frameDurations t) ->
  Sorted Qle (0 :: frameTimes t) ->
  Sorted le (Finite 0 :: frameRatios t).
Proof.
  intros Hd Hf Hs. rewrite <- (div_0_l d Hd).
  assert (H : forall lo, Sorted Qle (lo :: frameTimes t) ->
                         Sorted le (div (Finite lo) (Finite d) :: frameRatios t));
    [|now apply H].
  clear Hs. induction t as [|ev t IH]; intros lo Hs.
  - repeat constructor.
  - destruct ev as [|r m|r l| | | |k t' d' x n|]; simpl in *; auto.
    inversion Hf as [|? ? E Hf']; subst.
    inversion Hs as [|? ? Hs' Hd']; subst. inversion Hd'; subst.
    constructor; [now apply IH|]. constructor.
    now apply div_le_compat_r.
Qed.




Example slowRun_reports :
  progressReports (run (step (mounted true) ProcessVideoCall) slowRun)
  = [Finite 0; Finite 0; Finite 0; Finite 100].
Proof. vm_compute. reflexivity. Qed.


Import RangeMergerFacts.

(** *** One run at a time *)

Lemma consistent_reached ctx t : consistent (run (mounted ctx) t).
Proof. apply consistent_run, consistent_mounted. Qed.

(** A live worker is the one in [workerRef]. *)
Lemma live_worker_ref e r :
  consistent e -> workerAlive r e = true -> workerRef e = Some r.
Proof.
  intros C Hal. destruct (consistent_alive _ _ C Hal) as [Hl _].
  destruct C as (_ & _ & _ & C4 & C5).
  destruct (workerRef e) as [w|] eqn:Ew.
  - specialize (C5 _ eq_refl). unfold latest in C5. rewrite <- Hl in C5.
    congruence.
  - now rewrite (C4 eq_refl r) in Hal.
Qed.

(** X5 - In every state the hook reaches at most one worker lives and at most
    one run is not aborted: a live worker is the one in [workerRef], its
    run holds the current controller and is not aborted, and every other
    run is aborted with its worker terminated. *)
Theorem one_live_run ctx t r :
  workerAlive r (run (mounted ctx) t) = true ->
  workerRef (run (mounted ctx) t) = Some r
  /\ abortControllerRef (run (mounted ctx) t) = Some r
  /\ signalAborted r (run (mounted ctx) t) = false
  /\ forall r', r' <> r ->
       workerAlive r' (run (mounted ctx) t) = false
       /\ signalAborted r' (run (mounted ctx) t) = true.
Proof.
  intros Hal. pose proof (consistent_reached ctx t) as C.
  set (e := run (mounted ctx) t) in *.
  destruct (consistent_alive _ _ C Hal) as [Hl Hna].
  pose proof C as (C1 & C2 & C3 & C4 & C5).
  assert (Hlatest : latest e = Some r) by (unfold latest; now rewrite <- Hl).
  split.
  { destruct (workerRef e) as [w|] eqn:Ew.
    - rewrite (C5 _ eq_refl). exact Hlatest.
    - now rewrite (C4 eq_refl r) in Hal. }
  split; [congruence|]. split; [exact Hna|].
  intros r' Hne.
  assert (Ha' : signalAborted r' e = true).
  { destruct (signalAborted r' e) eqn:E; [reflexivity|].
    pose proof (consistent_active _ _ C E). lia. }
  split; [|exact Ha'].
  destruct (workerAlive r' e) eqn:E; [|reflexivity].
  rewrite (C2 _ E) in Ha'. discriminate.
Qed.

Lemma one_live_run_witness :
  workerRef (run (mounted true) (detecting0 ++ [ProcessVideoCall])) = Some 1%nat
  /\ abortControllerRef (run (mounted true) (detecting0 ++ [ProcessVideoCall]))
     = Some 1%nat
  /\ signalAborted 1 (run (mounted true) (detecting0 ++ [ProcessVideoCall]))
     = false
  /\ forall r', r' <> 1%nat ->
       workerAlive r' (run (mounted true) (detecting0 ++ [ProcessVideoCall]))
       = false
       /\ signalAborted r' (run (mounted true) (detecting0 ++ [ProcessVideoCall]))
          = true.
Proof.
  exact (one_live_run true (detecting0 ++ [ProcessVideoCall]) 1%nat eq_refl).
Defined.

(** *** The ranges the hook shows *)

Lemma run_snoc e t ev : run e (t ++ [ev]) = step (run e t) ev.
Proof. now rewrite run_app. Qed.

Lemma detections_merged ctx t :
  exists l, detections (state (run (mounted ctx) t)) = processDetections l.
Proof.
  induction t as [|ev t IH] using rev_ind; [now exists []|].
  rewrite run_snoc. destruct (isStart ev) eqn:Hs.
  - destruct ev; try discriminate. cbn [step].
    destruct (processVideo_data (run (mounted ctx) t)) as (_ & -> & _).
    now exists [].
  - destruct (step_detections (run (mounted ctx) t) ev Hs) as [-> | ->];
      [exact IH|eauto].
Qed.

(** X6 - Whatever the caller and the browser do, the ranges in the React state
    are always an output of the merger: sorted, pairwise disjoint, more
    than the tolerance apart, and of confidence 1. *)
Theorem detections_always_merged ctx t :
  sortedDisjoint (detections (state (run (mounted ctx) t)))
  /\ (forall pre r1 r2 post,
        detections (state (run (mounted ctx) t)) = pre ++ r1 :: r2 :: post ->
        TOLERANCE < start r2 - end_ r1)
  /\ Forall (fun r => confidence r = 1)
       (detections (state (run (mounted ctx) t))).
Proof.
  destruct (detections_merged ctx t) as (l & ->).
  split; [apply separated_sortedDisjoint, processDetections_separated|].
  split.
  - intros pre r1 r2 post E. apply (separated_gap pre r1 r2 post).
    rewrite <- E. apply processDetections_separated.
  - apply Forall_forall. intros r Hr.
    now apply processDetections_points in Hr.
Qed.

(** *** The busy flag, the status and the workers *)

(** What a step other than a start does to the React state: it keeps the
    busy flag and the ranges and changes the status, if at all, to
    [error], or to [calibrating] or [processing] on behalf of a live
    worker; or it is the end of playback that completes the run. *)
Lemma step_state_shape e ev :
  isStart ev = false ->
  (isProcessing (state (step e ev)) = isProcessing (state e)
   /\ detections (state (step e ev)) = detections (state e)
   /\ (status (state (step e ev)) = status (state e)
       \/ status (state (step e ev)) = error
       \/ ((status (state (step e ev)) = calibrating
            \/ status (state (step e ev)) = processing)
           /\ exists r, workerAlive r e = true)))
  \/ (ev = Ended
      /\ state (step e ev)
         = mkVisionState false 100 completed
             (processDetections (rawDetectionsRef e))
      /\ workerRef (step e ev) = None).
Proof.
  intros Hs. destruct ev as [|r m|r l| | | |k t d x n|]; try discriminate;
    simpl.
  - destruct (workerAlive r e) eqn:Hal; [|auto].
    destruct m; handlers; branches; simpl; auto;
      left; repeat split; right; right;
      (split; [auto|exists r; exact Hal]).
  - handlers. branches; simpl; auto 10.
  - handlers. branches; simpl; auto 10.
  - handlers. branches; simpl; auto 10.
  - unfold videoEnded, finish. branches; simpl; auto 10.
  - unfold loop. branches; simpl; auto 10.
  - handlers. branches; simpl; auto 10.
Qed.

Lemma step_workerRef e ev :
  isStart ev = false ->
  workerRef (step e ev) = workerRef e \/ workerRef (step e ev) = None.
Proof.
  intros Hs. destruct ev as [|r m|r l| | | |k t d x n|]; try discriminate;
    simpl; try (destruct (workerAlive r e); [destruct m|]);
    handlers; branches; simpl; auto.
Qed.

Lemma coherent_mounted ctx : coherent (mounted ctx).
Proof.
  assert (Hd : forall r, workerAlive r (mounted ctx) = false)
    by (intros [|r]; reflexivity).
  unfold coherent. simpl. repeat split; try discriminate;
    intros; rewrite ?Hd in *; discriminate.
Qed.

Lemma coherent_step e ev :
  consistent e -> coherent e -> coherent (step e ev).
Proof.
  intros C (Ka & Kb & Kc). destruct (isStart ev) eqn:Hs.
  - destruct ev; try discriminate. cbn [step].
    destruct (processVideo_data e) as (_ & Hst & _).
    unfold coherent. rewrite Hst. simpl.
    repeat split; try discriminate; auto.
  - pose proof (consistent_step e ev C) as C'.
    assert (Hkeep : status (state e) = completed ->
                    workerRef (step e ev) = None
                    /\ (forall r, workerAlive r (step e ev) = false)
                    /\ rawDetectionsRef (step e ev) = rawDetectionsRef e).
    { intros Hc. destruct (Kc Hc) as (_ & Hw & Hdead & _).
      split; [destruct (step_workerRef e ev Hs); congruence|]. split.
      - intros r. destruct (workerAlive r (step e ev)) eqn:E; [|reflexivity].
        apply (step_alive _ _ _ Hs) in E. now rewrite Hdead in E.
      - destruct (step_raw e ev Hs) as [H|(r & t & _ & Hal & _)]; [exact H|].
        now rewrite Hdead in Hal. }
    destruct (step_state_shape e ev Hs)
      as [(Hp & Hd & Hst) | (-> & Hfin & Hw)].
    + unfold coherent. rewrite Hp, Hd. split; [|split].
      * intros r Hal. apply (step_alive _ _ _ Hs) in Hal.
        destruct (Ka r Hal) as (H1 & H2 & H3 & H4).
        repeat split; auto;
          destruct Hst as [-> | [-> | ([-> | ->] & _)]]; auto; discriminate.
      * destruct Hst as [-> | [-> | ([-> | ->] & r & Hal)]]; auto;
          try discriminate; intros _; now apply (Ka r).
      * intros Hc.
        assert (Hc0 : status (state e) = completed)
          by (destruct Hst as [<- | [E | ([E | E] & _)]]; congruence).
        destruct (Kc Hc0) as (H1 & _ & _ & H4).
        destruct (Hkeep Hc0) as (H5 & H6 & H7).
        repeat split; auto. now rewrite H7.
    + destruct C' as (_ & _ & _ & C4 & _).
      unfold coherent. rewrite Hfin, Hw.
      cbn [isProcessing detections status working]. split; [|split].
      * intros r Hal. now rewrite (C4 Hw r) in Hal.
      * discriminate.
      * intros _. repeat split; auto. f_equal.
        destruct (step_raw e Ended eq_refl) as [H|(r & t & E & _)];
          [now rewrite H|discriminate].
Qed.

Lemma coherent_reached ctx t : coherent (run (mounted ctx) t).
Proof.
  induction t as [|ev t IH] using rev_ind; [apply coherent_mounted|].
  rewrite run_snoc. apply coherent_step; [apply consistent_reached|exact IH].
Qed.

(** X7 - Once a run has completed, and for as long as the status says so: the
    busy flag is cleared, no worker is left (terminated and out of
    [workerRef]), and the ranges shown are the merge of the buffer. *)
Theorem completed_is_final ctx t :
  status (state (run (mounted ctx) t)) = completed ->
  isProcessing (state (run (mounted ctx) t)) = false
  /\ workerRef (run (mounted ctx) t) = None
  /\ (forall r, workerAlive r (run (mounted ctx) t) = false)
  /\ detections (state (run (mounted ctx) t))
     = processDetections (rawDetectionsRef (run (mounted ctx) t)).
Proof. apply (coherent_reached ctx t). Qed.

Lemma completed_is_final_witness :
  isProcessing (state (run (mounted true) completes0)) = false
  /\ workerRef (run (mounted true) completes0) = None
  /\ (forall r, workerAlive r (run (mounted true) completes0) = false)
  /\ detections (state (run (mounted true) completes0))
     = processDetections (rawDetectionsRef (run (mounted true) completes0)).
Proof. exact (completed_is_final true completes0 eq_refl). Defined.

(** X8 - The busy flag is set whenever the status shows work in progress, and
    for as long as a worker lives; the ranges stay empty until that
    worker is gone. *)
Theorem busy_while_working ctx t :
  (working (status (state (run (mounted ctx) t))) = true ->
   isProcessing (state (run (mounted ctx) t)) = true)
  /\ (forall r, workerAlive r (run (mounted ctx) t) = true ->
                isProcessing (state (run (mounted ctx) t)) = true
                /\ detections (state (run (mounted ctx) t)) = []).
Proof.
  destruct (coherent_reached ctx t) as (Ka & Kb & _). split; [exact Kb|].
  intros r Hal. destruct (Ka r Hal) as (H1 & H2 & _). auto.
Qed.

(** X9 - When the reference image of the current run fails to load, or the
    canvas gives no 2d context, the status becomes [error] and the ranges
    stay empty; the busy flag stays set and the worker stays alive and in
    [workerRef]: the catch of [startCalibration] only logs and sets the
    status. *)
Theorem calibration_error_keeps_busy ctx t r x loaded :
  workerAlive r (run (mounted ctx) t) = true ->
  nth_error (runs (run (mounted ctx) t)) r = Some x ->
  (0 < pendingCalibrations x)%nat ->
  loaded && canvasContext (run (mounted ctx) t) = false ->
  status (state (step (run (mounted ctx) t) (ImageSettled r loaded))) = error
  /\ detections (state (step (run (mounted ctx) t) (ImageSettled r loaded)))
     = []
  /\ isProcessing (state (step (run (mounted ctx) t) (ImageSettled r loaded)))
     = true
  /\ workerAlive r (step (run (mounted ctx) t) (ImageSettled r loaded)) = true
  /\ workerRef (step (run (mounted ctx) t) (ImageSettled r loaded)) = Some r
  /\ console (step (run (mounted ctx) t) (ImageSettled r loaded))
     = console (run (mounted ctx) t) ++ [ErrorCalibration].
Proof.
  intros Hal Hx Hp Hfail.
  pose proof (live_worker_ref _ _ (consistent_reached ctx t) Hal) as Hw.
  destruct (coherent_reached ctx t) as (Ka & _).
  destruct (Ka r Hal) as (Hbusy & Hdet & _).
  set (e := run (mounted ctx) t) in *.
  assert (Hal' : workerAlive r (step e (ImageSettled r loaded)) = true).
  { simpl. now rewrite (sameControl_workerAlive _ _ r
                          (same_resumeCalibration e r loaded)). }
  assert (Hw' : workerRef (step e (ImageSettled r loaded)) = Some r).
  { destruct (same_resumeCalibration e r loaded) as (_ & E & _).
    simpl. now rewrite E. }
  split; [|split; [|split; [|split; [exact Hal'|split; [exact Hw'|]]]]];
    simpl; unfold resumeCalibration; rewrite Hx;
    destruct (pendingCalibrations x) as [|n]; try lia;
    cbn [canvasContext withRuns]; rewrite Hfail; simpl; auto.
Qed.

Lemma calibration_error_keeps_busy_witness :
  status (state (step (run (mounted true) [ProcessVideoCall; Message 0 READY])
                   (ImageSettled 0 false))) = error
  /\ detections (state (step (run (mounted true)
                                [ProcessVideoCall; Message 0 READY])
                          (ImageSettled 0 false))) = []
  /\ isProcessing (state (step (run (mounted true)
                                  [ProcessVideoCall; Message 0 READY])
                            (ImageSettled 0 false))) = true
  /\ workerAlive 0 (step (run (mounted true)
                            [ProcessVideoCall; Message 0 READY])
                      (ImageSettled 0 false)) = true
  /\ workerRef (step (run (mounted true) [ProcessVideoCall; Message 0 READY])
                  (ImageSettled 0 false)) = Some 0%nat
  /\ console (step (run (mounted true) [ProcessVideoCall; Message 0 READY])
                (ImageSettled 0 false))
     = console (run (mounted true) [ProcessVideoCall; Message 0 READY])
       ++ [ErrorCalibration].
Proof.
  exact (calibration_error_keeps_busy true
           [ProcessVideoCall; Message 0 READY] 0%nat
           (mkRun false false [INIT] 1) false
           eq_refl eq_refl (le_n 1) eq_refl).
Defined.

(** *** Progress within bounds *)

(** Every step leaves [progress] and the reports alone, or reports the
    value it assigns: 0 at a start, 100 at the end, the computed value at
    a frame. *)
Lemma step_progress e ev :
  (progress (state (step e ev)) = progress (state e)
   /\ progressReports (step e ev) = progressReports e)
  \/ exists p,
       progress (state (step e ev)) = p
       /\ progressReports (step e ev) = progressReports e ++ [p]
       /\ (p = Finite 0 \/ p = Finite 100
           \/ exists k t d a n,
                ev = Frame k t d a n /\ p = progressAt (div t d)).
Proof.
  destruct ev as [|r m|r l| | | |k t d a n|]; cbn [step].
  - destruct (processVideo_data e) as (_ & -> & ->). right. exists (Finite 0). auto.
  - left. destruct (workerAlive r e); [destruct m|];
      handlers; branches; split; reflexivity.
  - left. handlers. branches; split; reflexivity.
  - left. handlers. branches; split; reflexivity.
  - left. handlers. branches; split; reflexivity.
  - unfold videoEnded, finish. branches; auto. right. exists (Finite 100). auto.
  - unfold loop. branches; auto; right; exists (progressAt (div t d));
      repeat split; auto; right; right; exists k, t, d, a, n; auto.
  - left. handlers. branches; split; reflexivity.
Qed.

Lemma progressAt_bounds q :
  le 0 q -> le 0 (progressAt q) /\ le (progressAt q) 100.
Proof.
  intros H. split.
  - rewrite <- progressAt_0. now apply progressAt_le.
  - apply progressAt_max. eapply le_not_NaN. exact H.
Qed.

Lemma frameRatios_app t1 t2 :
  frameRatios (t1 ++ t2) = frameRatios t1 ++ frameRatios t2.
Proof.
  induction t1 as [|ev t1 IH]; simpl; [reflexivity|].
  destruct ev; simpl; now rewrite ?IH.
Qed.

(** X10 - [progress] is always the value reported last, and it is never
    greater than 100, whatever media times and durations the browser
    hands to the frame callback (a duration of 0 or [NaN] included: the
    value may then be [NaN] or [-Infinity]); as long as every frame comes
    with a ratio of media time to duration that the loop computes as 0 or
    more, it is a number from 0 to 100. *)
Theorem progress_within_bounds ctx t :
  progress (state (run (mounted ctx) t))
  = last (progressReports (run (mounted ctx) t)) (Finite 0)
  /\ Forall (fun p => gtb p 100 = false)
       (progressReports (run (mounted ctx) t))
  /\ gtb (progress (state (run (mounted ctx) t))) 100 = false
  /\ (Forall (fun q => le 0 q) (frameRatios t) ->
      Forall (fun p => le 0 p /\ le p 100)
        (progressReports (run (mounted ctx) t))
      /\ le 0 (progress (state (run (mounted ctx) t)))
      /\ le (progress (state (run (mounted ctx) t))) 100).
Proof.
  induction t as [|ev t IH] using rev_ind.
  - simpl. split; [reflexivity|]. split; [constructor|].
    split; [reflexivity|]. intros _. split; [constructor|].
    split; reflexivity.
  - destruct IH as (Hlast & Hmax & Hle & Hmin). rewrite run_snoc.
    assert (Hr : Forall (fun q => le 0 q) (frameRatios (t ++ [ev])) ->
                 Forall (fun q => le 0 q) (frameRatios t)
                 /\ Forall (fun q => le 0 q) (frameRatios [ev])).
    { rewrite frameRatios_app. apply Forall_app. }
    destruct (step_progress (run (mounted ctx) t) ev)
      as [(-> & ->) | (p & -> & -> & Hp)].
    + split; [exact Hlast|]. split; [exact Hmax|]. split; [exact Hle|].
      intros H. apply Hmin. now apply Hr.
    + rewrite last_last.
      assert (Hp100 : gtb p 100 = false).
      { destruct Hp as [-> | [-> | (k & t' & d & a & n & _ & ->)]];
          try reflexivity. apply gtb_min_l. }
      split; [reflexivity|]. split; [apply Forall_app; auto|].
      split; [exact Hp100|]. intros H. apply Hr in H as [H1 H2].
      assert (Hp0 : le 0 p /\ le p 100).
      { destruct Hp as [-> | [-> | (k & t' & d & a & n & -> & ->)]];
          try (split; reflexivity).
        apply progressAt_bounds. simpl in H2. now inversion H2. }
      split; [|exact Hp0]. apply Forall_app. split; [now apply Hmin|auto].
Qed.

(** *** Teardown *)

Lemma latest_Some e c : latest e = Some c -> S c = length (runs e).
Proof. unfold latest. destruct (length (runs e)); congruence. Qed.

Lemma latest_None e : latest e = None -> length (runs e) = 0%nat.
Proof. unfold latest. destruct (length (runs e)); congruence. Qed.

Lemma halted_unmount e : consistent e -> halted (unmount e).
Proof.
  intros C r. unfold unmount.
  set (e1 := withVideo _ e).
  assert (C1 : consistent e1).
  { eapply sameControl_consistent; [|exact C]. subst e1. auto with control. }
  destruct (terminate_current e1 C1 _ eq_refl) as (Hdead & Hs & Hl & Ha & Hw).
  set (e2 := match workerRef e1 with Some w => terminate w e1 | None => e1 end)
    in *.
  destruct C1 as (A1 & _ & A3 & _). rewrite A1 in Ha.
  destruct (abortControllerRef e2) as [c|] eqn:Ec.
  - rewrite signalAborted_abort, workerAlive_abort, Hdead, Hs.
    split; [|reflexivity].
    destruct (Nat.eqb_spec r c) as [->|Hne]; [reflexivity|]. simpl.
    symmetry in Ha. apply latest_Some in Ha.
    destruct (Nat.lt_ge_cases r c) as [Hlt|Hge].
    + apply A3. lia.
    + apply signalAborted_out. lia.
  - rewrite Hdead, Hs. split; [|reflexivity].
    symmetry in Ha. apply latest_None in Ha.
    apply signalAborted_out. lia.
Qed.

(** Once everything is halted, an event that is neither a start nor the
    settling of a reference image changes nothing the caller or a worker
    could see. *)
Lemma halted_step e ev :
  halted e -> isStart ev = false -> isImageSettled ev = false ->
  halted (step e ev)
  /\ state (step e ev) = state e
  /\ rawDetectionsRef (step e ev) = rawDetectionsRef e
  /\ map outbox (runs (step e ev)) = map outbox (runs e).
Proof.
  intros Hh Hs Hi.
  assert (Hsame : forall e', sameControl e e' -> halted e').
  { intros e' S r. rewrite (sameControl_signalAborted _ _ r S),
      (sameControl_workerAlive _ _ r S). apply Hh. }
  destruct ev as [|r m|r l| | | |k t d a n|]; try discriminate; simpl.
  - rewrite (proj2 (Hh r)). auto.
  - split; [apply Hsame, same_loadeddata|].
    unfold loadeddata. branches; auto.
  - split; [apply Hsame, same_videoError|].
    unfold videoError. branches; auto.
  - unfold videoEnded, finish. branches; auto.
    all: first
      [ exfalso;
        match goal with
        | Hc : signalAborted ?r _ = false |- _ =>
            assert (Hy : signalAborted r e = false) by exact Hc;
            rewrite (proj1 (Hh r)) in Hy; discriminate
        end
      | split; [apply Hsame; auto with control|auto] ].
  - split; [apply Hsame, same_loop|].
    unfold loop. branches; auto.
    all: exfalso;
      match goal with
      | Hc : signalAborted ?r _ = false |- _ =>
          assert (Hy : signalAborted r e = false) by exact Hc;
          rewrite (proj1 (Hh r)) in Hy; discriminate
      end.
  - split.
    + intros r. unfold unmount.
      branches; rewrite ?signalAborted_abort, ?workerAlive_abort,
        ?signalAborted_terminate, ?workerAlive_terminate;
        change (signalAborted r (withVideo ?f e)) with (signalAborted r e);
        change (workerAlive r (withVideo ?f e)) with (workerAlive r e);
        destruct (Hh r) as [-> ->];
        rewrite ?orb_true_r, ?andb_false_r; auto.
    + unfold unmount, terminate, abort. branches; simpl;
        rewrite ?map_update; auto.
Qed.

Lemma halted_run t : forall e,
  halted e ->
  forallb (fun ev => negb (isStart ev)) t = true ->
  forallb (fun ev => negb (isImageSettled ev)) t = true ->
  halted (run e t)
  /\ state (run e t) = state e
  /\ rawDetectionsRef (run e t) = rawDetectionsRef e
  /\ map outbox (runs (run e t)) = map outbox (runs e).
Proof.
  induction t as [|ev t IH]; intros e Hh Hs Hi; simpl; [auto|].
  simpl in Hs, Hi. apply andb_prop in Hs as [Hs1 Hs], Hi as [Hi1 Hi].
  apply negb_true_iff in Hs1, Hi1.
  destruct (halted_step e ev Hh Hs1 Hi1) as (H1 & H2 & H3 & H4).
  destruct (IH (step e ev) H1 Hs Hi) as (G1 & G2 & G3 & G4).
  repeat split; try congruence; apply G1.
Qed.

(** X11 - After the component's teardown every run is aborted, no worker lives
    and the video is paused; from then on, until [processVideo] is called
    again, no worker message, video event or frame callback changes the
    React state or the buffer, and nothing is posted to any worker. *)
Theorem teardown_halts_everything ctx t t' :
  forallb (fun ev => negb (isStart ev)) t' = true ->
  forallb (fun ev => negb (isImageSettled ev)) t' = true ->
  (forall r,
      signalAborted r (step (run (mounted ctx) t) Unmount) = true
      /\ workerAlive r (step (run (mounted ctx) t) Unmount) = false)
  /\ paused (video (step (run (mounted ctx) t) Unmount)) = true
  /\ state (run (step (run (mounted ctx) t) Unmount) t')
     = state (run (mounted ctx) t)
  /\ rawDetectionsRef (run (step (run (mounted ctx) t) Unmount) t')
     = rawDetectionsRef (run (mounted ctx) t)
  /\ map outbox (runs (run (step (run (mounted ctx) t) Unmount) t'))
     = map outbox (runs (run (mounted ctx) t)).
Proof.
  intros Hs Hi. set (e := run (mounted ctx) t).
  assert (Hh : halted (step e Unmount))
    by (apply halted_unmount, consistent_reached).
  destruct (halted_run t' _ Hh Hs Hi) as (_ & H2 & H3 & H4).
  split; [exact Hh|]. rewrite H2, H3, H4. simpl. unfold unmount, terminate, abort.
  branches; simpl; rewrite ?map_update; auto.
Qed.

Lemma teardown_halts_everything_witness :
  (forall r,
      signalAborted r (step (run (mounted true) detecting0) Unmount) = true
      /\ workerAlive r (step (run (mounted true) detecting0) Unmount) = false)
  /\ paused (video (step (run (mounted true) detecting0) Unmount)) = true
  /\ state (run (step (run (mounted true) detecting0) Unmount) lateEvents)
     = state (run (mounted true) detecting0)
  /\ rawDetectionsRef (run (step (run (mounted true) detecting0) Unmount)
                         lateEvents)
     = rawDetectionsRef (run (mounted true) detecting0)
  /\ map outbox (runs (run (step (run (mounted true) detecting0) Unmount)
                         lateEvents))
     = map outbox (runs (run (mounted true) detecting0)).
Proof.
  exact (teardown_halts_everything true detecting0 lateEvents
           eq_refl eq_refl).
Defined.

(** *** What is posted to a worker *)

Lemma subsequence_nil {A} (l : list A) : subsequence [] l.
Proof. induction l; constructor; assumption. Qed.

Lemma subsequence_app_r {A} (l l' l'' : list A) :
  subsequence l l' -> subsequence l (l' ++ l'').
Proof.
  induction 1; simpl; try (constructor; assumption).
  apply subsequence_nil.
Qed.

Lemma subsequence_snoc {A} (l l' : list A) x :
  subsequence l l' -> subsequence (l ++ [x]) (l' ++ [x]).
Proof. induction 1; simpl; repeat constructor; assumption. Qed.

Lemma subsequence_Forall {A} (P : A -> Prop) (l l' : list A) :
  subsequence l l' -> Forall P l' -> Forall P l.
Proof.
  induction 1; intros HF; auto; inversion HF; subst; auto.
Qed.

Lemma subsequence_sorted (l l' : list Q) :
  subsequence l l' -> StronglySorted Qle l' -> StronglySorted Qle l.
Proof.
  induction 1; intros HS; auto; inversion HS; subst; auto.
  constructor; auto. eapply subsequence_Forall; eassumption.
Qed.

Lemma framesOf_app b1 b2 : framesOf (b1 ++ b2) = framesOf b1 ++ framesOf b2.
Proof.
  induction b1 as [|m b1 IH]; simpl; [reflexivity|].
  destruct m; simpl; now rewrite IH.
Qed.

Lemma frameTimes_app t1 t2 :
  frameTimes (t1 ++ t2) = frameTimes t1 ++ frameTimes t2.
Proof.
  induction t1 as [|ev t1 IH]; simpl; [reflexivity|].
  destruct ev; simpl; now rewrite ?IH.
Qed.

Lemma boxAt_update r n f e :
  (forall x, outbox (f x) = outbox x) ->
  boxAt r (withRuns (update n f) e) = boxAt r e.
Proof.
  intros Hf. unfold boxAt. simpl. destruct (Nat.eq_dec n r) as [->|Hne].
  - rewrite nth_error_update_same. destruct (nth_error (runs e) r); simpl;
      [now rewrite Hf|reflexivity].
  - now rewrite nth_error_update_other.
Qed.

Lemma boxAt_abort r c e : boxAt r (abort c e) = boxAt r e.
Proof. now apply boxAt_update. Qed.

Lemma boxAt_terminate r w e : boxAt r (terminate w e) = boxAt r e.
Proof. now apply boxAt_update. Qed.

Lemma boxAt_postMessage r n m e :
  boxAt r (postMessage n m e) = boxAt r e
  \/ (r = n /\ exists b, boxAt r e = Some b
                         /\ boxAt r (postMessage n m e) = Some (b ++ [m])).
Proof.
  unfold boxAt, postMessage. simpl. destruct (Nat.eq_dec n r) as [->|Hne].
  - rewrite nth_error_update_same. destruct (nth_error (runs e) r) as [x|];
      simpl; [|now left].
    destruct (terminated x); [now left|]. right. split; [reflexivity|].
    exists (outbox x). auto.
  - left. now rewrite nth_error_update_other.
Qed.

(** A step other than a start leaves every outbox as it is, or appends
    one message to one of them: [CALIBRATE], or the frame just called
    back with its media time. *)
Lemma step_outbox e ev r :
  isStart ev = false ->
  boxAt r (step e ev) = boxAt r e
  \/ exists b m,
       boxAt r e = Some b
       /\ boxAt r (step e ev) = Some (b ++ [m])
       /\ (m = CALIBRATE
           \/ exists k t d a n, ev = Frame k t d a n /\ m = PROCESS_FRAME t).
Proof.
  intros Hs. destruct ev as [|r' m|r' l| | | |k t d a n|]; try discriminate;
    simpl.
  - left. destruct (workerAlive r' e); [|reflexivity].
    destruct m; simpl; unfold startCalibration, startVideoProcessing;
      branches; try reflexivity.
    change (boxAt r (withRuns (update r' ?f) (withState ?g e)))
      with (boxAt r (withRuns (update r' f) e)).
    now apply boxAt_update.
  - unfold resumeCalibration. branches; auto.
    + match goal with
      | |- context [postMessage r' CALIBRATE ?e1] =>
          destruct (boxAt_postMessage r r' CALIBRATE e1)
            as [E | (-> & b & E1 & E2)];
          rewrite boxAt_update in * by reflexivity
      end; [now left|]. right. exists b, CALIBRATE. auto.
    + left.
      change (boxAt r (withState ?g (log ?l (withRuns (update r' ?f) e))))
        with (boxAt r (withRuns (update r' f) e)).
      now apply boxAt_update.
  - left. unfold loadeddata. branches; reflexivity.
  - left. unfold videoError. branches; reflexivity.
  - left. unfold videoEnded, finish. branches; try reflexivity.
    change (boxAt r (withWorker ?w (terminate ?n (report ?p (withState ?g
              (withSessions ?f e))))))
      with (boxAt r (terminate n e)).
    apply boxAt_terminate.
  - unfold loop. destruct (nth_error (sessions e) k) as [s|]; [|now left].
    destruct (callbackPending s); simpl; [|now left].
    destruct (signalAborted (owner s) _); [now left|].
    destruct a; simpl; [|now left].
    match goal with
    | |- context [postMessage (owner s) (PROCESS_FRAME t) ?e1] =>
        destruct (boxAt_postMessage r (owner s) (PROCESS_FRAME t) e1)
          as [E | (Hr & b & E1 & E2)];
        change (boxAt r e1) with (boxAt r e) in *
    end.
    + left. rewrite <- E. branches; reflexivity.
    + right. exists b, (PROCESS_FRAME t). split; [exact E1|].
      split; [|right; exists k, t, d, true, n; auto].
      rewrite <- E2. branches; reflexivity.
  - left. unfold unmount. branches;
      rewrite ?boxAt_abort, ?boxAt_terminate; reflexivity.
Qed.

Lemma boxAt_postMessage_eq r n m e :
  boxAt r (postMessage n m e)
  = if (r =? n)%nat && workerAlive n e
    then option_map (fun b => b ++ [m]) (boxAt r e)
    else boxAt r e.
Proof.
  unfold boxAt, postMessage, workerAlive. simpl.
  destruct (Nat.eqb_spec r n) as [->|Hne]; simpl.
  - rewrite nth_error_update_same. destruct (nth_error (runs e) n) as [x|];
      simpl; [|reflexivity].
    now destruct (terminated x).
  - now rewrite nth_error_update_other by congruence.
Qed.

Lemma boxAt_push r x e :
  boxAt r (withRuns (fun l => l ++ [x]) e)
  = if (r <? length (runs e))%nat then boxAt r e
    else if (r =? length (runs e))%nat then Some (outbox x) else None.
Proof.
  unfold boxAt. simpl. destruct (Nat.ltb_spec r (length (runs e))).
  - now rewrite nth_error_app1.
  - rewrite nth_error_app2 by assumption.
    destruct (Nat.eqb_spec r (length (runs e))) as [->|Hne].
    + now rewrite Nat.sub_diag.
    + destruct (r - length (runs e))%nat as [|[|k]] eqn:E; simpl; auto. lia.
Qed.

(** A start leaves the outboxes of the earlier runs as they are and
    gives the new worker its [INIT]. *)
Lemma boxAt_processVideo e r :
  consistent e ->
  boxAt r (processVideo e)
  = if (r <? length (runs e))%nat then boxAt r e
    else if (r =? length (runs e))%nat then Some [INIT] else None.
Proof.
  intros C.
  destruct (processVideo_control e) as (_ & _ & _ & _ & Hv).
  assert (Hnew : workerAlive (length (runs e)) (processVideo e) = true).
  { rewrite Hv, Nat.ltb_irrefl, Nat.eqb_refl.
    destruct (workerRef e) as [w|] eqn:Ew; [|reflexivity].
    destruct C as (_ & _ & _ & _ & C5). specialize (C5 _ Ew). symmetry in C5.
    apply latest_Some in C5. destruct (Nat.eqb_spec (length (runs e)) w); [lia|].
    reflexivity. }
  revert Hnew. unfold processVideo.
  cbn [abortControllerRef workerRef runs withRaw report withState].
  destruct (abortControllerRef e) as [c|];
    destruct (workerRef e) as [w|] eqn:Ew;
    cbn [abortControllerRef workerRef runs withRaw report withState
         withAbortController withRuns abort];
    rewrite Ew; rewrite ?length_update;
    rewrite workerAlive_postMessage, boxAt_postMessage_eq;
    intros Hnew.
  all: change (workerAlive ?n (withWorker ?w ?e')) with (workerAlive n e') in *.
  all: change (boxAt r (withWorker ?w ?e')) with (boxAt r e').
  all: rewrite Hnew, andb_true_r, ?boxAt_terminate.
  all: change (boxAt r (withAbortController ?a ?e')) with (boxAt r e').
  all: rewrite boxAt_push, ?boxAt_abort, ?length_abort.
  all: cbn [runs withRaw report withState outbox].
  all: change (boxAt r (withRaw ?a (report ?p (withState ?f e))))
         with (boxAt r e).
  all: destruct (Nat.eqb_spec r (length (runs e))) as [->|Hne];
       [rewrite Nat.ltb_irrefl; reflexivity|].
  all: destruct (r <? length (runs e))%nat; reflexivity.
Qed.

(** What holds of the outbox of each run. *)
Lemma outbox_invariant ctx t r b :
  boxAt r (run (mounted ctx) t) = Some b ->
  (exists rest, b = INIT :: rest /\ forallb afterInit rest = true)
  /\ subsequence (framesOf b) (frameTimes t).
Proof.
  revert r b. induction t as [|ev t IH] using rev_ind; intros r b.
  - destruct r; discriminate.
  - rewrite run_snoc, frameTimes_app. destruct (isStart ev) eqn:Hs.
    + destruct ev; try discriminate. cbn [step].
      rewrite boxAt_processVideo by apply consistent_reached.
      destruct (r <? _)%nat.
      * intros Hb. destruct (IH _ _ Hb) as (H1 & H2).
        split; [exact H1|now apply subsequence_app_r].
      * destruct (r =? _)%nat; [|discriminate]. intros [= <-].
        split; [exists []; auto|apply subsequence_nil].
    + destruct (step_outbox (run (mounted ctx) t) ev r Hs)
        as [-> | (b0 & m & Hb0 & -> & Hm)].
      * intros Hb. destruct (IH _ _ Hb) as (H1 & H2).
        split; [exact H1|now apply subsequence_app_r].
      * intros [= <-]. destruct (IH _ _ Hb0) as ((rest & -> & Hrest) & H2).
        split.
        -- exists (rest ++ [m]). split; [reflexivity|].
           rewrite forallb_app, Hrest. simpl.
           destruct Hm as [-> | (k & t' & d & a & n & _ & ->)]; reflexivity.
        -- rewrite framesOf_app.
           destruct Hm as [-> | (k & t' & d & a & n & -> & ->)]; simpl.
           ++ rewrite app_nil_r. now apply subsequence_app_r.
           ++ now apply subsequence_snoc.
Qed.

(** X12 - Every worker is sent [INIT] first and only once; the frames posted to
    it are frames the browser presented, in the order of presentation, so
    they go out in non-decreasing media time whenever the frames come in
    that way. *)
Theorem frames_posted_in_order ctx t :
  Forall (fun x =>
            (exists rest, outbox x = INIT :: rest
                          /\ forallb afterInit rest = true)
            /\ subsequence (framesOf (outbox x)) (frameTimes t)
            /\ (StronglySorted Qle (frameTimes t) ->
                StronglySorted Qle (framesOf (outbox x))))
         (runs (run (mounted ctx) t)).
Proof.
  apply Forall_forall. intros x Hx.
  destruct (In_nth_error _ _ Hx) as (r & Hr).
  destruct (outbox_invariant ctx t r (outbox x)) as (H1 & H2).
  { unfold boxAt. now rewrite Hr. }
  split; [exact H1|]. split; [exact H2|].
  now apply subsequence_sorted.
Qed.

(** *** A browser without a 2d canvas context *)

Lemma step_canvasContext e ev : canvasContext (step e ev) = canvasContext e.
Proof.
  destruct ev as [|r m|r l| | | |k t d a n|]; simpl;
    try (destruct (workerAlive r e); [destruct m|]);
    unfold processVideo; handlers; branches; reflexivity.
Qed.

Lemma nth_error_nil_Session k : nth_error (@nil Session) k = None.
Proof. now destruct k. Qed.

(** Without a context no session is ever created, so nothing is ever
    sampled or posted beyond [INIT]. *)
Lemma no_context_step e ev r :
  canvasContext e = false -> sessions e = [] ->
  sessions (step e ev) = []
  /\ (isStart ev = false ->
      boxAt r (step e ev) = boxAt r e
      /\ progress (state (step e ev)) = progress (state e)
      /\ detections (state (step e ev)) = detections (state e)
      /\ (status (state (step e ev)) = completed ->
          status (state e) = completed)).
Proof.
  intros Hc Hs. destruct ev as [|r' m|r' l| | | |k t d a n|]; simpl.
  - split; [|discriminate]. unfold processVideo. handlers.
    branches; exact Hs.
  - destruct (workerAlive r' e); [|auto].
    destruct m; simpl; unfold startCalibration, startVideoProcessing;
      cbn [canvasContext log withState]; rewrite ?Hc; simpl;
      branches; simpl; (split; [exact Hs|intros _]); repeat split; auto;
      try discriminate.
    change (boxAt r (withRuns (update r' ?f) (withState ?g e)))
      with (boxAt r (withRuns (update r' f) e)).
    now apply boxAt_update.
  - unfold resumeCalibration. branches; auto;
      match goal with
      | H : _ && canvasContext _ = true |- _ =>
          cbn [canvasContext withRuns] in H; rewrite Hc, andb_false_r in H;
          discriminate
      | _ => idtac
      end.
    split; [exact Hs|intros _]. repeat split; try discriminate.
    change (boxAt r (withState ?g (log ?l (withRuns (update r' ?f) e))))
      with (boxAt r (withRuns (update r' f) e)).
    now apply boxAt_update.
  - unfold loadeddata. branches; auto.
    all: match goal with
         | H : nth_error (sessions _) _ = Some _ |- _ =>
             rewrite Hs, nth_error_nil_Session in H; discriminate
         end.
  - unfold videoError. branches; auto.
    all: match goal with
         | H : nth_error (sessions _) _ = Some _ |- _ =>
             rewrite Hs, nth_error_nil_Session in H; discriminate
         end.
  - unfold videoEnded. branches; auto.
    all: match goal with
         | H : nth_error (sessions _) _ = Some _ |- _ =>
             rewrite Hs, nth_error_nil_Session in H; discriminate
         end.
  - unfold loop. rewrite Hs, nth_error_nil_Session. auto.
  - assert (Hst : state (unmount e) = state e)
      by (unfold unmount; handlers; branches; reflexivity).
    split; [unfold unmount; handlers; branches; exact Hs|intros _].
    rewrite Hst. repeat split; auto.
    unfold unmount. branches; rewrite ?boxAt_abort, ?boxAt_terminate;
      reflexivity.
Qed.

(** X13 - In a browser whose canvas gives no 2d context a run never gets to
    play the video: no session is created, every worker is sent [INIT]
    and nothing else, progress stays at 0, no ranges appear and the
    status never becomes [completed]. *)
Theorem no_context_never_completes t :
  sessions (run (mounted false) t) = []
  /\ Forall (fun x => outbox x = [INIT]) (runs (run (mounted false) t))
  /\ progress (state (run (mounted false) t)) = Finite 0
  /\ detections (state (run (mounted false) t)) = []
  /\ status (state (run (mounted false) t)) <> completed.
Proof.
  assert (H : sessions (run (mounted false) t) = []
              /\ (forall r b, boxAt r (run (mounted false) t) = Some b ->
                              b = [INIT])
              /\ progress (state (run (mounted false) t)) = Finite 0
              /\ detections (state (run (mounted false) t)) = []
              /\ status (state (run (mounted false) t)) <> completed).
  { induction t as [|ev t IH] using rev_ind.
    - simpl. repeat split; try discriminate. intros [|r] b; discriminate.
    - destruct IH as (I1 & I2 & I3 & I4 & I5). rewrite run_snoc.
      assert (Hc : canvasContext (run (mounted false) t) = false).
      { clear. induction t as [|ev t IH] using rev_ind; [reflexivity|].
        now rewrite run_snoc, step_canvasContext. }
      destruct (isStart ev) eqn:Hs.
      + destruct ev; try discriminate.
        split; [apply (no_context_step _ ProcessVideoCall 0%nat Hc I1)|].
        cbn [step].
        destruct (processVideo_data (run (mounted false) t)) as (_ & -> & _).
        simpl. repeat split; try discriminate.
        intros r b. rewrite boxAt_processVideo by apply consistent_reached.
        destruct (r <? _)%nat; [apply I2|].
        destruct (r =? _)%nat; [congruence|discriminate].
      + split; [apply (no_context_step _ ev 0%nat Hc I1)|].
        split.
        * intros r b.
          destruct (no_context_step _ ev r Hc I1) as (_ & Hstep).
          destruct (Hstep Hs) as (-> & _). apply I2.
        * destruct (no_context_step _ ev 0%nat Hc I1) as (_ & Hstep).
          destruct (Hstep Hs) as (_ & -> & -> & Hst).
          split; [exact I3|split; [exact I4|]].
          intros Hcmp. apply I5. now apply Hst. }
  destruct H as (H1 & H2 & H3 & H4 & H5).
  repeat split; auto. apply Forall_forall. intros x Hx.
  destruct (In_nth_error _ _ Hx) as (r & Hr).
  apply (H2 r). unfold boxAt. now rewrite Hr.
Qed.

End VisionEngineFacts.

(** * Properties of the rendering hook *)

Module VideoProcessorFacts.
Import Float64 NumberToString.
Import String VideoProcessor.
Local Open Scope string_scope.

Example render_ok :
  processVideo true
    (mkOracle true true true [Finite (1 # 2); Finite 1] (Some 0%Z) true
       "blob:1")
    engineReady
  = (Return (Some "blob:1"),
     mkWorld (mkState true false 100 "Completed" None) []).
Proof. vm_compute. reflexivity. Qed.

Example render_fails :
  processVideo true
    (mkOracle true true true [Finite (double (1 # 3))] (Some 1%Z) true
       "blob:1")
    engineReady
  = (Return None,
     mkWorld (mkState true false 100 "Completed"
                (Some "Video processing failed.")) []).
Proof. vm_compute. reflexivity. Qed.

Lemma hasFile_In name fs : hasFile name fs = true <-> In name fs.
Proof.
  unfold hasFile. destruct (in_dec string_dec name fs); split; auto; discriminate.
Qed.

Lemma hasFile_not_In name fs : hasFile name fs = false <-> ~ In name fs.
Proof.
  unfold hasFile. destruct (in_dec string_dec name fs); split; auto;
    [discriminate | contradiction].
Qed.

(** The progress listener touches neither the files nor the error. *)
Lemma fireProgress_spec ps : forall w,
  exists h, fireProgress ps w = (Return tt, mkWorld h (files w))
            /\ error h = error (hook w).
Proof.
  induction ps as [|p ps IH]; intros w; simpl.
  - exists (hook w). destruct w; auto.
  - unfold bind, onProgress, setState.
    destruct (IH (mkWorld
      (mkState (isReady (hook w)) (isProcessing (hook w)) (percent p)
         ("Rendering... " ++ toString (percent p) ++ "%") (error (hook w)))
      (files w))) as (h & -> & Hh).
    exists h. auto.
Qed.

(** The [finally] block never throws, removes both files when the output
    is not there without the input, and sets the three fields. *)
Lemma finallyBlock_spec w :
  (In outputName (files w) -> In inputName (files w)) ->
  exists fs, finallyBlock w
    = (Return tt,
       mkWorld (mkState (isReady (hook w)) false 100 "Completed"
                  (error (hook w))) fs)
    /\ ~ In inputName fs /\ ~ In outputName fs.
Proof.
  intros Hfs. unfold finallyBlock, bind, tryCatch, deleteFile, setState, ret.
  destruct (hasFile inputName (files w)) eqn:Ein; simpl.
  - destruct (hasFile outputName (remove string_dec inputName (files w))) eqn:Eout;
      simpl; eexists; (split; [reflexivity|]).
    + split; intros Hc; apply in_remove in Hc.
      * destruct Hc as [Hc _]. apply in_remove in Hc. tauto.
      * tauto.
    + apply hasFile_not_In in Eout. split; [|exact Eout].
      intros Hc. apply in_remove in Hc. tauto.
  - apply hasFile_not_In in Ein. eexists. split; [reflexivity|]. tauto.
Qed.

(** The [try] block with its [catch] never throws; it keeps the output
    from being there without the input, and reports failure in [error]
    and by returning [None]. *)
Lemma tryCatch_spec o w :
  (In outputName (files w) -> In inputName (files w)) ->
  exists v w1,
    tryCatch (tryBlock o) catchBlock w = (Return v, w1)
    /\ (In outputName (files w1) -> In inputName (files w1))
    /\ match v with
       | Some url => url = objectURL o /\ error (hook w1) = error (hook w)
       | None => error (hook w1) = Some "Video processing failed."
       end.
Proof.
  intros Hfs.
  unfold tryCatch, tryBlock, catchBlock, exec, bind, writeFile, guard,
    readFile, setState, ret, throw.
  destruct (fetchFileOk o && writeFileOk o); simpl;
    [|eexists _, _; split; [reflexivity|]; simpl; auto].
  set (fs1 := if hasFile inputName (files w) then files w
              else inputName :: files w).
  assert (Hin : In inputName fs1).
  { subst fs1. destruct (hasFile inputName (files w)) eqn:E.
    - now apply hasFile_In. - now left. }
  destruct (buildEditCommandOk o); simpl;
    [|eexists _, _; split; [reflexivity|]; simpl; auto].
  match goal with |- context [fireProgress ?ps ?W] =>
    destruct (fireProgress_spec ps W) as (h & -> & Hh) end.
  simpl in *.
  set (fs2 := if execWritesOutput o && negb (hasFile outputName fs1)
              then outputName :: fs1 else fs1).
  assert (Hin2 : In inputName fs2).
  { subst fs2. destruct (execWritesOutput o && negb (hasFile outputName fs1));
      [now right | exact Hin]. }
  destruct (execResult o) as [code|]; simpl;
    [|eexists _, _; split; [reflexivity|]; simpl; auto].
  destruct (code =? 0)%Z; simpl;
    [|eexists _, _; split; [reflexivity|]; simpl; auto].
  destruct (hasFile outputName fs2); simpl;
    eexists _, _; (split; [reflexivity|]); simpl; auto.
Qed.

(** A call that does not pass the guard returns [null] and sets [error],
    nothing else. *)
Lemma processVideo_refused ffmpeg o w :
  ffmpeg = false \/ isReady (hook w) = false ->
  processVideo ffmpeg o w
  = (Return None,
     mkWorld (mkState (isReady (hook w)) (isProcessing (hook w))
                (progress (hook w)) (status (hook w))
                (Some "Engine not ready"))
             (files w)).
Proof.
  intros H. unfold processVideo, bind at 1, getState.
  assert (E : negb ffmpeg || negb (isReady (hook w)) = true).
  { destruct H as [-> | ->]; [reflexivity|]. apply orb_true_r. }
  rewrite E. reflexivity.
Qed.

Lemma processVideo_passed o w :
  isReady (hook w) = true ->
  (In outputName (files w) -> In inputName (files w)) ->
  exists v w',
    processVideo true o w = (Return v, w')
    /\ isProcessing (hook w') = false
    /\ progress (hook w') = Finite 100
    /\ status (hook w') = "Completed"
    /\ match v with
       | Some url => url = objectURL o /\ error (hook w') = None
       | None => error (hook w') = Some "Video processing failed."
       end
    /\ ~ In inputName (files w') /\ ~ In outputName (files w').
Proof.
  intros Hready Hfs.
  unfold processVideo, bind at 1, getState. rewrite Hready. simpl.
  unfold bind, setState, tryFinally.
  set (w0 := mkWorld _ (files w)).
  destruct (tryCatch_spec o w0 Hfs) as (v & w1 & -> & Hfs1 & Hv).
  destruct (finallyBlock_spec w1 Hfs1) as (fs & -> & Hi & Ho).
  exists v, (mkWorld (mkState (isReady (hook w1)) false 100 "Completed"
                        (error (hook w1))) fs).
  simpl. repeat split; auto.
Qed.

(** C10, as amended - After every call of [processVideo] that passes the
    readiness guard (the engine instance exists and [isReady] holds)
    returns, whether rendering succeeded or failed, the state has
    [isProcessing = false], [progress = 100] and [status = 'Completed'];
    a failure shows only in [error] and in the [null] result; and the
    temporary input and output files are gone in both cases, provided the
    engine did not already hold an output file without an input file.  A
    call made while the engine is not ready (no instance, or [isReady]
    unset) returns [null] at the guard, having only set [error] to
    ['Engine not ready']: every other field and the files are as they
    were. *)
Theorem processVideo_ready_completes (ffmpeg : bool) (o : Oracle) (w : World) :
  (ffmpeg = true ->
   isReady (hook w) = true ->
   (In outputName (files w) -> In inputName (files w)) ->
   exists v w',
     processVideo ffmpeg o w = (Return v, w')
     /\ isProcessing (hook w') = false
     /\ progress (hook w') = Finite 100
     /\ status (hook w') = "Completed"
     /\ match v with
        | Some url => url = objectURL o /\ error (hook w') = None
        | None => error (hook w') = Some "Video processing failed."
        end
     /\ ~ In inputName (files w') /\ ~ In outputName (files w'))
  /\ (ffmpeg = false \/ isReady (hook w) = false ->
      processVideo ffmpeg o w
      = (Return None,
         mkWorld (mkState (isReady (hook w)) (isProcessing (hook w))
                    (progress (hook w)) (status (hook w))
                    (Some "Engine not ready"))
                 (files w))).
Proof.
  split.
  - intros ->. apply processVideo_passed.
  - apply processVideo_refused.
Qed.

(** The amended statement at work: rendering fails with exit code 1 on a
    ready engine, and a call on an engine that is still loading is
    refused. *)
Lemma processVideo_ready_completes_witness :
  (exists v w',
     processVideo true
       (mkOracle true true true [Finite (double (1 # 3))] (Some 1%Z) true
          "blob:1") engineReady
     = (Return v, w')
     /\ isProcessing (hook w') = false
     /\ progress (hook w') = Finite 100
     /\ status (hook w') = "Completed"
     /\ match v with
        | Some url => url = "blob:1" /\ error (hook w') = None
        | None => error (hook w') = Some "Video processing failed."
        end
     /\ ~ In inputName (files w') /\ ~ In outputName (files w'))
  /\ processVideo true
       (mkOracle true true true [Finite (double (1 # 3))] (Some 1%Z) true
          "blob:1") loading
     = (Return None,
        mkWorld (mkState false false 0 "Loading engine..."
                   (Some "Engine not ready")) []).
Proof.
  split.
  - apply (proj1 (processVideo_ready_completes true
                    (mkOracle true true true [Finite (double (1 # 3))]
                       (Some 1%Z) true "blob:1")
                    engineReady)).
    + reflexivity.
    + reflexivity.
    + simpl. intros [].
  - apply (proj2 (processVideo_ready_completes true
                    (mkOracle true true true [Finite (double (1 # 3))]
                       (Some 1%Z) true "blob:1")
                    loading)).
    right. reflexivity.
Defined.

(** C10, as stated, fails: a call made before the engine has loaded
    returns [null] at the guard and leaves [progress] at 0 and [status]
    at ['Loading engine...']; nothing is written or deleted. *)
Lemma processVideo_not_ready_differs :
  processVideo true (mkOracle true true true [] (Some 0%Z) true "blob:1")
    loading
  = (Return None,
     mkWorld (mkState false false 0 "Loading engine..."
                (Some "Engine not ready")) [])
  /\ ~ (forall ffmpeg o w v w',
          processVideo ffmpeg o w = (Return v, w') ->
          isProcessing (hook w') = false
          /\ progress (hook w') = Finite 100
          /\ status (hook w') = "Completed").
Proof.
  split; [reflexivity|].
  intros H.
  destruct (H true (mkOracle true true true [] (Some 0%Z) true "blob:1")
              loading None
              (mkWorld (mkState false false 0 "Loading engine..."
                          (Some "Engine not ready")) [])
              eq_refl) as (_ & Hp & _).
  discriminate.
Qed.

(** *** Results, repeated calls and the engine that failed to load *)

Lemma fireProgress_keeps ps : forall w,
  exists h, fireProgress ps w = (Return tt, mkWorld h (files w))
            /\ isReady h = isReady (hook w)
            /\ error h = error (hook w).
Proof.
  induction ps as [|p ps IH]; intros w; simpl.
  - exists (hook w). destruct w; auto.
  - unfold bind, onProgress, setState.
    destruct (IH (mkWorld
      (mkState (isReady (hook w)) (isProcessing (hook w)) (percent p)
         ("Rendering... " ++ toString (percent p) ++ "%") (error (hook w)))
      (files w))) as (h & -> & Hr & He).
    exists h. auto.
Qed.

(** On a ready engine that holds no files, a call returns in the state
    [Completed], gives the object URL exactly when every step of the
    [try] block went through, [null] otherwise, and leaves no file. *)
Lemma render_clean o w :
  isReady (hook w) = true -> files w = [] ->
  exists h',
    processVideo true o w
    = (Return (if succeeds o then Some (objectURL o) else None),
       mkWorld h' [])
    /\ isReady h' = true
    /\ isProcessing h' = false
    /\ progress h' = Finite 100
    /\ status h' = "Completed"
    /\ error h' = (if succeeds o then None
                   else Some "Video processing failed.").
Proof.
  intros Hready Hfiles. destruct w as [h fs]. simpl in *. subst fs.
  unfold processVideo, bind at 1, getState. simpl. rewrite Hready. simpl.
  unfold succeeds, tryFinally, tryCatch, tryBlock, catchBlock, finallyBlock,
    exec, bind, writeFile, guard, readFile, deleteFile, setState, ret, throw.
  simpl.
  destruct (fetchFileOk o), (writeFileOk o); simpl; eauto 10.
  destruct (buildEditCommandOk o); simpl; eauto 10.
  match goal with |- context [fireProgress ?ps ?W] =>
    destruct (fireProgress_keeps ps W) as (h1 & -> & Hr & He) end.
  simpl in *.
  destruct (execResult o) as [[|c|c]|], (execWritesOutput o); simpl;
    rewrite ?Hr, ?He; eauto 10.
Qed.

(** What a series of calls on a ready engine without files gives. *)
Lemma renderAll_ready os : forall h,
  ffmpegRef h = true -> isReady (hook (world h)) = true ->
  files (world h) = [] ->
  fst (renderAll os h)
  = map (fun o => Return (if succeeds o then Some (objectURL o) else None)) os
  /\ ffmpegRef (snd (renderAll os h)) = true
  /\ isReady (hook (world (snd (renderAll os h)))) = true
  /\ files (world (snd (renderAll os h))) = []
  /\ (os <> [] ->
      isProcessing (hook (world (snd (renderAll os h)))) = false
      /\ progress (hook (world (snd (renderAll os h)))) = Finite 100
      /\ status (hook (world (snd (renderAll os h)))) = "Completed"
      /\ error (hook (world (snd (renderAll os h))))
         = if succeeds (last os (mkOracle true true true [] None true ""))
           then None else Some "Video processing failed.").
Proof.
  induction os as [|o os IH]; intros h Hf Hr Hfs.
  - simpl. do 4 (split; [auto|]). intros Hc. now contradiction Hc.
  - destruct (render_clean o (world h) Hr Hfs)
      as (h' & E & H1 & H2 & H3 & H4 & H5).
    cbn [renderAll]. unfold render. rewrite Hf, E.
    specialize (IH (mkHook (mkWorld h' []) true) eq_refl H1 eq_refl).
    destruct (renderAll os (mkHook (mkWorld h' []) true)) as [cs h2] eqn:E2.
    simpl in IH |- *. destruct IH as (I1 & I2 & I3 & I4 & I5).
    split; [now rewrite I1|]. repeat split; auto;
      destruct os as [|o' os]; try (apply I5; discriminate);
      simpl in E2; injection E2 as <- <-; simpl; auto.
Qed.

(** X14 - Once the engine has loaded, the calls of a series do not affect one
    another: each returns the object URL exactly when every step of its
    own [try] block goes through (file fetched and written, command
    built, exit code 0, output file left), and [null] otherwise; none
    throws. *)
Theorem renders_are_independent lo os :
  toBlobURLOk lo && ffmpegLoadOk lo = true ->
  fst (renderAll os (mountEffect lo firstRender))
  = map (fun o => Return (if succeeds o then Some (objectURL o) else None)) os.
Proof.
  intros Hl. apply renderAll_ready; unfold mountEffect, load; simpl;
    now rewrite Hl.
Qed.

Lemma renders_are_independent_witness :
  fst (renderAll
         [mkOracle true true true [Finite (double (1 # 3))] (Some 1%Z) true "blob:1";
          mkOracle true true true [Finite (1 # 2); Finite 1] (Some 0%Z) true "blob:2"]
         (mountEffect (mkLoadOracle true true None) firstRender))
  = map (fun o => Return (if succeeds o then Some (objectURL o) else None))
        [mkOracle true true true [Finite (double (1 # 3))] (Some 1%Z) true "blob:1";
         mkOracle true true true [Finite (1 # 2); Finite 1] (Some 0%Z) true "blob:2"].
Proof.
  exact (renders_are_independent (mkLoadOracle true true None)
           [mkOracle true true true [Finite (double (1 # 3))] (Some 1%Z) true "blob:1";
            mkOracle true true true [Finite (1 # 2); Finite 1] (Some 0%Z) true "blob:2"]
           eq_refl).
Defined.

(** X15 - Once the engine has loaded, no series of calls leaves a temporary
    file behind or unsets [isReady]; after the last call the state is
    [Completed] at 100 with the busy flag cleared, and [error] tells
    whether that last call failed. *)
Theorem renders_leave_no_files lo os :
  toBlobURLOk lo && ffmpegLoadOk lo = true ->
  os <> [] ->
  files (world (snd (renderAll os (mountEffect lo firstRender)))) = []
  /\ isReady (hook (world (snd (renderAll os (mountEffect lo firstRender)))))
     = true
  /\ isProcessing
       (hook (world (snd (renderAll os (mountEffect lo firstRender)))))
     = false
  /\ progress (hook (world (snd (renderAll os (mountEffect lo firstRender)))))
     = Finite 100
  /\ status (hook (world (snd (renderAll os (mountEffect lo firstRender)))))
     = "Completed"
  /\ error (hook (world (snd (renderAll os (mountEffect lo firstRender)))))
     = if succeeds (last os (mkOracle true true true [] None true ""))
       then None else Some "Video processing failed.".
Proof.
  intros Hl Hne.
  destruct (renderAll_ready os (mountEffect lo firstRender))
    as (_ & _ & H3 & H4 & H5);
    try (unfold mountEffect, load; simpl; now rewrite Hl).
  destruct (H5 Hne) as (G1 & G2 & G3 & G4). auto 6.
Qed.

Lemma renders_leave_no_files_witness :
  let os := [mkOracle true true true [Finite (1 # 2); Finite 1] (Some 0%Z) true "blob:2";
             mkOracle true true true [Finite (double (1 # 3))] (Some 1%Z) true "blob:1"] in
  let h := snd (renderAll os
                  (mountEffect (mkLoadOracle true true None) firstRender)) in
  files (world h) = []
  /\ isReady (hook (world h)) = true
  /\ isProcessing (hook (world h)) = false
  /\ progress (hook (world h)) = Finite 100
  /\ status (hook (world h)) = "Completed"
  /\ error (hook (world h))
     = if succeeds (last os (mkOracle true true true [] None true ""))
       then None else Some "Video processing failed.".
Proof.
  exact (renders_leave_no_files (mkLoadOracle true true None)
           [mkOracle true true true [Finite (1 # 2); Finite 1] (Some 0%Z) true "blob:2";
            mkOracle true true true [Finite (double (1 # 3))] (Some 1%Z) true "blob:1"]
           eq_refl ltac:(discriminate)).
Defined.

(** A call on an engine that is not ready returns [null] and changes
    nothing but [error]. *)
Lemma render_refused o h :
  isReady (hook (world h)) = false ->
  render o h
  = (Return None,
     mkHook (mkWorld (mkState false (isProcessing (hook (world h)))
                        (progress (hook (world h))) (status (hook (world h)))
                        (Some "Engine not ready"))
               (files (world h)))
            (ffmpegRef h)).
Proof.
  intros Hr. unfold render, processVideo, bind, getState, setState, ret.
  simpl. rewrite Hr, orb_true_r. simpl. now rewrite Hr.
Qed.

(** X16 - When the engine fails to load, the hook says so ([isReady] unset,
    status ['Failed to load engine'], the error message with
    ['Check console details'] for a missing one), and from then on every
    call is refused: it returns [null], writes no file and touches
    nothing but [error], which becomes ['Engine not ready']. *)
Theorem failed_load_refuses_renders lo os :
  toBlobURLOk lo && ffmpegLoadOk lo = false ->
  hook (world (mountEffect lo firstRender))
  = mkState false false 0 "Failed to load engine"
      (Some ("Engine Error: "
             ++ orElse (errMessage lo) "Check console details"))
  /\ fst (renderAll os (mountEffect lo firstRender))
     = map (fun _ => Return None) os
  /\ files (world (snd (renderAll os (mountEffect lo firstRender)))) = []
  /\ hook (world (snd (renderAll os (mountEffect lo firstRender))))
     = mkState false false 0 "Failed to load engine"
         (match os with
          | [] => Some ("Engine Error: "
                        ++ orElse (errMessage lo) "Check console details")
          | _ :: _ => Some "Engine not ready"
          end).
Proof.
  intros Hl. unfold mountEffect, load. simpl. rewrite Hl.
  split; [reflexivity|].
  set (h0 := mkHook _ true).
  assert (Hgen : forall os e0 h,
             hook (world h) = mkState false false 0 "Failed to load engine" e0 ->
             files (world h) = [] ->
             fst (renderAll os h) = map (fun _ => Return None) os
             /\ files (world (snd (renderAll os h))) = []
             /\ hook (world (snd (renderAll os h)))
                = mkState false false 0 "Failed to load engine"
                    (match os with
                     | [] => e0
                     | _ :: _ => Some "Engine not ready"
                     end)).
  { clear. induction os as [|o os IH]; intros e0 h Hh Hf; [simpl; auto|].
    cbn [renderAll]. rewrite render_refused by now rewrite Hh.
    rewrite Hh, Hf. simpl.
    specialize (IH (Some "Engine not ready")
                   (mkHook (mkWorld (mkState false false 0
                                       "Failed to load engine"
                                       (Some "Engine not ready")) [])
                           (ffmpegRef h)) eq_refl eq_refl).
    destruct (renderAll os _) as [cs h2]. simpl in *.
    destruct IH as (I1 & I2 & I3). rewrite I1, I2, I3.
    repeat split. now destruct os. }
  apply (Hgen os _ h0); reflexivity.
Qed.

Lemma failed_load_refuses_renders_witness :
  let lo := mkLoadOracle true false (Some "") in
  let os := [mkOracle true true true [Finite (1 # 2); Finite 1] (Some 0%Z) true "blob:2"] in
  hook (world (mountEffect lo firstRender))
  = mkState false false 0 "Failed to load engine"
      (Some ("Engine Error: "
             ++ orElse (errMessage lo) "Check console details"))
  /\ fst (renderAll os (mountEffect lo firstRender))
     = map (fun _ => Return None) os
  /\ files (world (snd (renderAll os (mountEffect lo firstRender)))) = []
  /\ hook (world (snd (renderAll os (mountEffect lo firstRender))))
     = mkState false false 0 "Failed to load engine"
         (match os with
          | [] => Some ("Engine Error: "
                        ++ orElse (errMessage lo) "Check console details")
          | _ :: _ => Some "Engine not ready"
          end).
Proof.
  exact (failed_load_refuses_renders (mkLoadOracle true false (Some ""))
           [mkOracle true true true [Finite (1 # 2); Finite 1] (Some 0%Z) true "blob:2"]
           eq_refl).
Defined.

(** *** The progress listener *)

(** The product is rounded to a double before [Math.round] sees it:
    [0.045 * 100] is [4.5] in doubles (the exact product lies below), so
    the hook shows 5. *)
Example onProgress_rounds_the_double :
  percent (double (45 # 1000)) = Finite 5
  /\ Math.round (Finite (double (45 # 1000) * 100)) = Finite 4
  /\ status (hook (snd (onProgress (double (45 # 1000)) engineReady)))
     = "Rendering... 5%"
  /\ status (hook (snd (onProgress NaN engineReady))) = "Rendering... NaN%".
Proof. vm_compute. repeat split. Qed.

End VideoProcessorFacts.
